(** * AQNet: the data-handling notebook and the dataset builder

    A shallow embedding of the feature-engineering cells of
    [Data_handling.ipynb] (steps 5 to 9 of the notebook) and of the
    dataset-building cell of [Model_Pipeline.ipynb], with the properties the
    specification states about them.

    Numbers.  A float64 cell is modelled as [option Q]: [None] is NaN and
    [Some q] an exact rational.  All arithmetic below is exact; the
    binary64 rounding of the interpreter is not modelled.

    Tables.  A data frame is a list of named numeric columns over a common
    row index, plus the grouping column [Station_ID], an integer column
    without missing keys.  Column names are distinct, as [read_csv] makes
    them and as column assignment keeps them.  The table is the one the
    notebook holds after its step 3: the calendar columns (Year, Month,
    Day, DayOfWeek) are ordinary numeric columns of it, and the datetime
    column itself is not modelled.

    Exceptions.  Column selection, [reset_index], the scalers and the split
    can raise; the cells are functions into [result], and a [print] of a
    column selection is kept as the selection it evaluates. *)

From Stdlib Require Import ZArith QArith Qround Qabs Qreduction Qpower.
From Stdlib Require Import Lia Lqa String Bool List Sorted.
Import ListNotations.

Open Scope Q_scope.

(** ** Cells, series and rounding *)

Definition value := option Q.
Definition Series := list value.

(** [numpy.rint]: the nearest integer, ties to the even one. *)
Definition rint (q : Q) : Z :=
  let f := Qfloor q in
  match Qcompare (q - inject_Z f) (1 # 2) with
  | Lt => f
  | Gt => (f + 1)%Z
  | Eq => if Z.even f then f else (f + 1)%Z
  end.

(** [numpy.round(q, decimals)] is [rint (q * 10^decimals) / 10^decimals].
    The result is kept in lowest terms. *)
Definition np_round (decimals : nat) (q : Q) : Q :=
  let m := inject_Z (10 ^ Z.of_nat decimals) in
  Qred (inject_Z (rint (q * m)) / m).

Definition round4 (q : Q) : Q := np_round 4 q.

(** [Series.round(4)]: NaN stays NaN. *)
Definition round_series (x : Series) : Series := map (option_map round4) x.

(** ** [Series.interpolate(method='linear', limit_direction='both')]

    With [method='linear'] pandas ignores the index and interpolates over
    the positions [0 .. len-1].  The known cells become the sample points
    of [numpy.interp]; every NaN cell is replaced by the interpolant at its
    position.  [numpy.interp] is constant outside the sample range, which
    is how the leading and the trailing NaN runs are filled.  A series with
    no known cell is returned unchanged. *)

Fixpoint valid_points (i : Z) (x : Series) : list (Z * Q) :=
  match x with
  | [] => []
  | Some v :: x' => (i, v) :: valid_points (i + 1) x'
  | None :: x' => valid_points (i + 1) x'
  end.

(** [numpy.interp] to the right of the sample point [p0]. *)
Fixpoint interp_from (x : Z) (p0 : Z * Q) (ps : list (Z * Q)) : Q :=
  match ps with
  | [] => snd p0
  | p1 :: ps' =>
      if (x <? fst p1)%Z then
        let slope := (snd p1 - snd p0) / inject_Z (fst p1 - fst p0) in
        slope * inject_Z (x - fst p0) + snd p0
      else interp_from x p1 ps'
  end.

Definition np_interp (x : Z) (ps : list (Z * Q)) : value :=
  match ps with
  | [] => None
  | p0 :: ps' =>
      if (x <=? fst p0)%Z then Some (snd p0) else Some (interp_from x p0 ps')
  end.

Fixpoint fill_interp (ps : list (Z * Q)) (i : Z) (x : Series) : Series :=
  match x with
  | [] => []
  | Some v :: x' => Some v :: fill_interp ps (i + 1) x'
  | None :: x' => np_interp i ps :: fill_interp ps (i + 1) x'
  end.

Definition interpolate (x : Series) : Series :=
  fill_interp (valid_points 0 x) 0 x.

(** ** [Series.rolling(window, min_periods).mean()]

    pandas keeps a running count and a running sum of the known cells of
    the window: entering position [i] it drops the cell that leaves the
    window, then adds cell [i], and emits [sum / count] when at least
    [min_periods] (and at least one) cells are known. *)

Record MeanState := mkMeanState { nobs : Z; sum_x : Q }.

Definition add_mean (v : value) (s : MeanState) : MeanState :=
  match v with
  | Some q => mkMeanState (nobs s + 1) (sum_x s + q)
  | None => s
  end.

Definition remove_mean (v : value) (s : MeanState) : MeanState :=
  match v with
  | Some q => mkMeanState (nobs s - 1) (sum_x s - q)
  | None => s
  end.

Definition calc_mean (minp : Z) (s : MeanState) : value :=
  if ((minp <=? nobs s) && (0 <? nobs s))%Z%bool
  then Some (sum_x s / inject_Z (nobs s))
  else None.

Fixpoint roll_mean_from (window : nat) (minp : Z) (values : Series)
    (i : nat) (s : MeanState) (rest : Series) : Series :=
  match rest with
  | [] => []
  | v :: rest' =>
      let s1 := if (window <=? i)%nat
                then remove_mean (nth (i - window) values None) s
                else s in
      let s2 := add_mean v s1 in
      calc_mean minp s2 :: roll_mean_from window minp values (S i) s2 rest'
  end.

Definition rolling_mean (window : nat) (minp : Z) (x : Series) : Series :=
  roll_mean_from window minp x 0 (mkMeanState 0 0) x.

(** ** [Series.shift(1)], [fillna(method='bfill')], [fillna(method='ffill')] *)

Definition shift1 (x : Series) : Series :=
  match x with
  | [] => []
  | _ :: _ => None :: removelast x
  end.

Fixpoint bfill (x : Series) : Series :=
  match x with
  | [] => []
  | v :: x' =>
      let r := bfill x' in
      match v with
      | Some _ => v :: r
      | None => hd None r :: r
      end
  end.

Fixpoint ffill_from (last : value) (x : Series) : Series :=
  match x with
  | [] => []
  | Some v :: x' => Some v :: ffill_from (Some v) x'
  | None :: x' => last :: ffill_from last x'
  end.

Definition ffill (x : Series) : Series := ffill_from None x.

(** ** Exceptions *)

Inductive error :=
| KeyError (name : string)
| ValueError (msg : string).

Inductive result (A : Type) :=
| Ok (a : A)
| Raise (e : error).

Arguments Ok {A} a.
Arguments Raise {A} e.

Definition bind {A B} (m : result A) (k : A -> result B) : result B :=
  match m with
  | Ok a => k a
  | Raise e => Raise e
  end.

Notation "x <- m ;; k" := (bind m (fun x => k))
  (at level 61, m at next level, right associativity).

Fixpoint foldM {A B} (f : A -> B -> result A) (a : A) (l : list B) : result A :=
  match l with
  | [] => Ok a
  | b :: l' => a' <- f a b ;; foldM f a' l'
  end.

(** ** Data frames *)

Record DataFrame := mkDataFrame {
  Station_ID : list Z;
  columns : list (string * Series)
}.

Fixpoint lookup (name : string) (cols : list (string * Series)) : option Series :=
  match cols with
  | [] => None
  | (n, c) :: cols' => if String.eqb n name then Some c else lookup name cols'
  end.

(** [df[name] = s]: an existing column is replaced in place, a new one is
    appended. *)
Fixpoint assign (name : string) (s : Series) (cols : list (string * Series))
  : list (string * Series) :=
  match cols with
  | [] => [(name, s)]
  | (n, c) :: cols' =>
      if String.eqb n name then (name, s) :: cols'
      else (n, c) :: assign name s cols'
  end.

Definition get_column (name : string) (df : DataFrame) : option Series :=
  lookup name (columns df).

Definition has_column (name : string) (df : DataFrame) : bool :=
  match get_column name df with Some _ => true | None => false end.

Definition set_column (name : string) (s : Series) (df : DataFrame) : DataFrame :=
  mkDataFrame (Station_ID df) (assign name s (columns df)).

(** [df[name]] as an expression: a missing column raises [KeyError]. *)
Definition column (name : string) (df : DataFrame) : result Series :=
  match get_column name df with
  | Some c => Ok c
  | None => Raise (KeyError name)
  end.

(** [df[[n1, ..., nk]]]: raises [KeyError] when a name is missing.  The
    notebook only prints the head of the selection, so nothing is kept. *)
Fixpoint select_columns (names : list string) (df : DataFrame) : result unit :=
  match names with
  | [] => Ok tt
  | n :: names' => _ <- column n df ;; select_columns names' df
  end.

Definition map_columns (f : Series -> Series) (df : DataFrame) : DataFrame :=
  mkDataFrame (Station_ID df) (map (fun nc => (fst nc, f (snd nc))) (columns df)).

(** A table is well formed when every column has one cell per row. *)
Definition well_formed (df : DataFrame) : Prop :=
  forall n c, In (n, c) (columns df) -> length c = length (Station_ID df).

(** ** [groupby('Station_ID')] *)

(** The group keys, ascending and without repetition ([sort=True]). *)
Fixpoint insert_key (k : Z) (ks : list Z) : list Z :=
  match ks with
  | [] => [k]
  | h :: t =>
      if (k <? h)%Z then k :: ks
      else if (k =? h)%Z then ks
      else h :: insert_key k t
  end.

Definition group_keys (st : list Z) : list Z := fold_right insert_key [] st.

(** The cells of the rows of station [k], in row order. *)
Fixpoint group_values (k : Z) (st : list Z) (col : Series) : Series :=
  match st, col with
  | s :: st', v :: col' =>
      if (s =? k)%Z then v :: group_values k st' col'
      else group_values k st' col'
  | _, _ => []
  end.

(** [groupby(...)[c].apply(f).values]: the per-group results laid end to
    end, the groups in ascending key order. *)
Definition groupby_apply_values (f : Series -> Series) (st : list Z) (col : Series)
  : Series :=
  flat_map (fun k => f (group_values k st col)) (group_keys st).

(** The position of row [r] inside its own group. *)
Definition group_rank (st : list Z) (r : nat) : nat :=
  count_occ Z.eq_dec (firstn r st) (nth r st 0%Z).

(** [groupby(...)[c].transform(f)] and [groupby(...)[c].shift(1)]: the
    per-group results put back on the rows they came from. *)
Definition groupby_transform (f : Series -> Series) (st : list Z) (col : Series)
  : Series :=
  map (fun r => nth (group_rank st r) (f (group_values (nth r st 0%Z) st col)) None)
      (seq 0 (length st)).

(** ** The notebook cells *)

Definition core_features : list string :=
  ["PM2.5 (µg/m³)"; "PM10 (µg/m³)"; "NOx (ppb)"; "CO (mg/m³)"; "Ozone (µg/m³)"]%string.

Definition rolling_name (feature : string) : string := (feature ++ "_rolling_mean")%string.
Definition lag_name (feature : string) : string := (feature ++ "_lag_1")%string.

(** [raw_data.reset_index()] works on a copy, to which it adds the old row
    index as a column named [index], or [level_0] when the table has an
    [index] column already, and it raises when both names are taken.  The
    copy only serves the grouped selection of one column, so nothing else of
    it is kept. *)
Definition reset_index (df : DataFrame) : result unit :=
  if has_column "index" df && has_column "level_0" df
  then Raise (ValueError "cannot insert level_0, already exists")
  else Ok tt.

(** Step 5, the body of the loop. *)
Definition interpolate_feature (raw_data : DataFrame) (feature : string)
  : result DataFrame :=
  match get_column feature raw_data with
  | None => Ok raw_data
  | Some col =>
      _ <- reset_index raw_data ;;
      let interpolated_data :=
        groupby_apply_values interpolate (Station_ID raw_data) col in
      let raw_data := set_column feature interpolated_data raw_data in
      Ok (set_column feature (round_series interpolated_data) raw_data)
  end.

Definition step5 (raw_data : DataFrame) : result DataFrame :=
  foldM interpolate_feature raw_data core_features.

(** Step 6, the body of the loop. *)
Definition derive_feature (raw_data : DataFrame) (feature : string) : DataFrame :=
  match get_column feature raw_data with
  | None => raw_data
  | Some col =>
      let st := Station_ID raw_data in
      let raw_data :=
        set_column (rolling_name feature)
          (round_series (groupby_transform (rolling_mean 7 1) st col)) raw_data in
      set_column (lag_name feature)
        (round_series (groupby_transform shift1 st col)) raw_data
  end.

(** Step 6: the loop, then the print of all five rolling-mean columns. *)
Definition step6 (raw_data : DataFrame) : result DataFrame :=
  let raw_data := fold_left derive_feature core_features raw_data in
  _ <- select_columns (map rolling_name core_features) raw_data ;;
  Ok raw_data.

(** Step 7, the body of the loop. *)
Definition backfill_feature (raw_data : DataFrame) (feature : string)
  : result DataFrame :=
  if has_column feature raw_data then
    lag <- column (lag_name feature) raw_data ;;
    let raw_data := set_column (lag_name feature) (round_series (bfill lag)) raw_data in
    rm <- column (rolling_name feature) raw_data ;;
    Ok (set_column (rolling_name feature) (round_series (bfill rm)) raw_data)
  else Ok raw_data.

(** Step 7: the loop, then the print of all five lag columns. *)
Definition step7 (raw_data : DataFrame) : result DataFrame :=
  raw_data <- foldM backfill_feature raw_data core_features ;;
  _ <- select_columns (map lag_name core_features) raw_data ;;
  Ok raw_data.

(** Step 8: [raw_data.fillna(method='ffill').round(4)]. *)
Definition step8 (raw_data : DataFrame) : DataFrame :=
  map_columns (fun c => round_series (ffill c)) raw_data.

(** Step 9: [raw_data.reset_index(drop=True).round(4)], the table that is
    written out. *)
Definition step9 (raw_data : DataFrame) : DataFrame :=
  map_columns round_series raw_data.

(** The table after steps 5 and 6, before the fill passes. *)
Definition derive (raw_data : DataFrame) : result DataFrame :=
  raw_data <- step5 raw_data ;;
  step6 raw_data.

(** The fill passes and the final rounding. *)
Definition fill_passes (raw_data : DataFrame) : result DataFrame :=
  raw_data <- step7 raw_data ;;
  Ok (step9 (step8 raw_data)).

Definition feature_engineering (raw_data : DataFrame) : result DataFrame :=
  raw_data <- derive raw_data ;;
  fill_passes raw_data.

(** ** [sklearn.preprocessing.MinMaxScaler], feature range (0, 1)

    One scaler per column.  NaN cells are ignored by [fit] and kept by
    [transform]. *)

Definition vlift2 (op : Q -> Q -> Q) (a b : value) : value :=
  match a, b with
  | Some x, Some y => Some (op x y)
  | _, _ => None
  end.

Definition qmin (a b : Q) : Q := if Qle_bool a b then a else b.
Definition qmax (a b : Q) : Q := if Qle_bool a b then b else a.

Fixpoint nanreduce (op : Q -> Q -> Q) (x : Series) : value :=
  match x with
  | [] => None
  | v :: x' =>
      match v, nanreduce op x' with
      | Some a, Some b => Some (op a b)
      | Some a, None => Some a
      | None, m => m
      end
  end.

Definition nanmin : Series -> value := nanreduce qmin.
Definition nanmax : Series -> value := nanreduce qmax.

(** The float64 machine epsilon, [2^-52]. *)
Definition eps : Q := 1 # (2 ^ 52).

(** [_handle_zeros_in_scale]: a range below [10 * eps] is treated as
    constant and replaced by 1. *)
Definition handle_zeros_in_scale (scale : value) : value :=
  match scale with
  | Some s => match Qcompare s (10 * eps) with Lt => Some 1 | _ => Some s end
  | None => None
  end.

Record MinMaxScaler := mkMinMaxScaler {
  data_min_ : value;
  data_max_ : value;
  data_range_ : value;
  scale_ : value;
  min_ : value
}.

Definition fit (x : Series) : MinMaxScaler :=
  let data_min := nanmin x in
  let data_max := nanmax x in
  let data_range := vlift2 Qminus data_max data_min in
  let scale := vlift2 Qdiv (Some (1 - 0)) (handle_zeros_in_scale data_range) in
  let min := vlift2 Qminus (Some 0) (vlift2 Qmult data_min scale) in
  mkMinMaxScaler data_min data_max data_range scale min.

Definition transform1 (s : MinMaxScaler) (v : value) : value :=
  vlift2 Qplus (vlift2 Qmult v (scale_ s)) (min_ s).

Definition inverse_transform1 (s : MinMaxScaler) (v : value) : value :=
  vlift2 Qdiv (vlift2 Qminus v (min_ s)) (scale_ s).

Definition transform (s : MinMaxScaler) (x : Series) : Series :=
  map (transform1 s) x.

Definition inverse_transform (s : MinMaxScaler) (x : Series) : Series :=
  map (inverse_transform1 s) x.

Definition fit_transform (x : Series) : MinMaxScaler * Series :=
  let s := fit x in (s, transform s x).

(** ** [sklearn.model_selection.train_test_split(test_size=0.2, shuffle=False)]

    The test part has [ceil(0.2 * n_samples)] samples and the training part
    the others; an empty training part is refused.  Without shuffling the
    training part is the first [n_train] samples and the test part the
    [n_test] samples that follow.  (The binary64 product [0.2 * n] is the
    exact one rounded to nearest, which is [n / 5] itself when 5 divides
    [n] and otherwise far from an integer, so its ceiling is the exact
    one.) *)

Definition n_test_of (n_samples : nat) : nat :=
  Z.to_nat (Qceiling ((2 # 10) * inject_Z (Z.of_nat n_samples))).

Definition train_test_split {A B : Type} (X : list A) (y : list B)
  : result (list A * list A * list B * list B) :=
  let n_samples := length X in
  if negb (length y =? n_samples)%nat
  then Raise (ValueError "inconsistent numbers of samples")
  else
    let n_test := n_test_of n_samples in
    let n_train := (n_samples - n_test)%nat in
    if (n_train =? 0)%nat
    then Raise (ValueError "the resulting train set will be empty")
    else Ok (firstn n_train X, firstn n_test (skipn n_train X),
             firstn n_train y, firstn n_test (skipn n_train y)).

(** ** The dataset-building cell of the model notebook *)

Definition features : list string :=
  ["PM10 (µg/m³)"; "NOx (ppb)"; "CO (mg/m³)"; "Ozone (µg/m³)";
   "PM2.5 (µg/m³)_rolling_mean"; "PM2.5 (µg/m³)_lag_1";
   "PM10 (µg/m³)_rolling_mean"; "PM10 (µg/m³)_lag_1";
   "NOx (ppb)_rolling_mean"; "NOx (ppb)_lag_1";
   "CO (mg/m³)_rolling_mean"; "CO (mg/m³)_lag_1";
   "Ozone (µg/m³)_rolling_mean"; "Ozone (µg/m³)_lag_1"]%string.

Definition target : string := "PM2.5 (µg/m³)"%string.

(** [data[names]], column by column. *)
Fixpoint select (names : list string) (df : DataFrame) : result (list Series) :=
  match names with
  | [] => Ok []
  | n :: names' =>
      c <- column n df ;;
      cs <- select names' df ;;
      Ok (c :: cs)
  end.

(** Both scalers refuse a table without rows. *)
Definition check_samples (df : DataFrame) : result unit :=
  match Station_ID df with
  | [] => Raise (ValueError "Found array with 0 sample(s)")
  | _ :: _ => Ok tt
  end.

(** The rows of a matrix given by its columns. *)
Definition rows_of (n : nat) (cols : list Series) : list (list value) :=
  map (fun i => map (fun c => nth i c None) cols) (seq 0 n).

Record Dataset := mkDataset {
  X_train : list (list (list value));
  X_test : list (list (list value));
  y_train : list (list value);
  y_test : list (list value);
  scaler_X : list MinMaxScaler;
  scaler_y : MinMaxScaler
}.

Definition dataset_builder (data : DataFrame) : result Dataset :=
  cols <- select features data ;;
  _ <- check_samples data ;;
  let scaler_X := map fit cols in
  let X := map (fun c => transform (fit c) c) cols in
  ycol <- column target data ;;
  let scaler_y := fit ycol in
  let y := map (fun v => [v]) (transform scaler_y ycol) in
  let X := map (fun row => [row]) (rows_of (length (Station_ID data)) X) in
  split <- train_test_split X y ;;
  let '(X_train, X_test, y_train, y_test) := split in
  Ok (mkDataset X_train X_test y_train y_test scaler_X scaler_y).

(** ** Definitions that follow the specification's wording

    They are what the code is compared with below. *)

(** The known cells of a series. *)
Fixpoint known (x : Series) : list Q :=
  match x with
  | [] => []
  | Some q :: x' => q :: known x'
  | None :: x' => known x'
  end.

Definition qsum (l : list Q) : Q := fold_right Qplus 0 l.

(** The arithmetic mean of the known cells, NaN when there is none. *)
Definition mean (x : Series) : value :=
  match known x with
  | [] => None
  | _ :: _ => Some (qsum (known x) / inject_Z (Z.of_nat (length (known x))))
  end.

(** The trailing window of at most [w] cells that ends at position [i],
    [i] included. *)
Definition trailing_window (w i : nat) (x : Series) : Series :=
  skipn (S i - w) (firstn (S i) x).

(** Two columns agree on every row that does not belong to station [s]. *)
Definition agree_off (s : Z) (st : list Z) (c1 c2 : Series) : Prop :=
  length c1 = length c2 /\
  forall r k, nth_error st r = Some k -> k <> s -> nth_error c1 r = nth_error c2 r.

(** Two tables with the same rows and columns that agree outside station
    [s]. *)
Definition tables_agree_off (s : Z) (df1 df2 : DataFrame) : Prop :=
  Station_ID df1 = Station_ID df2 /\
  Forall2 (fun nc1 nc2 =>
             fst nc1 = fst nc2 /\ agree_off s (Station_ID df1) (snd nc1) (snd nc2))
          (columns df1) (columns df2).

(** The three derived columns of a pollutant. *)
Definition derived_columns (feature : string) : list string :=
  [feature; rolling_name feature; lag_name feature].

(** A cell of a table, when the column and the row exist. *)
Definition cell (name : string) (r : nat) (df : DataFrame) : option value :=
  match get_column name df with
  | Some c => nth_error c r
  | None => None
  end.

(** No column of the table has a missing cell. *)
Definition no_missing (df : DataFrame) : Prop :=
  forall n c, In (n, c) (columns df) -> Forall (fun v => v <> None) c.

(** Equality of cells up to the representation of the rational. *)
Definition veq (a b : value) : Prop :=
  match a, b with
  | Some x, Some y => x == y
  | None, None => True
  | _, _ => False
  end.

(** The running state of the rolling mean stands for a list of cells. *)
Definition represents (s : MeanState) (l : Series) : Prop :=
  nobs s = Z.of_nat (length (known l)) /\ sum_x s == qsum (known l).

(** The cells seen so far that are still inside the window when position
    [i] is entered. *)
Definition window_before (w i : nat) (x : Series) : Series :=
  skipn (i - w) (firstn i x).

(** The derived column names neither clash with each other nor with the
    pollutant columns themselves. *)
Definition names_independent (fs : list string) : Prop :=
  NoDup fs /\
  forall f g, In f fs -> In g fs ->
    rolling_name f <> g /\ lag_name f <> g /\ rolling_name f <> lag_name g /\
    (f <> g -> rolling_name f <> rolling_name g /\ lag_name f <> lag_name g).

(** The same, column name by column name. *)
Definition columns_agree_off (s : Z) (df1 df2 : DataFrame) : Prop :=
  Station_ID df1 = Station_ID df2 /\
  forall c,
    match get_column c df1, get_column c df2 with
    | Some c1, Some c2 => agree_off s (Station_ID df1) c1 c2
    | None, None => True
    | _, _ => False
    end.

(** Every known cell of [df] is the same cell of [out], rounded. *)
Definition keeps_known (df out : DataFrame) : Prop :=
  forall c r v, cell c r df = Some (Some v) ->
    exists v', cell c r out = Some (Some v') /\ round4 v' = round4 v.

(** Executable forms of the two assumptions on an input table. *)
Definition well_formedb (df : DataFrame) : bool :=
  forallb (fun nc => (length (snd nc) =? length (Station_ID df))%nat) (columns df).

Fixpoint ascending (st : list Z) : bool :=
  match st with
  | [] => true
  | k :: st' =>
      match st' with
      | [] => true
      | h :: _ => (k <=? h)%Z && ascending st'
      end
  end.

(** ** Example tables *)

(** A table whose five pollutant columns all hold the series [c]. *)
Definition uniform_table (st : list Z) (c : Series) : DataFrame :=
  mkDataFrame st (map (fun n => (n, c)) core_features).

(** The end-to-end scenario of the specification: ten rows of one station,
    one interior missing value between 200 and 220. *)
Definition scenario_series : Series :=
  [Some 170; Some 180; Some 190; Some 200; None;
   Some 220; Some 230; Some 240; Some 250; Some 260].

Definition scenario_table : DataFrame :=
  uniform_table (repeat 1%Z 10) scenario_series.

(** Two stations listed in descending order. *)
Definition descending_table : DataFrame :=
  uniform_table [2%Z; 1%Z] [Some 10; Some 20].

(** One station, three known samples. *)
Definition three_sample_table : DataFrame :=
  uniform_table [1%Z; 1%Z; 1%Z] [Some 1; Some 2; Some 2].

(** A table without the ozone column. *)
Definition no_ozone_table : DataFrame :=
  mkDataFrame [1%Z; 1%Z]
    (map (fun n => (n, [Some 1; Some 2]))
         ["PM2.5 (µg/m³)"; "PM10 (µg/m³)"; "NOx (ppb)"; "CO (mg/m³)"]%string).

(** A table with a column outside the five pollutants whose first cell is
    missing, as the ammonia column of the data set is. *)
Definition leading_gap_table : DataFrame :=
  mkDataFrame [1%Z; 1%Z]
    (("NH3 (µg/m³)"%string, [None; Some (4645 # 100)])
       :: map (fun n => (n, [Some 1; Some 2])) core_features).

(** Two runs that differ only in the rows of station 2.  In the first
    pair station 1 has a single row, in the second pair it has two. *)
Definition single_row_run1 : DataFrame :=
  uniform_table [1%Z; 2%Z; 2%Z] [Some 10; Some 20; Some 30].
Definition single_row_run2 : DataFrame :=
  uniform_table [1%Z; 2%Z; 2%Z] [Some 10; Some 99; Some 30].

Definition two_row_run1 : DataFrame :=
  uniform_table [1%Z; 1%Z; 2%Z] [Some 10; Some 20; Some 30].
Definition two_row_run2 : DataFrame :=
  uniform_table [1%Z; 1%Z; 2%Z] [Some 10; Some 20; Some 99].

(** [agree_off] on explicit columns, row by row. *)
Ltac agree_off_concrete :=
  split; [reflexivity|];
  let r := fresh "r" in let k := fresh "k" in
  let Hr := fresh "Hr" in let Hk := fresh "Hk" in
  intros r k Hr Hk;
  repeat (destruct r as [|r];
          [simpl in Hr; injection Hr as <-; first [reflexivity | now contradiction Hk]|]);
  destruct r; discriminate Hr.

(** A scaled cell lies in the unit interval. *)
Definition in_unit (v : value) : Prop :=
  match v with
  | Some q => 0 <= q /\ q <= 1
  | None => False
  end.



(** An enriched table of a single row. *)
Definition one_row_table : DataFrame :=
  mkDataFrame [1%Z] (map (fun n => (n, [Some 1])) (target :: features)).


(** The enriched table of the end-to-end scenario. *)
Definition scenario_enriched : DataFrame :=
  match feature_engineering scenario_table with
  | Ok out => out
  | Raise _ => scenario_table
  end.


(** ** Further definitions

    The names of the columns of a table, in order. *)
Definition column_names (df : DataFrame) : list string := map fst (columns df).

(** The table has all five pollutant columns. *)
Definition has_core_features (df : DataFrame) : Prop :=
  forall f, In f core_features -> get_column f df <> None.


(** ** The evaluation cell of the model notebook

    [sklearn.metrics.r2_score], [mean_absolute_error] and
    [mean_squared_error], on two arrays of shape [(n, 1)] as the cell
    passes them: the targets of a partition and the predictions for it.
    With a single output column the average over the outputs is the value
    of that column.  Arithmetic is exact. *)

(** The cells of a column when none is NaN. *)
Fixpoint all_finite (x : Series) : option (list Q) :=
  match x with
  | [] => Some []
  | Some q :: x' => option_map (cons q) (all_finite x')
  | None :: _ => None
  end.

(** [check_array]: NaN and an empty array are refused. *)
Definition check_array (x : Series) : result (list Q) :=
  match all_finite x with
  | None => Raise (ValueError "Input contains NaN")
  | Some [] => Raise (ValueError "Found array with 0 sample(s)")
  | Some qs => Ok qs
  end.

(** [_check_reg_targets]: the two arrays have the same number of samples
    and pass [check_array]. *)
Definition check_reg_targets (y_true y_pred : list (list value))
  : result (list Q * list Q) :=
  if negb (length y_true =? length y_pred)%nat
  then Raise (ValueError "inconsistent numbers of samples")
  else
    t <- check_array (map (hd None) y_true) ;;
    p <- check_array (map (hd None) y_pred) ;;
    Ok (t, p).

(** [np.average(l, axis=0)]. *)
Definition average (l : list Q) : Q := qsum l / inject_Z (Z.of_nat (length l)).

(** [np.abs(y_pred - y_true)] and [(y_true - y_pred) ** 2] of one sample. *)
Definition abs_error (tp : Q * Q) : Q := Qabs (snd tp - fst tp).
Definition sq_error (tp : Q * Q) : Q := (fst tp - snd tp) * (fst tp - snd tp).

Definition mean_absolute_error (y_true y_pred : list (list value)) : result Q :=
  tp <- check_reg_targets y_true y_pred ;;
  Ok (average (map abs_error (combine (fst tp) (snd tp)))).

Definition mean_squared_error (y_true y_pred : list (list value)) : result Q :=
  tp <- check_reg_targets y_true y_pred ;;
  Ok (average (map sq_error (combine (fst tp) (snd tp)))).

(** [r2_score]: NaN for fewer than two samples; otherwise
    [1 - numerator / denominator], replaced by 1 when the numerator is zero
    and by 0 when only the denominator is. *)
Definition r2_score (y_true y_pred : list (list value)) : result value :=
  tp <- check_reg_targets y_true y_pred ;;
  let t := fst tp in
  let p := snd tp in
  if (length p <? 2)%nat then Ok None
  else
    let numerator := qsum (map sq_error (combine t p)) in
    let denominator :=
      qsum (map (fun a => (a - average t) * (a - average t)) t) in
    Ok (Some (if Qeq_bool numerator 0 then 1
              else if Qeq_bool denominator 0 then 0
              else 1 - numerator / denominator)).

Record Scores := mkScores {
  r2_train : value;
  r2_test : value;
  mae_train : Q;
  mae_test : Q;
  mse_train : Q;
  mse_test : Q
}.

(** The evaluation cell, given the predictions of the model for the two
    partitions.  The cell prints the square roots of the two mean squared
    errors. *)
Definition evaluate (ds : Dataset) (y_pred_train y_pred_test : list (list value))
  : result Scores :=
  r2_train <- r2_score (y_train ds) y_pred_train ;;
  r2_test <- r2_score (y_test ds) y_pred_test ;;
  mae_train <- mean_absolute_error (y_train ds) y_pred_train ;;
  mae_test <- mean_absolute_error (y_test ds) y_pred_test ;;
  mse_train <- mean_squared_error (y_train ds) y_pred_train ;;
  mse_test <- mean_squared_error (y_test ds) y_pred_test ;;
  Ok (mkScores r2_train r2_test mae_train mae_test mse_train mse_test).

(** Every known cell of [y] is a known cell of [x], as it is or rounded to
    four decimals. *)
Definition copied_from (x y : Series) : Prop :=
  forall v, In (Some v) y -> exists u, In (Some u) x /\ (v = u \/ v = round4 u).

(** ** Binary64 arithmetic

    The cells of the tables are binary64 numbers, and numpy, pandas and
    scikit-learn round the result of every arithmetic operation to the
    nearest binary64 number, ties to the even significand.  [b64] is that
    rounding on the rationals: 53 significant bits, gradual underflow
    below [2^-1022].  The exponent range is not bounded above, so an
    overflow to infinity is not modelled; the statements that depend on it
    bound the magnitudes they are about.

    [ilog2 q] is the integer part of the binary logarithm of [|q|]. *)
Definition ilog2 (q : Q) : Z :=
  let a := Qabs q in
  if Qle_bool 1 a then Z.log2 (Qfloor a)
  else (- Z.log2_up (Qceiling (/ a)))%Z.

(** The exponent of the unit in the last place of the binade of [q]. *)
Definition quantum (q : Q) : Z := Z.max (ilog2 q - 52) (-1074).

Definition b64 (q : Q) : Q :=
  let e := quantum q in
  Qred (inject_Z (rint (q / 2 ^ e)) * 2 ^ e).

(** The unit roundoff, and half the smallest positive binary64 number. *)
Definition u64 : Q := 2 ^ (-53).
Definition eta64 : Q := 2 ^ (-1075).

(** [numpy.round(q, decimals)] on binary64: the product with
    [10^decimals] is rounded to binary64, then to the nearest integer,
    and the quotient is rounded to binary64 again. *)
Definition np_round64 (decimals : nat) (q : Q) : Q :=
  let m := inject_Z (10 ^ Z.of_nat decimals) in
  b64 (inject_Z (rint (b64 (q * m))) / m).

Definition round4_64 (q : Q) : Q := np_round64 4 q.

Definition round_series64 (x : Series) : Series := map (option_map round4_64) x.

(** ** Interpolation in binary64

    [numpy.interp] computes [slope = (y1 - y0) / (x1 - x0)] and
    [slope * (x - x0) + y0], each operation rounded.  The positions are
    small integers, so their differences are exact. *)
Fixpoint interp_from64 (x : Z) (p0 : Z * Q) (ps : list (Z * Q)) : Q :=
  match ps with
  | [] => snd p0
  | p1 :: ps' =>
      if (x <? fst p1)%Z then
        let slope := b64 (b64 (snd p1 - snd p0) / inject_Z (fst p1 - fst p0)) in
        b64 (b64 (slope * inject_Z (x - fst p0)) + snd p0)
      else interp_from64 x p1 ps'
  end.

Definition np_interp64 (x : Z) (ps : list (Z * Q)) : value :=
  match ps with
  | [] => None
  | p0 :: ps' =>
      if (x <=? fst p0)%Z then Some (snd p0) else Some (interp_from64 x p0 ps')
  end.

Fixpoint fill_interp64 (ps : list (Z * Q)) (i : Z) (x : Series) : Series :=
  match x with
  | [] => []
  | Some v :: x' => Some v :: fill_interp64 ps (i + 1) x'
  | None :: x' => np_interp64 i ps :: fill_interp64 ps (i + 1) x'
  end.

Definition interpolate64 (x : Series) : Series :=
  fill_interp64 (valid_points 0 x) 0 x.

(** ** The scalers in binary64

    [MinMaxScaler.fit] computes [data_range_ = data_max_ - data_min_],
    [scale_ = (1 - 0) / _handle_zeros_in_scale(data_range_)] and
    [min_ = 0 - data_min_ * scale_]; [transform] computes [X *= scale_]
    then [X += min_], and [inverse_transform] computes [X -= min_] then
    [X /= scale_], without clipping.  Every operation is rounded. *)
Definition vlift2_64 (op : Q -> Q -> Q) (a b : value) : value :=
  vlift2 (fun x y => b64 (op x y)) a b.

Definition fit64 (x : Series) : MinMaxScaler :=
  let data_min := nanmin x in
  let data_max := nanmax x in
  let data_range := vlift2_64 Qminus data_max data_min in
  let scale := vlift2_64 Qdiv (Some (1 - 0)) (handle_zeros_in_scale data_range) in
  let min := vlift2_64 Qminus (Some 0) (vlift2_64 Qmult data_min scale) in
  mkMinMaxScaler data_min data_max data_range scale min.

Definition transform1_64 (s : MinMaxScaler) (v : value) : value :=
  vlift2_64 Qplus (vlift2_64 Qmult v (scale_ s)) (min_ s).

Definition inverse_transform1_64 (s : MinMaxScaler) (v : value) : value :=
  vlift2_64 Qdiv (vlift2_64 Qminus v (min_ s)) (scale_ s).

Definition transform64 (s : MinMaxScaler) (x : Series) : Series :=
  map (transform1_64 s) x.

Definition fit_transform64 (x : Series) : MinMaxScaler * Series :=
  let s := fit64 x in (s, transform64 s x).

(** The dataset-building cell with the scalers in binary64. *)
Definition dataset_builder64 (data : DataFrame) : result Dataset :=
  cols <- select features data ;;
  _ <- check_samples data ;;
  let scaler_X := map fit64 cols in
  let X := map (fun c => transform64 (fit64 c) c) cols in
  ycol <- column target data ;;
  let scaler_y := fit64 ycol in
  let y := map (fun v => [v]) (transform64 scaler_y ycol) in
  let X := map (fun row => [row]) (rows_of (length (Station_ID data)) X) in
  split <- train_test_split X y ;;
  let '(X_train, X_test, y_train, y_test) := split in
  Ok (mkDataset X_train X_test y_train y_test scaler_X scaler_y).

(** A scaled cell lies between [a] and [b], or is missing. *)
Definition in_range (a b : Q) (v : value) : Prop :=
  match v with
  | Some q => a <= q /\ q <= b
  | None => False
  end.

Definition in_range_or_nan (a b : Q) (v : value) : Prop :=
  match v with
  | Some q => a <= q /\ q <= b
  | None => True
  end.

(** The known cells of the column are far from overflow, and the column is
    constant or its extremes are at most [K] times its range away from
    zero. *)
Definition conditioned (K : Q) (c : Series) : Prop :=
  forall lo hi, nanmin c = Some lo -> nanmax c = Some hi ->
    Qabs lo <= 2 ^ 500 /\ Qabs hi <= 2 ^ 500 /\
    (lo == hi \/ Qabs lo + Qabs hi <= K * (hi - lo)).
(** * Properties *)

(** ** Rounding *)

Lemma rint_comp (x y : Q) : x == y -> rint x = rint y.
Proof.
  intros E. unfold rint.
  rewrite (Qfloor_comp _ _ E).
  assert (E' : x - inject_Z (Qfloor y) == y - inject_Z (Qfloor y)) by (rewrite E; reflexivity).
  rewrite (Qcompare_comp _ _ E' (1 # 2) (1 # 2) (Qeq_refl _)).
  reflexivity.
Qed.

Lemma rint_inject_Z (z : Z) : rint (inject_Z z) = z.
Proof.
  unfold rint. rewrite Qfloor_Z.
  assert (E : inject_Z z - inject_Z z == 0) by ring.
  rewrite (Qcompare_comp _ _ E (1 # 2) (1 # 2) (Qeq_refl _)).
  reflexivity.
Qed.

Lemma np_round_comp (d : nat) (x y : Q) : x == y -> np_round d x = np_round d y.
Proof.
  intros E. unfold np_round.
  apply Qred_complete.
  set (m := inject_Z (10 ^ Z.of_nat d)).
  rewrite (rint_comp (x * m) (y * m)); [reflexivity | rewrite E; reflexivity].
Qed.

Lemma round4_comp (x y : Q) : x == y -> round4 x = round4 y.
Proof. apply np_round_comp. Qed.

Lemma pow10_pos (d : nat) : (0 < 10 ^ Z.of_nat d)%Z.
Proof. apply Z.pow_pos_nonneg; lia. Qed.

Lemma np_round_idem (d : nat) (x : Q) : np_round d (np_round d x) = np_round d x.
Proof.
  unfold np_round at 1 3.
  apply Qred_complete.
  set (m := inject_Z (10 ^ Z.of_nat d)).
  assert (Hm : ~ m == 0).
  { unfold m. pose proof (pow10_pos d) as H.
    intros E. unfold Qeq in E. simpl in E. lia. }
  rewrite (rint_comp (np_round d x * m) (inject_Z (rint (x * m)))).
  - rewrite rint_inject_Z. reflexivity.
  - unfold np_round. fold m. rewrite Qred_correct. field. exact Hm.
Qed.

Lemma round4_idem (x : Q) : round4 (round4 x) = round4 x.
Proof. apply np_round_idem. Qed.

Lemma round_series_idem (x : Series) : round_series (round_series x) = round_series x.
Proof.
  unfold round_series. rewrite map_map. apply map_ext.
  intros [q|]; simpl; [rewrite round4_idem|]; reflexivity.
Qed.

Lemma round_series_length (x : Series) : length (round_series x) = length x.
Proof. apply length_map. Qed.

Lemma nth_error_round_series (x : Series) (r : nat) :
  nth_error (round_series x) r = option_map (option_map round4) (nth_error x r).
Proof. unfold round_series. apply nth_error_map. Qed.



(** ** Interpolation *)

Lemma fill_interp_length (ps : list (Z * Q)) (x : Series) (i : Z) :
  length (fill_interp ps i x) = length x.
Proof.
  revert i. induction x as [|[v|] x IH]; intros i; simpl; auto.
Qed.

Lemma interpolate_length (x : Series) : length (interpolate x) = length x.
Proof. apply fill_interp_length. Qed.

Lemma nth_error_fill_interp (ps : list (Z * Q)) (x : Series) (i : Z) (n : nat) :
  nth_error (fill_interp ps i x) n =
  match nth_error x n with
  | Some (Some v) => Some (Some v)
  | Some None => Some (np_interp (i + Z.of_nat n) ps)
  | None => None
  end.
Proof.
  revert i n. induction x as [|v x IH]; intros i n.
  - destruct n; reflexivity.
  - destruct n as [|n].
    + destruct v; simpl; [reflexivity|]. now rewrite Z.add_0_r.
    + replace (i + Z.of_nat (S n))%Z with (i + 1 + Z.of_nat n)%Z by lia.
      destruct v; simpl; apply IH.
Qed.

Lemma valid_points_app (x y : Series) (i : Z) :
  valid_points i (x ++ y) =
  valid_points i x ++ valid_points (i + Z.of_nat (length x)) y.
Proof.
  revert i. induction x as [|[v|] x IH]; intros i.
  - simpl. now rewrite Z.add_0_r.
  - simpl valid_points at 1 2. rewrite IH. simpl.
    do 3 f_equal. lia.
  - simpl valid_points at 1 2. rewrite IH. simpl.
    do 2 f_equal. lia.
Qed.

Lemma valid_points_bounds (x : Series) (i : Z) :
  Forall (fun p => (i <= fst p < i + Z.of_nat (length x))%Z) (valid_points i x).
Proof.
  revert i. induction x as [|[v|] x IH]; intros i; simpl valid_points.
  - constructor.
  - constructor.
    + simpl. lia.
    + eapply Forall_impl; [|apply IH]. simpl. intros p Hp.
      change (length (Some v :: x)) with (S (length x)). lia.
  - eapply Forall_impl; [|apply IH]. simpl. intros p Hp.
    change (length (@None Q :: x)) with (S (length x)). lia.
Qed.

(** Sample points at or to the left of [x] are passed over. *)
Lemma interp_from_skip (x : Z) (l : list (Z * Q)) (p0 q : Z * Q) (r : list (Z * Q)) :
  Forall (fun p => (fst p <= x)%Z) l -> (fst q <= x)%Z ->
  interp_from x p0 (l ++ q :: r) = interp_from x q r.
Proof.
  revert p0. induction l as [|p l IH]; intros p0 Hl Hq; simpl.
  - destruct (Z.ltb_spec x (fst q)); [lia | reflexivity].
  - inversion Hl as [|? ? Hp Hl']; subst.
    destruct (Z.ltb_spec x (fst p)); [lia|]. now apply IH.
Qed.

Lemma np_interp_between (x : Z) (l : list (Z * Q)) (i j : Z) (a b : Q)
    (r : list (Z * Q)) :
  Forall (fun p => (fst p < i)%Z) l -> (i < x < j)%Z ->
  np_interp x (l ++ (i, a) :: (j, b) :: r) =
  Some ((b - a) / inject_Z (j - i) * inject_Z (x - i) + a).
Proof.
  intros Hl Hx.
  assert (Hl' : Forall (fun p => (fst p <= x)%Z) l)
    by (eapply Forall_impl; [|exact Hl]; simpl; intros; lia).
  assert (E : interp_from x (i, a) ((j, b) :: r) =
              (b - a) / inject_Z (j - i) * inject_Z (x - i) + a).
  { simpl. destruct (Z.ltb_spec x j); [reflexivity | lia]. }
  destruct l as [|p0 l]; simpl.
  - destruct (Z.leb_spec x i); [lia|]. f_equal.
    destruct (Z.ltb_spec x j); [reflexivity | lia].
  - inversion Hl as [|? ? Hp Hl0]; subst.
    inversion Hl' as [|? ? Hp' Hl0']; subst.
    destruct (Z.leb_spec x (fst p0)); [lia|]. f_equal.
    rewrite (interp_from_skip x l p0 (i, a)); [exact E | exact Hl0' | simpl; lia].
Qed.


(** A known cell is left as it is. *)
Lemma interpolate_known (x : Series) (n : nat) (v : Q) :
  nth_error x n = Some (Some v) -> nth_error (interpolate x) n = Some (Some v).
Proof.
  intros H. unfold interpolate. now rewrite nth_error_fill_interp, H.
Qed.

(** ** Rolling mean *)


Lemma veq_round4 (a b : value) : veq a b -> option_map round4 a = option_map round4 b.
Proof.
  destruct a, b; simpl; intros H; try contradiction; [|reflexivity].
  f_equal. now apply round4_comp.
Qed.

Lemma known_app (x y : Series) : known (x ++ y) = known x ++ known y.
Proof.
  induction x as [|[v|] x IH]; simpl; [reflexivity | now rewrite IH | exact IH].
Qed.

Lemma qsum_app (l1 l2 : list Q) : qsum (l1 ++ l2) == qsum l1 + qsum l2.
Proof.
  induction l1 as [|a l1 IH]; simpl.
  - ring.
  - unfold qsum in *. simpl. rewrite IH. ring.
Qed.


Lemma represents_nil : represents (mkMeanState 0 0) [].
Proof. split; simpl; reflexivity. Qed.

Lemma represents_remove (s : MeanState) (v : value) (l : Series) :
  represents s (v :: l) -> represents (remove_mean v s) l.
Proof.
  intros [Hn Hs]. destruct v as [q|]; simpl in *.
  - split; simpl.
    + lia.
    + rewrite Hs. unfold qsum. simpl. ring.
  - split; assumption.
Qed.

Lemma represents_add (s : MeanState) (v : value) (l : Series) :
  represents s l -> represents (add_mean v s) (l ++ [v]).
Proof.
  intros [Hn Hs]. unfold represents. rewrite known_app.
  destruct v as [q|]; simpl.
  - split.
    + rewrite length_app. simpl. lia.
    + rewrite qsum_app, Hs. unfold qsum. simpl. ring.
  - rewrite app_nil_r. split; assumption.
Qed.

Lemma calc_mean_represents (s : MeanState) (l : Series) :
  represents s l -> veq (calc_mean 1 s) (mean l).
Proof.
  intros [Hn Hs]. unfold calc_mean, mean.
  destruct (known l) as [|q k] eqn:E.
  - simpl in Hn. rewrite Hn. simpl. exact I.
  - assert (Hpos : (1 <= nobs s)%Z) by (rewrite Hn; simpl length; lia).
    destruct (Z.leb_spec 1 (nobs s)); [|lia].
    destruct (Z.ltb_spec 0 (nobs s)); [|lia].
    simpl. rewrite Hs, Hn. reflexivity.
Qed.

Lemma skipn_firstn_snoc (x : Series) (a i : nat) :
  (a <= i)%nat -> (i < length x)%nat ->
  skipn a (firstn (S i) x) = skipn a (firstn i x) ++ [nth i x None].
Proof.
  intros Ha Hi.
  assert (E : firstn (S i) x = firstn i x ++ [nth i x None]).
  { clear a Ha. revert i Hi. induction x as [|v x IH]; intros i Hi; simpl in Hi; [lia|].
    destruct i as [|i]; [reflexivity|].
    simpl firstn at 2. simpl nth. rewrite <- app_comm_cons.
    change (firstn (S (S i)) (v :: x)) with (v :: firstn (S i) x).
    f_equal. apply IH. lia. }
  rewrite E, skipn_app.
  rewrite length_firstn.
  replace (a - Nat.min i (length x))%nat with 0%nat by lia.
  reflexivity.
Qed.

Lemma skipn_firstn_cons (x : Series) (a i : nat) :
  (a < i)%nat -> (i <= length x)%nat ->
  skipn a (firstn i x) = nth a x None :: skipn (S a) (firstn i x).
Proof.
  revert a i. induction x as [|v x IH]; intros a i Ha Hi; simpl in Hi.
  - lia.
  - destruct i as [|i]; [lia|]. destruct a as [|a].
    + reflexivity.
    + simpl. apply IH; lia.
Qed.

Section Rolling.
Variables (window : nat) (x : Series).
Hypothesis window_pos : (1 <= window)%nat.


Lemma roll_step (i : nat) (s : MeanState) :
  (i < length x)%nat -> represents s (window_before window i x) ->
  represents
    (add_mean (nth i x None)
       (if (window <=? i)%nat then remove_mean (nth (i - window) x None) s else s))
    (trailing_window window i x).
Proof.
  intros Hi Hs. unfold trailing_window.
  rewrite skipn_firstn_snoc by lia.
  apply represents_add.
  destruct (Nat.leb_spec window i) as [Hw|Hw].
  - apply represents_remove. unfold window_before in Hs.
    rewrite skipn_firstn_cons in Hs by lia.
    replace (S i - window)%nat with (S (i - window)) by lia. exact Hs.
  - unfold window_before in Hs.
    replace (S i - window)%nat with (i - window)%nat by lia. exact Hs.
Qed.

Lemma roll_mean_from_spec (rest : Series) :
  forall (i : nat) (s : MeanState),
    rest = skipn i x -> represents s (window_before window i x) ->
    forall n, (n < length rest)%nat ->
    exists m, nth_error (roll_mean_from window 1 x i s rest) n = Some m /\
              veq m (mean (trailing_window window (i + n) x)).
Proof.
  induction rest as [|v rest IH]; intros i s Hrest Hs n Hn; simpl in Hn; [lia|].
  assert (Hi : (i < length x)%nat).
  { destruct (Nat.lt_ge_cases i (length x)) as [L|G]; [exact L|].
    rewrite skipn_all2 in Hrest by lia. discriminate. }
  assert (Hv : v = nth i x None /\ rest = skipn (S i) x).
  { clear - Hrest. revert i Hrest. induction x as [|a y IHy]; intros i Hrest.
    - destruct i; discriminate.
    - destruct i as [|i]; simpl in *.
      + inversion Hrest; auto.
      + apply IHy. exact Hrest. }
  destruct Hv as [Hv Hrest'].
  pose proof (roll_step i s Hi Hs) as Hstep.
  simpl roll_mean_from. rewrite <- Hv in Hstep.
  destruct n as [|n].
  - eexists. split; [reflexivity|]. rewrite Nat.add_0_r.
    now apply calc_mean_represents.
  - simpl nth_error. replace (i + S n)%nat with (S i + n)%nat by lia.
    apply IH; [exact Hrest' | | lia].
    unfold trailing_window in Hstep. exact Hstep.
Qed.

Lemma rolling_mean_spec (i : nat) :
  (i < length x)%nat ->
  exists m, nth_error (rolling_mean window 1 x) i = Some m /\
            veq m (mean (trailing_window window i x)).
Proof.
  intros Hi. unfold rolling_mean.
  apply (roll_mean_from_spec x 0 (mkMeanState 0 0)); auto.
  apply represents_nil.
Qed.
End Rolling.



(** The rounded rolling mean is the rounded mean of the trailing window. *)
Lemma rolling_mean_round (x : Series) (i : nat) :
  (i < length x)%nat ->
  nth_error (round_series (rolling_mean 7 1 x)) i =
  Some (option_map round4 (mean (trailing_window 7 i x))).
Proof.
  intros Hi.
  destruct (rolling_mean_spec 7 x ltac:(lia) i Hi) as [m [Hm Hv]].
  rewrite nth_error_round_series, Hm. simpl. f_equal. now apply veq_round4.
Qed.

Lemma trailing_window_app (w i : nat) (x y : Series) :
  (i < length x)%nat -> trailing_window w i (x ++ y) = trailing_window w i x.
Proof.
  intros Hi. unfold trailing_window. f_equal.
  rewrite firstn_app. replace (S i - length x)%nat with 0%nat by lia.
  simpl. apply app_nil_r.
Qed.

(** ** Grouping *)

Lemma In_insert_key (k h : Z) (ks : list Z) :
  In h (insert_key k ks) <-> h = k \/ In h ks.
Proof.
  induction ks as [|a ks IH]; simpl.
  - intuition.
  - destruct (Z.ltb_spec k a).
    + simpl. intuition.
    + destruct (Z.eqb_spec k a).
      * subst. simpl. intuition.
      * simpl. rewrite IH. intuition.
Qed.

Lemma In_group_keys (h : Z) (st : list Z) : In h (group_keys st) <-> In h st.
Proof.
  induction st as [|k st IH]; simpl.
  - tauto.
  - rewrite In_insert_key, IH. intuition.
Qed.

Lemma group_keys_block (k : Z) (m : nat) (st : list Z) :
  Forall (fun h => (k < h)%Z) st ->
  group_keys (repeat k (S m) ++ st) = k :: group_keys st.
Proof.
  intros Hst. induction m as [|m IH].
  - simpl. destruct (group_keys st) as [|h t] eqn:E; [reflexivity|].
    assert (Hh : In h st) by (apply In_group_keys; rewrite E; now left).
    rewrite Forall_forall in Hst. specialize (Hst h Hh).
    simpl. destruct (Z.ltb_spec k h); [reflexivity | lia].
  - change (repeat k (S (S m)) ++ st) with (k :: (repeat k (S m) ++ st)).
    change (group_keys (k :: (repeat k (S m) ++ st)))
      with (insert_key k (group_keys (repeat k (S m) ++ st))).
    rewrite IH. simpl. rewrite Z.ltb_irrefl, Z.eqb_refl. reflexivity.
Qed.

Lemma group_values_notin (k : Z) (st : list Z) (col : Series) :
  ~ In k st -> group_values k st col = [].
Proof.
  revert col. induction st as [|s st IH]; intros col Hk; [reflexivity|].
  destruct col as [|v col]; [reflexivity|]. simpl.
  destruct (Z.eqb_spec s k).
  - exfalso. apply Hk. now left.
  - apply IH. intros H. apply Hk. now right.
Qed.

Lemma group_values_block_same (k : Z) (m : nat) (st : list Z) (col : Series) :
  (m <= length col)%nat ->
  group_values k (repeat k m ++ st) col =
  firstn m col ++ group_values k st (skipn m col).
Proof.
  revert col. induction m as [|m IH]; intros col Hm; [reflexivity|].
  destruct col as [|v col]; simpl in Hm; [lia|].
  simpl. rewrite Z.eqb_refl. f_equal. apply IH. lia.
Qed.

Lemma group_values_block_other (k h : Z) (m : nat) (st : list Z) (col : Series) :
  h <> k -> (m <= length col)%nat ->
  group_values h (repeat k m ++ st) col = group_values h st (skipn m col).
Proof.
  intros Hh. revert col. induction m as [|m IH]; intros col Hm; [reflexivity|].
  destruct col as [|v col]; simpl in Hm; [lia|].
  simpl. destruct (Z.eqb_spec k h); [congruence|]. apply IH. lia.
Qed.

Lemma group_values_length (k : Z) (st : list Z) (col : Series) :
  length col = length st ->
  length (group_values k st col) = count_occ Z.eq_dec st k.
Proof.
  revert col. induction st as [|s st IH]; intros col Hl.
  - destruct col; reflexivity.
  - destruct col as [|v col]; [discriminate|]. simpl in *.
    destruct (Z.eqb_spec s k), (Z.eq_dec s k); try congruence; simpl;
      rewrite IH; auto.
Qed.

Lemma map_nth_seq (l : Series) :
  map (fun r => nth r l None) (seq 0 (length l)) = l.
Proof.
  induction l as [|v l IH]; [reflexivity|].
  simpl. f_equal. rewrite <- seq_shift, map_map. exact IH.
Qed.

Lemma ascending_block (k : Z) (st : list Z) :
  StronglySorted Z.le (k :: st) ->
  exists m st', k :: st = repeat k (S m) ++ st' /\
                Forall (fun h => (k < h)%Z) st' /\ StronglySorted Z.le st'.
Proof.
  induction st as [|s st IH]; intros H.
  - exists 0%nat, []. repeat split; constructor.
  - inversion H as [|? ? Hs Hk]; subst.
    inversion Hs as [|? ? Hs' Hss]; subst.
    inversion Hk as [|? ? Hks Hk']; subst.
    destruct (Z.eq_dec k s) as [->|Hne].
    + destruct (IH Hs) as [m [st' [E [F S']]]].
      exists (S m), st'. repeat split; auto.
      change (repeat s (S (S m)) ++ st') with (s :: (repeat s (S m) ++ st')).
      now rewrite <- E.
    + exists 0%nat, (s :: st). repeat split; auto.
      constructor; [lia|].
      rewrite Forall_forall in *. intros h Hh. specialize (Hss h Hh). lia.
Qed.

Lemma firstn_repeat_le (k : Z) (r m : nat) :
  (r <= m)%nat -> firstn r (repeat k m) = repeat k r.
Proof.
  revert m. induction r as [|r IH]; intros m Hr; [reflexivity|].
  destruct m as [|m]; [lia|]. simpl. f_equal. apply IH. lia.
Qed.

Section Groupby.
Variable f : Series -> Series.
Hypothesis f_length : forall x, length (f x) = length x.

Lemma groupby_apply_values_block (k : Z) (m : nat) (st : list Z) (col : Series) :
  Forall (fun h => (k < h)%Z) st -> (S m <= length col)%nat ->
  groupby_apply_values f (repeat k (S m) ++ st) col =
  f (firstn (S m) col) ++ groupby_apply_values f st (skipn (S m) col).
Proof.
  intros Hst Hm. unfold groupby_apply_values.
  rewrite group_keys_block by exact Hst.
  rewrite Forall_forall in Hst.
  cbn [flat_map]. f_equal.
  - rewrite group_values_block_same by exact Hm.
    rewrite group_values_notin, app_nil_r; [reflexivity|].
    intros Hin. specialize (Hst k Hin). lia.
  - rewrite !flat_map_concat_map. f_equal. apply map_ext_in.
    intros h Hh. rewrite In_group_keys in Hh. specialize (Hst h Hh).
    rewrite group_values_block_other; [reflexivity | lia | exact Hm].
Qed.

Lemma groupby_transform_block (k : Z) (m : nat) (st : list Z) (col : Series) :
  Forall (fun h => (k < h)%Z) st -> length col = length (repeat k (S m) ++ st) ->
  groupby_transform f (repeat k (S m) ++ st) col =
  f (firstn (S m) col) ++ groupby_transform f st (skipn (S m) col).
Proof.
  intros Hst Hl. unfold groupby_transform.
  rewrite length_app, repeat_length in *.
  rewrite seq_app, map_app. rewrite Forall_forall in Hst.
  assert (Hk : ~ In k st) by (intros Hin; specialize (Hst k Hin); lia).
  f_equal.
  - assert (E : length (f (firstn (S m) col)) = S m)
      by (rewrite f_length, length_firstn; lia).
    rewrite <- (map_nth_seq (f (firstn (S m) col))). rewrite E.
    apply map_ext_in. intros r Hr. apply in_seq in Hr.
    rewrite app_nth1 by (rewrite repeat_length; lia).
    rewrite nth_repeat_lt by lia.
    unfold group_rank.
    rewrite app_nth1 by (rewrite repeat_length; lia).
    rewrite nth_repeat_lt by lia.
    rewrite firstn_app, repeat_length.
    replace (r - S m)%nat with 0%nat by lia.
    rewrite firstn_O, app_nil_r, firstn_repeat_le by lia.
    rewrite count_occ_repeat_eq by reflexivity.
    rewrite group_values_block_same by lia.
    rewrite group_values_notin, app_nil_r by exact Hk.
    reflexivity.
  - simpl Nat.add at 1.
    rewrite <- (Nat.add_0_r (S m)) at 1.
    replace (seq (S m + 0) (length st))
      with (map (fun r => (S m + r)%nat) (seq 0 (length st))).
    2:{ clear. generalize 0%nat. induction (length st) as [|n IH]; intros a.
        - reflexivity.
        - simpl. f_equal. rewrite IH. f_equal. lia. }
    rewrite map_map. apply map_ext_in. intros r Hr. apply in_seq in Hr.
    assert (Hn : nth (S m + r) (repeat k (S m) ++ st) 0%Z = nth r st 0%Z).
    { rewrite app_nth2 by (rewrite repeat_length; lia).
      rewrite repeat_length. f_equal. lia. }
    assert (Hh : (k < nth r st 0)%Z) by (apply Hst, nth_In; lia).
    unfold group_rank. rewrite Hn.
    rewrite firstn_app, repeat_length.
    rewrite firstn_all2 by (rewrite repeat_length; lia).
    replace (S m + r - S m)%nat with r by lia.
    rewrite count_occ_app, count_occ_repeat_neq by lia.
    rewrite group_values_block_other by lia.
    reflexivity.
Qed.

(** On a table whose station groups are contiguous and ascending, laying
    the per-group results end to end puts every result on the row it was
    computed from. *)
Lemma groupby_apply_values_aligned (st : list Z) :
  StronglySorted Z.le st ->
  forall col, length col = length st ->
  groupby_apply_values f st col = groupby_transform f st col.
Proof.
  remember (length st) as n eqn:Hn. revert st Hn.
  induction n as [n IH] using lt_wf_ind. intros st Hn Hs col Hl.
  destruct st as [|k st]; [reflexivity|].
  destruct (ascending_block k st Hs) as [m [st' [E [F S']]]].
  rewrite E in *.
  assert (Hlen : length (repeat k (S m) ++ st') = (S m + length st')%nat)
    by (rewrite length_app, repeat_length; reflexivity).
  rewrite groupby_apply_values_block by (auto; lia).
  rewrite groupby_transform_block by (auto; lia).
  f_equal.
  apply (IH (length st')); auto.
  - lia.
  - rewrite length_skipn. lia.
Qed.

Lemma groupby_transform_length (st : list Z) (col : Series) :
  length (groupby_transform f st col) = length st.
Proof. unfold groupby_transform. now rewrite length_map, length_seq. Qed.

Lemma nth_error_groupby_transform (st : list Z) (col : Series) (r : nat) :
  (r < length st)%nat ->
  nth_error (groupby_transform f st col) r =
  Some (nth (group_rank st r) (f (group_values (nth r st 0%Z) st col)) None).
Proof.
  intros Hr. unfold groupby_transform.
  rewrite nth_error_map, nth_error_nth' with (d := 0%nat) by (rewrite length_seq; lia).
  rewrite seq_nth by lia. reflexivity.
Qed.
End Groupby.

(** ** Columns of a table *)

Lemma lookup_assign_same (n : string) (s : Series) (cols : list (string * Series)) :
  lookup n (assign n s cols) = Some s.
Proof.
  induction cols as [|[m c] cols IH]; simpl.
  - now rewrite String.eqb_refl.
  - destruct (String.eqb_spec m n); simpl.
    + now rewrite String.eqb_refl.
    + destruct (String.eqb_spec m n); [contradiction | exact IH].
Qed.

Lemma lookup_assign_other (n m : string) (s : Series) (cols : list (string * Series)) :
  n <> m -> lookup n (assign m s cols) = lookup n cols.
Proof.
  intros Hne. induction cols as [|[k c] cols IH]; simpl.
  - destruct (String.eqb_spec m n); [congruence | reflexivity].
  - destruct (String.eqb_spec k m) as [->|Hkm]; simpl.
    + destruct (String.eqb_spec m n); [congruence | reflexivity].
    + destruct (String.eqb_spec k n); [reflexivity | exact IH].
Qed.

Lemma get_set_same (n : string) (s : Series) (df : DataFrame) :
  get_column n (set_column n s df) = Some s.
Proof. apply lookup_assign_same. Qed.

Lemma get_set_other (n m : string) (s : Series) (df : DataFrame) :
  n <> m -> get_column n (set_column m s df) = get_column n df.
Proof. apply lookup_assign_other. Qed.

Lemma lookup_In (n : string) (c : Series) (cols : list (string * Series)) :
  lookup n cols = Some c -> In (n, c) cols.
Proof.
  induction cols as [|[m c'] cols IH]; simpl; [discriminate|].
  destruct (String.eqb_spec m n) as [->|Hne]; intros H.
  - inversion H. now left.
  - right. now apply IH.
Qed.

Lemma lookup_None (n : string) (cols : list (string * Series)) :
  lookup n cols = None <-> ~ In n (map fst cols).
Proof.
  induction cols as [|[m c] cols IH]; simpl.
  - tauto.
  - destruct (String.eqb_spec m n) as [->|Hne].
    + split; [discriminate | intros H; exfalso; apply H; now left].
    + rewrite IH. tauto.
Qed.

Lemma In_assign (n : string) (s : Series) (cols : list (string * Series))
    (m : string) (c : Series) :
  In (m, c) (assign n s cols) -> (m, c) = (n, s) \/ In (m, c) cols.
Proof.
  induction cols as [|[k c'] cols IH]; simpl.
  - intros [H|[]]. left. now symmetry.
  - destruct (String.eqb_spec k n); simpl.
    + intros [H|H]; [left; now symmetry | right; now right].
    + intros [H|H]; [right; now left|].
      destruct (IH H) as [E|E]; [now left | right; now right].
Qed.

Lemma names_assign (n : string) (s : Series) (cols : list (string * Series)) (m : string) :
  In m (map fst (assign n s cols)) <-> m = n \/ In m (map fst cols).
Proof.
  induction cols as [|[k c] cols IH]; simpl.
  - intuition.
  - destruct (String.eqb_spec k n) as [->|Hne]; simpl.
    + intuition.
    + rewrite IH. intuition.
Qed.

Lemma well_formed_set_column (n : string) (s : Series) (df : DataFrame) :
  well_formed df -> length s = length (Station_ID df) ->
  well_formed (set_column n s df).
Proof.
  intros Hwf Hs m c Hin. simpl in *.
  destruct (In_assign _ _ _ _ _ Hin) as [E|E].
  - inversion E; subst. exact Hs.
  - now apply (Hwf m).
Qed.

Lemma get_column_length (n : string) (c : Series) (df : DataFrame) :
  well_formed df -> get_column n df = Some c -> length c = length (Station_ID df).
Proof. intros Hwf H. apply (Hwf n). now apply lookup_In. Qed.

Lemma lookup_map_columns (f : Series -> Series) (n : string)
    (cols : list (string * Series)) :
  lookup n (map (fun nc => (fst nc, f (snd nc))) cols) = option_map f (lookup n cols).
Proof.
  induction cols as [|[m c] cols IH]; simpl; [reflexivity|].
  destruct (String.eqb_spec m n); [reflexivity | exact IH].
Qed.

Lemma get_map_columns (f : Series -> Series) (n : string) (df : DataFrame) :
  get_column n (map_columns f df) = option_map f (get_column n df).
Proof. apply lookup_map_columns. Qed.

(** ** Step 5 *)

Lemma interpolate_feature_ok (df df' : DataFrame) (f : string) :
  interpolate_feature df f = Ok df' ->
  Station_ID df' = Station_ID df /\
  get_column f df' =
    option_map (fun col => round_series
                  (groupby_apply_values interpolate (Station_ID df) col))
               (get_column f df) /\
  forall c, c <> f -> get_column c df' = get_column c df.
Proof.
  unfold interpolate_feature. destruct (get_column f df) as [col|] eqn:E.
  - destruct (reset_index df) as [[]|e]; [|discriminate]. cbn [bind].
    intros H. inversion H; subst. clear H.
    split; [reflexivity|]. split; [apply get_set_same|].
    intros c Hc. now rewrite !get_set_other.
  - intros H. inversion H; subst. now split.
Qed.

Lemma interpolate_feature_station (df df' : DataFrame) (f : string) :
  interpolate_feature df f = Ok df' -> Station_ID df' = Station_ID df.
Proof. intros H. now destruct (interpolate_feature_ok _ _ _ H). Qed.

Lemma get_interpolate_feature_same (df df' : DataFrame) (f : string) :
  interpolate_feature df f = Ok df' ->
  get_column f df' =
  option_map (fun col => round_series (groupby_apply_values interpolate (Station_ID df) col))
             (get_column f df).
Proof. intros H. now destruct (interpolate_feature_ok _ _ _ H) as [_ [E _]]. Qed.

Lemma get_interpolate_feature_other (df df' : DataFrame) (f c : string) :
  interpolate_feature df f = Ok df' -> c <> f -> get_column c df' = get_column c df.
Proof. intros H. destruct (interpolate_feature_ok _ _ _ H) as [_ [_ E]]. apply E. Qed.

Lemma insert_key_sorted (k : Z) (ks : list Z) :
  Sorted Z.lt ks -> Sorted Z.lt (insert_key k ks).
Proof.
  induction ks as [|h t IH]; intros Hs; simpl.
  - repeat constructor.
  - destruct (Z.ltb_spec k h).
    + constructor; [exact Hs | now constructor].
    + destruct (Z.eqb_spec k h); [exact Hs|].
      inversion Hs as [|? ? Ht Hh]; subst.
      constructor; [now apply IH|].
      destruct t as [|h' t]; simpl.
      * constructor. lia.
      * inversion Hh; subst.
        destruct (Z.ltb_spec k h'); [constructor; lia|].
        destruct (Z.eqb_spec k h'); constructor; lia.
Qed.

Lemma group_keys_sorted (st : list Z) : Sorted Z.lt (group_keys st).
Proof.
  induction st as [|k st IH]; simpl; [constructor | now apply insert_key_sorted].
Qed.

Lemma group_keys_NoDup (st : list Z) : NoDup (group_keys st).
Proof.
  pose proof (group_keys_sorted st) as H.
  apply Sorted_StronglySorted in H; [|intros x y z; apply Z.lt_trans].
  induction H as [|k ks Hs IH Hk]; constructor; [|exact IH].
  intros Hin. rewrite Forall_forall in Hk. specialize (Hk k Hin). lia.
Qed.

Lemma count_occ_sum_cons (s : Z) (st ks : list Z) :
  list_sum (map (count_occ Z.eq_dec (s :: st)) ks) =
  (list_sum (map (count_occ Z.eq_dec st) ks) + count_occ Z.eq_dec ks s)%nat.
Proof.
  induction ks as [|k ks IH]; simpl; [reflexivity|].
  simpl in IH. rewrite IH.
  destruct (Z.eq_dec s k), (Z.eq_dec k s); try congruence; lia.
Qed.

Lemma count_occ_sum_keys (st ks : list Z) :
  NoDup ks -> (forall s, In s st -> In s ks) ->
  list_sum (map (count_occ Z.eq_dec st) ks) = length st.
Proof.
  intros Hnd. induction st as [|s st IH]; intros Hin.
  - clear. induction ks as [|k ks IHk]; [reflexivity | exact IHk].
  - rewrite count_occ_sum_cons, IH by (intros; apply Hin; now right).
    assert (E : count_occ Z.eq_dec ks s = 1%nat).
    { apply NoDup_count_occ'; [exact Hnd | apply Hin; now left]. }
    simpl. lia.
Qed.

(** The per-group results, laid end to end, have one cell per row. *)
Lemma groupby_apply_values_length (g : Series -> Series) (st : list Z) (col : Series) :
  (forall x, length (g x) = length x) -> length col = length st ->
  length (groupby_apply_values g st col) = length st.
Proof.
  intros Hg Hl. unfold groupby_apply_values.
  transitivity (list_sum (map (count_occ Z.eq_dec st) (group_keys st)));
    [|apply count_occ_sum_keys].
  - induction (group_keys st) as [|k ks IH]; simpl; [reflexivity|].
    rewrite length_app, Hg, group_values_length by exact Hl.
    now rewrite IH.
  - apply group_keys_NoDup.
  - intros s Hs. now apply In_group_keys.
Qed.

Lemma well_formed_interpolate_feature (df df' : DataFrame) (f : string) :
  interpolate_feature df f = Ok df' -> well_formed df -> well_formed df'.
Proof.
  unfold interpolate_feature. intros H Hwf.
  destruct (get_column f df) as [col|] eqn:E; [|inversion H; now subst].
  destruct (reset_index df) as [[]|e]; [|discriminate]. cbn [bind] in H.
  inversion H; subst. clear H.
  pose proof (get_column_length _ _ _ Hwf E) as Hl.
  assert (L : length (groupby_apply_values interpolate (Station_ID df) col) =
              length (Station_ID df))
    by (apply groupby_apply_values_length; [apply interpolate_length | exact Hl]).
  apply well_formed_set_column.
  - now apply well_formed_set_column.
  - simpl. now rewrite round_series_length.
Qed.

Section Step5.
Variable fs : list string.

Lemma step5_station (df df' : DataFrame) :
  foldM interpolate_feature df fs = Ok df' -> Station_ID df' = Station_ID df.
Proof.
  revert df. induction fs as [|g l IH]; intros df; simpl.
  - intros H. now inversion H.
  - destruct (interpolate_feature df g) as [d|e] eqn:E; [|discriminate]. cbn [bind].
    intros H. rewrite (IH d H). now apply (interpolate_feature_station df d g).
Qed.

Lemma step5_well_formed (df df' : DataFrame) :
  foldM interpolate_feature df fs = Ok df' -> well_formed df -> well_formed df'.
Proof.
  revert df. induction fs as [|g l IH]; intros df; simpl.
  - intros H. now inversion H.
  - destruct (interpolate_feature df g) as [d|e] eqn:E; [|discriminate]. cbn [bind].
    intros H Hwf. apply (IH d H). now apply (well_formed_interpolate_feature df d g).
Qed.

Lemma step5_other (df df' : DataFrame) (c : string) :
  foldM interpolate_feature df fs = Ok df' -> ~ In c fs ->
  get_column c df' = get_column c df.
Proof.
  revert df. induction fs as [|g l IH]; intros df; simpl.
  - intros H. now inversion H.
  - destruct (interpolate_feature df g) as [d|e] eqn:E; [|discriminate]. cbn [bind].
    intros H Hc. rewrite (IH d H) by (intros Hin; apply Hc; now right).
    apply (get_interpolate_feature_other df d g c E). intros ->. apply Hc. now left.
Qed.

Lemma step5_feature (df df' : DataFrame) (f : string) :
  foldM interpolate_feature df fs = Ok df' -> NoDup fs -> In f fs ->
  get_column f df' =
  option_map (fun col => round_series
                (groupby_apply_values interpolate (Station_ID df) col))
             (get_column f df).
Proof.
  revert df. induction fs as [|g l IH]; intros df H Hnd Hin; [contradiction|].
  inversion Hnd as [|? ? Hg Hnd']; subst. simpl in H.
  destruct (interpolate_feature df g) as [d|e] eqn:E; [|discriminate]. cbn [bind] in H.
  destruct (string_dec g f) as [->|Hne].
  - rewrite <- (get_interpolate_feature_same df d f E).
    clear IH E Hin Hnd Hnd'. revert d H Hg.
    induction l as [|h l IH]; intros d H Hf; simpl in H.
    + now inversion H.
    + destruct (interpolate_feature d h) as [d'|e] eqn:E; [|discriminate].
      cbn [bind] in H. rewrite (IH d' H) by (intros Hin; apply Hf; now right).
      apply (get_interpolate_feature_other d d' h f E). intros ->. apply Hf. now left.
  - destruct Hin as [E'|Hin]; [congruence|].
    rewrite (IH d H Hnd' Hin).
    rewrite (interpolate_feature_station df d g E).
    rewrite (get_interpolate_feature_other df d g f E) by congruence.
    reflexivity.
Qed.
End Step5.

(** ** Step 6 *)

Lemma core_features_independent : names_independent core_features.
Proof.
  split.
  - repeat constructor; simpl; intuition discriminate.
  - intros f g Hf Hg. simpl in Hf, Hg.
    repeat (destruct Hf as [<-|Hf]); try contradiction;
      repeat (destruct Hg as [<-|Hg]); try contradiction;
      repeat split;
      try (intros E; vm_compute in E; discriminate E);
      congruence.
Qed.

Lemma derive_feature_station (df : DataFrame) (f : string) :
  Station_ID (derive_feature df f) = Station_ID df.
Proof. unfold derive_feature. destruct (get_column f df); reflexivity. Qed.

Lemma derive_feature_absent (df : DataFrame) (f : string) :
  get_column f df = None -> derive_feature df f = df.
Proof. intros H. unfold derive_feature. now rewrite H. Qed.

Lemma get_derive_feature_other (df : DataFrame) (f c : string) :
  c <> rolling_name f -> c <> lag_name f ->
  get_column c (derive_feature df f) = get_column c df.
Proof.
  intros Hr Hl. unfold derive_feature. destruct (get_column f df); [|reflexivity].
  now rewrite !get_set_other.
Qed.

Lemma get_derive_feature_lag (df : DataFrame) (f : string) (col : Series) :
  get_column f df = Some col ->
  get_column (lag_name f) (derive_feature df f) =
  Some (round_series (groupby_transform shift1 (Station_ID df) col)).
Proof.
  intros H. unfold derive_feature. rewrite H. apply get_set_same.
Qed.

Lemma get_derive_feature_rolling (df : DataFrame) (f : string) (col : Series) :
  rolling_name f <> lag_name f -> get_column f df = Some col ->
  get_column (rolling_name f) (derive_feature df f) =
  Some (round_series (groupby_transform (rolling_mean 7 1) (Station_ID df) col)).
Proof.
  intros Hne H. unfold derive_feature. rewrite H.
  rewrite get_set_other by exact Hne. apply get_set_same.
Qed.

Lemma shift1_length (x : Series) : length (shift1 x) = length x.
Proof.
  destruct x as [|v x]; [reflexivity|].
  unfold shift1. rewrite removelast_firstn_len. cbn [length].
  rewrite length_firstn. simpl. lia.
Qed.

Lemma well_formed_derive_feature (df : DataFrame) (f : string) :
  well_formed df -> well_formed (derive_feature df f).
Proof.
  intros Hwf. unfold derive_feature.
  destruct (get_column f df) as [col|]; [|exact Hwf].
  apply well_formed_set_column; [apply well_formed_set_column; [exact Hwf|]|];
    simpl; rewrite round_series_length; unfold groupby_transform;
    now rewrite length_map, length_seq.
Qed.

Section Step6.
Variable fs : list string.
Hypothesis fs_independent : names_independent fs.

Lemma derive_station (l : list string) (df : DataFrame) :
  Station_ID (fold_left derive_feature l df) = Station_ID df.
Proof.
  revert df. induction l as [|g l IH]; intros df; simpl; [reflexivity|].
  now rewrite IH, derive_feature_station.
Qed.

Lemma derive_well_formed (l : list string) (df : DataFrame) :
  well_formed df -> well_formed (fold_left derive_feature l df).
Proof.
  revert df. induction l as [|g l IH]; intros df Hwf; simpl; [exact Hwf|].
  now apply IH, well_formed_derive_feature.
Qed.

Lemma derive_untouched (l : list string) (df : DataFrame) (c : string) :
  (forall g, In g l -> c <> rolling_name g /\ c <> lag_name g) ->
  get_column c (fold_left derive_feature l df) = get_column c df.
Proof.
  revert df. induction l as [|g l IH]; intros df Hc; simpl; [reflexivity|].
  rewrite IH by (intros h Hh; apply Hc; now right).
  destruct (Hc g (or_introl eq_refl)). now apply get_derive_feature_other.
Qed.

(** Step 6 leaves the pollutant columns as step 5 made them. *)
Lemma derive_core (l : list string) (df : DataFrame) (f : string) :
  incl l fs -> In f fs ->
  get_column f (fold_left derive_feature l df) = get_column f df.
Proof.
  intros Hl Hf. apply derive_untouched. intros g Hg.
  destruct fs_independent as [_ H].
  destruct (H g f (Hl g Hg) Hf) as [A [B _]]. split; congruence.
Qed.

Lemma derive_lag (l : list string) :
  forall (df : DataFrame) (f : string) (col : Series),
    incl l fs -> NoDup l -> In f l -> get_column f df = Some col ->
    get_column (lag_name f) (fold_left derive_feature l df) =
    Some (round_series (groupby_transform shift1 (Station_ID df) col)).
Proof.
  destruct fs_independent as [_ H].
  induction l as [|g l IH]; intros df f col Hl Hnd Hin Hf; [contradiction|].
  inversion Hnd as [|? ? Hg Hnd']; subst. simpl.
  assert (Hgs : In g fs) by (apply Hl; now left).
  assert (Hl' : incl l fs) by (intros h Hh; apply Hl; now right).
  destruct (string_dec g f) as [->|Hne].
  - rewrite derive_untouched.
    + now apply get_derive_feature_lag.
    + intros h Hh. assert (Hhf : f <> h) by (intros ->; contradiction).
      destruct (H f h Hgs (Hl' h Hh)) as [_ [_ [_ D]]].
      destruct (H h f (Hl' h Hh) Hgs) as [_ [_ [C _]]].
      destruct (D Hhf). split; congruence.
  - destruct Hin as [E|Hin]; [congruence|].
    rewrite (IH (derive_feature df g) f col); auto.
    + now rewrite derive_feature_station.
    + destruct (H g f Hgs (Hl' f Hin)) as [A [B _]].
      rewrite get_derive_feature_other by congruence. exact Hf.
Qed.

Lemma derive_rolling (l : list string) :
  forall (df : DataFrame) (f : string) (col : Series),
    incl l fs -> NoDup l -> In f l -> get_column f df = Some col ->
    get_column (rolling_name f) (fold_left derive_feature l df) =
    Some (round_series (groupby_transform (rolling_mean 7 1) (Station_ID df) col)).
Proof.
  destruct fs_independent as [_ H].
  induction l as [|g l IH]; intros df f col Hl Hnd Hin Hf; [contradiction|].
  inversion Hnd as [|? ? Hg Hnd']; subst. simpl.
  assert (Hgs : In g fs) by (apply Hl; now left).
  assert (Hl' : incl l fs) by (intros h Hh; apply Hl; now right).
  destruct (string_dec g f) as [->|Hne].
  - rewrite derive_untouched.
    + apply get_derive_feature_rolling; [|exact Hf].
      now destruct (H f f Hgs Hgs) as [_ [_ [C _]]].
    + intros h Hh. assert (Hhf : f <> h) by (intros ->; contradiction).
      destruct (H f h Hgs (Hl' h Hh)) as [_ [_ [C D]]].
      destruct (D Hhf). split; congruence.
  - destruct Hin as [E|Hin]; [congruence|].
    rewrite (IH (derive_feature df g) f col); auto.
    + now rewrite derive_feature_station.
    + destruct (H g f Hgs (Hl' f Hin)) as [A [B _]].
      rewrite get_derive_feature_other by congruence. exact Hf.
Qed.

(** A pollutant column that is absent yields no derived column. *)
Lemma derive_absent (l : list string) :
  forall (df : DataFrame) (f : string),
    incl l fs -> In f fs -> get_column f df = None ->
    get_column (rolling_name f) (fold_left derive_feature l df) =
      get_column (rolling_name f) df /\
    get_column (lag_name f) (fold_left derive_feature l df) =
      get_column (lag_name f) df.
Proof.
  destruct fs_independent as [_ H].
  induction l as [|g l IH]; intros df f Hl Hfs Hf; [split; reflexivity|].
  simpl.
  assert (Hgs : In g fs) by (apply Hl; now left).
  assert (Hl' : incl l fs) by (intros h Hh; apply Hl; now right).
  destruct (string_dec g f) as [->|Hne].
  - rewrite derive_feature_absent by exact Hf. now apply IH.
  - destruct (H g f Hgs Hfs) as [A [B [C D]]].
    destruct (H f g Hfs Hgs) as [_ [_ [C' _]]].
    destruct (D Hne) as [D1 D2].
    destruct (IH (derive_feature df g) f Hl' Hfs) as [R L].
    + rewrite get_derive_feature_other by congruence. exact Hf.
    + rewrite R, L. rewrite !get_derive_feature_other by congruence.
      split; reflexivity.
Qed.
End Step6.

(** ** Selections *)

Lemma select_columns_ok (names : list string) (df : DataFrame) :
  (forall n, In n names -> get_column n df <> None) ->
  select_columns names df = Ok tt.
Proof.
  induction names as [|n names IH]; intros H; simpl; [reflexivity|].
  unfold column. destruct (get_column n df) eqn:E.
  - simpl. apply IH. intros m Hm. apply H. now right.
  - exfalso. apply (H n); [now left | exact E].
Qed.

Lemma select_columns_raise (names : list string) (df : DataFrame) (n : string) :
  In n names -> get_column n df = None ->
  exists m, In m names /\ select_columns names df = Raise (KeyError m).
Proof.
  induction names as [|k names IH]; intros Hin Hn; [contradiction|].
  simpl. unfold column. destruct (get_column k df) eqn:E; simpl.
  - destruct Hin as [->|Hin]; [congruence|].
    destruct (IH Hin Hn) as [m [Hm Hr]]. exists m. split; [now right | exact Hr].
  - exists k. split; [now left | reflexivity].
Qed.

(** ** Two runs that differ in one station *)

Lemma tables_agree_columns (s : Z) (df1 df2 : DataFrame) :
  tables_agree_off s df1 df2 -> columns_agree_off s df1 df2.
Proof.
  intros [Hst H]. split; [exact Hst|]. intros c. unfold get_column.
  induction H as [|[n1 c1] [n2 c2] l1 l2 [Hn Ha] _ IH]; simpl; [exact I|].
  simpl in Hn, Ha. subst n2.
  destruct (String.eqb_spec n1 c); [exact Ha | exact IH].
Qed.

Lemma agree_off_refl (s : Z) (st : list Z) (c : Series) : agree_off s st c c.
Proof. split; reflexivity. Qed.

Lemma agree_off_round (s : Z) (st : list Z) (c1 c2 : Series) :
  agree_off s st c1 c2 -> agree_off s st (round_series c1) (round_series c2).
Proof.
  intros [Hl H]. split.
  - now rewrite !round_series_length.
  - intros r k Hr Hk. rewrite !nth_error_round_series. now rewrite (H r k).
Qed.

Lemma agree_off_group_values (s k : Z) (st : list Z) (c1 c2 : Series) :
  agree_off s st c1 c2 -> k <> s -> group_values k st c1 = group_values k st c2.
Proof.
  intros [Hl H] Hk. revert c1 c2 Hl H.
  induction st as [|a st IH]; intros c1 c2 Hl H; [reflexivity|].
  destruct c1 as [|v1 c1], c2 as [|v2 c2]; try discriminate; [reflexivity|].
  simpl. assert (IH' : group_values k st c1 = group_values k st c2).
  { apply IH; [simpl in Hl; lia|]. intros r h Hr Hh. apply (H (S r) h Hr Hh). }
  destruct (Z.eqb_spec a k) as [->|Hne]; [|exact IH'].
  f_equal; [|exact IH'].
  specialize (H 0%nat k eq_refl Hk). simpl in H. congruence.
Qed.

Lemma agree_off_transform (f : Series -> Series) (s : Z) (st : list Z) (c1 c2 : Series) :
  agree_off s st c1 c2 ->
  agree_off s st (groupby_transform f st c1) (groupby_transform f st c2).
Proof.
  intros H. split.
  - unfold groupby_transform. now rewrite !length_map.
  - intros r k Hr Hk.
    assert (Hlt : (r < length st)%nat) by (apply nth_error_Some; congruence).
    unfold groupby_transform.
    rewrite !nth_error_map.
    destruct (nth_error (seq 0 (length st)) r) as [i|] eqn:E; [|reflexivity].
    simpl. f_equal.
    assert (Hi : i = r).
    { apply nth_error_nth with (d := 0%nat) in E. rewrite seq_nth in E by lia. lia. }
    subst i. rewrite (nth_error_nth _ _ 0%Z Hr).
    now rewrite (agree_off_group_values s k st c1 c2).
Qed.

Lemma columns_agree_set (s : Z) (df1 df2 : DataFrame) (n : string) (c1 c2 : Series) :
  columns_agree_off s df1 df2 -> agree_off s (Station_ID df1) c1 c2 ->
  columns_agree_off s (set_column n c1 df1) (set_column n c2 df2).
Proof.
  intros [Hst H] Hc. split; [exact Hst|]. intros c.
  destruct (string_dec c n) as [->|Hne].
  - rewrite !get_set_same. exact Hc.
  - rewrite !get_set_other by exact Hne. apply H.
Qed.

Lemma columns_agree_interpolate_feature (s : Z) (df1 df2 d1 d2 : DataFrame) (f : string) :
  interpolate_feature df1 f = Ok d1 -> interpolate_feature df2 f = Ok d2 ->
  well_formed df1 -> well_formed df2 -> Sorted Z.le (Station_ID df1) ->
  columns_agree_off s df1 df2 -> columns_agree_off s d1 d2.
Proof.
  intros I1 I2 W1 W2 Hs [Hst H].
  assert (SS : StronglySorted Z.le (Station_ID df1))
    by (apply Sorted_StronglySorted; [intros x y z; apply Z.le_trans | exact Hs]).
  pose proof (H f) as Hf. unfold interpolate_feature in I1, I2.
  destruct (get_column f df1) as [c1|] eqn:E1, (get_column f df2) as [c2|] eqn:E2;
    try contradiction.
  2:{ inversion I1; inversion I2; subst. now split. }
  destruct (reset_index df1) as [[]|e1]; [|discriminate].
  destruct (reset_index df2) as [[]|e2]; [|discriminate].
  cbn [bind] in I1, I2. inversion I1; inversion I2; subst. clear I1 I2.
  apply columns_agree_set; [apply columns_agree_set; [split; assumption|]|]; simpl.
  - rewrite <- Hst.
    rewrite !(groupby_apply_values_aligned interpolate interpolate_length _ SS).
    + now apply agree_off_transform.
    + rewrite Hst. now apply (get_column_length f).
    + now apply (get_column_length f).
  - apply agree_off_round. rewrite <- Hst.
    rewrite !(groupby_apply_values_aligned interpolate interpolate_length _ SS).
    + now apply agree_off_transform.
    + rewrite Hst. now apply (get_column_length f).
    + now apply (get_column_length f).
Qed.

Lemma columns_agree_derive_feature (s : Z) (df1 df2 : DataFrame) (f : string) :
  columns_agree_off s df1 df2 ->
  columns_agree_off s (derive_feature df1 f) (derive_feature df2 f).
Proof.
  intros [Hst H]. pose proof (H f) as Hf. unfold derive_feature.
  destruct (get_column f df1) as [c1|] eqn:E1, (get_column f df2) as [c2|] eqn:E2;
    try contradiction; [|split; assumption].
  rewrite <- Hst.
  apply columns_agree_set; [apply columns_agree_set; [split; assumption|]|]; simpl;
    apply agree_off_round; now apply agree_off_transform.
Qed.

Lemma columns_agree_step5 (s : Z) (fs : list string) (df1 df2 d1 d2 : DataFrame) :
  foldM interpolate_feature df1 fs = Ok d1 -> foldM interpolate_feature df2 fs = Ok d2 ->
  well_formed df1 -> well_formed df2 -> Sorted Z.le (Station_ID df1) ->
  columns_agree_off s df1 df2 -> columns_agree_off s d1 d2.
Proof.
  revert df1 df2. induction fs as [|f fs IH]; intros df1 df2 F1 F2 W1 W2 Hs H; simpl in *.
  - inversion F1; inversion F2; now subst.
  - destruct (interpolate_feature df1 f) as [a|e] eqn:E1; [|discriminate].
    destruct (interpolate_feature df2 f) as [b|e] eqn:E2; [|discriminate].
    cbn [bind] in F1, F2. apply (IH a b); auto.
    + now apply (well_formed_interpolate_feature df1 a f).
    + now apply (well_formed_interpolate_feature df2 b f).
    + now rewrite (interpolate_feature_station df1 a f E1).
    + now apply (columns_agree_interpolate_feature s df1 df2 a b f).
Qed.

Lemma columns_agree_derive (s : Z) (fs : list string) (df1 df2 : DataFrame) :
  columns_agree_off s df1 df2 ->
  columns_agree_off s (fold_left derive_feature fs df1) (fold_left derive_feature fs df2).
Proof.
  revert df1 df2. induction fs as [|f fs IH]; intros df1 df2 H; [exact H|].
  simpl. apply IH. now apply columns_agree_derive_feature.
Qed.

Lemma step6_result (df d : DataFrame) :
  step6 df = Ok d -> d = fold_left derive_feature core_features df.
Proof.
  unfold step6. cbv zeta.
  generalize (fold_left derive_feature core_features df). intros d'.
  generalize (select_columns (map rolling_name core_features) d').
  intros [[]|e] H; [inversion H; reflexivity | discriminate H].
Qed.

Lemma columns_agree_cell (s k : Z) (df1 df2 : DataFrame) (c : string) (r : nat) :
  columns_agree_off s df1 df2 -> nth_error (Station_ID df1) r = Some k -> k <> s ->
  cell c r df1 = cell c r df2.
Proof.
  intros [Hst H] Hr Hk. unfold cell. specialize (H c).
  destruct (get_column c df1), (get_column c df2); try contradiction; [|reflexivity].
  destruct H as [_ H]. now apply (H r k).
Qed.

Lemma derive_result (df d : DataFrame) :
  derive df = Ok d ->
  exists d5, foldM interpolate_feature df core_features = Ok d5 /\
             d = fold_left derive_feature core_features d5.
Proof.
  unfold derive, step5.
  generalize (foldM interpolate_feature df core_features). intros [d5|e]; [|discriminate].
  cbn [bind]. intros H. exists d5. split; [reflexivity | exact (step6_result _ _ H)].
Qed.

(** Before the fill passes, the rows of the other stations are the same in
    both runs. *)
Lemma derive_noninterference (s k : Z) (df1 df2 d1 d2 : DataFrame) (c : string) (r : nat) :
  well_formed df1 -> well_formed df2 -> Sorted Z.le (Station_ID df1) ->
  tables_agree_off s df1 df2 ->
  derive df1 = Ok d1 -> derive df2 = Ok d2 ->
  nth_error (Station_ID df1) r = Some k -> k <> s ->
  cell c r d1 = cell c r d2.
Proof.
  intros W1 W2 Hs Ha D1 D2 Hr Hk.
  destruct (derive_result _ _ D1) as [a [A ->]].
  destruct (derive_result _ _ D2) as [b [B ->]].
  apply (columns_agree_cell s k); [| |exact Hk].
  - apply columns_agree_derive.
    apply (columns_agree_step5 s core_features df1 df2 a b); auto.
    now apply tables_agree_columns.
  - rewrite derive_station, (step5_station _ _ _ A). exact Hr.
Qed.

(** ** The fill passes *)

Lemma nth_error_bfill_known (x : Series) (r : nat) (v : Q) :
  nth_error x r = Some (Some v) -> nth_error (bfill x) r = Some (Some v).
Proof.
  revert r. induction x as [|a x IH]; intros r H; [destruct r; discriminate|].
  destruct r as [|r]; simpl in *.
  - inversion H; subst. reflexivity.
  - destruct a; simpl; now apply IH.
Qed.

(** A missing cell directly followed by a known one takes its value. *)
Lemma nth_error_bfill_next (x : Series) (r : nat) (v : Q) :
  nth_error x r = Some None -> nth_error x (S r) = Some (Some v) ->
  nth_error (bfill x) r = Some (Some v).
Proof.
  revert r. induction x as [|a x IH]; intros r H0 H1; [destruct r; discriminate|].
  destruct r as [|r]; simpl in *.
  - inversion H0; subst. simpl.
    pose proof (nth_error_bfill_known x 0 v H1) as E.
    destruct (bfill x); simpl in *; [discriminate | exact E].
  - destruct a; simpl; now apply IH.
Qed.

Lemma bfill_length (x : Series) : length (bfill x) = length x.
Proof. induction x as [|[v|] x IH]; simpl; auto. Qed.

Lemma nth_error_ffill_from_known (x : Series) (last : value) (r : nat) (v : Q) :
  nth_error x r = Some (Some v) -> nth_error (ffill_from last x) r = Some (Some v).
Proof.
  revert last r. induction x as [|a x IH]; intros last r H; [destruct r; discriminate|].
  destruct r as [|r]; simpl in *.
  - inversion H; subst. reflexivity.
  - destruct a; simpl; now apply IH.
Qed.

Lemma ffill_from_length (x : Series) (last : value) :
  length (ffill_from last x) = length x.
Proof. revert last. induction x as [|[v|] x IH]; intros last; simpl; auto. Qed.

Lemma keeps_known_refl (df : DataFrame) : keeps_known df df.
Proof. intros c r v H. exists v. split; [exact H | reflexivity]. Qed.

Lemma keeps_known_trans (a b c : DataFrame) :
  keeps_known a b -> keeps_known b c -> keeps_known a c.
Proof.
  intros Hab Hbc n r v H.
  destruct (Hab n r v H) as [v1 [H1 E1]].
  destruct (Hbc n r v1 H1) as [v2 [H2 E2]].
  exists v2. split; [exact H2 | congruence].
Qed.

Lemma keeps_known_set (df : DataFrame) (n : string) (old new : Series) :
  get_column n df = Some old ->
  (forall r v, nth_error old r = Some (Some v) ->
     exists v', nth_error new r = Some (Some v') /\ round4 v' = round4 v) ->
  keeps_known df (set_column n new df).
Proof.
  intros Hold Hnew c r v H. unfold cell in *.
  destruct (string_dec c n) as [->|Hne].
  - rewrite get_set_same. rewrite Hold in H. now apply Hnew.
  - rewrite get_set_other by exact Hne. exists v. split; [exact H | reflexivity].
Qed.

Lemma keeps_known_map_columns (g : Series -> Series) (df : DataFrame) :
  (forall x r v, nth_error x r = Some (Some v) ->
     exists v', nth_error (g x) r = Some (Some v') /\ round4 v' = round4 v) ->
  keeps_known df (map_columns g df).
Proof.
  intros Hg c r v H. unfold cell in *. rewrite get_map_columns.
  destruct (get_column c df) as [x|]; [|discriminate]. simpl. now apply Hg.
Qed.

Lemma round_bfill_keeps (x : Series) (r : nat) (v : Q) :
  nth_error x r = Some (Some v) ->
  exists v', nth_error (round_series (bfill x)) r = Some (Some v') /\
             round4 v' = round4 v.
Proof.
  intros H. exists (round4 v). split; [|apply round4_idem].
  rewrite nth_error_round_series, (nth_error_bfill_known x r v H). reflexivity.
Qed.

Lemma round_ffill_keeps (x : Series) (r : nat) (v : Q) :
  nth_error x r = Some (Some v) ->
  exists v', nth_error (round_series (ffill x)) r = Some (Some v') /\
             round4 v' = round4 v.
Proof.
  intros H. exists (round4 v). split; [|apply round4_idem].
  unfold ffill.
  rewrite nth_error_round_series, (nth_error_ffill_from_known x None r v H). reflexivity.
Qed.

Lemma backfill_feature_keeps (df df' : DataFrame) (f : string) :
  backfill_feature df f = Ok df' -> keeps_known df df'.
Proof.
  unfold backfill_feature. destruct (has_column f df); [|intros H; inversion H; apply keeps_known_refl].
  unfold column.
  destruct (get_column (lag_name f) df) as [lag|] eqn:El; [|discriminate].
  cbn [bind].
  destruct (get_column (rolling_name f) (set_column (lag_name f) _ df)) as [rm|] eqn:Er;
    [|discriminate].
  cbn [bind]. intros H. inversion H; subst. clear H.
  eapply keeps_known_trans.
  - eapply keeps_known_set; [exact El | apply round_bfill_keeps].
  - eapply keeps_known_set; [exact Er | apply round_bfill_keeps].
Qed.

Lemma foldM_backfill_keeps (fs : list string) (df df' : DataFrame) :
  foldM backfill_feature df fs = Ok df' -> keeps_known df df'.
Proof.
  revert df. induction fs as [|f fs IH]; intros df; simpl.
  - intros H. inversion H. apply keeps_known_refl.
  - destruct (backfill_feature df f) as [d|e] eqn:E; [|discriminate].
    cbn [bind]. intros H. eapply keeps_known_trans.
    + exact (backfill_feature_keeps _ _ _ E).
    + now apply IH.
Qed.

Lemma step7_result (df d : DataFrame) :
  step7 df = Ok d -> foldM backfill_feature df core_features = Ok d.
Proof.
  unfold step7.
  generalize (foldM backfill_feature df core_features). intros [d'|e]; [|discriminate].
  cbn [bind].
  generalize (select_columns (map lag_name core_features) d').
  intros [[]|e] H; [inversion H; reflexivity | discriminate H].
Qed.

Lemma fill_passes_result (df out : DataFrame) :
  fill_passes df = Ok out -> exists d, step7 df = Ok d /\ out = step9 (step8 d).
Proof.
  unfold fill_passes. generalize (step7 df). intros [d|e]; [|discriminate].
  cbn [bind]. intros H. inversion H. now exists d.
Qed.

(** The fill passes change no known cell, up to the final rounding. *)
Lemma fill_passes_keep_known (df out : DataFrame) (c : string) (r : nat) (v : Q) :
  fill_passes df = Ok out -> cell c r df = Some (Some v) ->
  cell c r out = Some (Some (round4 v)).
Proof.
  intros H Hc. destruct (fill_passes_result _ _ H) as [d [H7 ->]].
  apply step7_result, foldM_backfill_keeps in H7.
  destruct (H7 c r v Hc) as [v1 [H1 E1]].
  destruct (keeps_known_map_columns _ d round_ffill_keeps c r v1 H1) as [v2 [H2 E2]].
  fold (step8 d) in H2.
  unfold step9, cell in *. rewrite get_map_columns.
  destruct (get_column c (step8 d)) as [x|]; [|discriminate]. simpl.
  rewrite nth_error_round_series, H2. simpl. congruence.
Qed.

Lemma get_backfill_other (df df' : DataFrame) (g c : string) :
  backfill_feature df g = Ok df' -> c <> lag_name g -> c <> rolling_name g ->
  get_column c df' = get_column c df.
Proof.
  unfold backfill_feature. destruct (has_column g df); [|intros H; now inversion H].
  unfold column.
  destruct (get_column (lag_name g) df) as [lag|]; [|discriminate]. cbn [bind].
  destruct (get_column (rolling_name g) _) as [rm|]; [|discriminate]. cbn [bind].
  intros H Hl Hr. inversion H; subst. now rewrite !get_set_other.
Qed.

Lemma get_backfill_derived (df df' : DataFrame) (f c : string) (x : Series) :
  rolling_name f <> lag_name f ->
  backfill_feature df f = Ok df' -> get_column f df <> None ->
  c = lag_name f \/ c = rolling_name f -> get_column c df = Some x ->
  get_column c df' = Some (round_series (bfill x)).
Proof.
  intros Hne. unfold backfill_feature, has_column.
  destruct (get_column f df); [|intros _ H; now contradiction H].
  unfold column.
  destruct (get_column (lag_name f) df) as [lag|] eqn:El; [|discriminate]. cbn [bind].
  rewrite get_set_other by exact Hne.
  destruct (get_column (rolling_name f) df) as [rm|] eqn:Er; [|discriminate]. cbn [bind].
  intros H _ Hc Hx. inversion H; subst df'. destruct Hc as [->| ->].
  - rewrite get_set_other by congruence. rewrite get_set_same. congruence.
  - rewrite get_set_same. congruence.
Qed.

Section Step7.
Variable fs : list string.
Hypothesis fs_independent : names_independent fs.

Lemma backfill_untouched (l : list string) :
  forall (df df' : DataFrame) (c : string),
    (forall g, In g l -> c <> lag_name g /\ c <> rolling_name g) ->
    foldM backfill_feature df l = Ok df' ->
    get_column c df' = get_column c df.
Proof.
  induction l as [|g l IH]; intros df df' c Hc; simpl.
  - intros H. now inversion H.
  - destruct (backfill_feature df g) as [d|e] eqn:E; [|discriminate]. cbn [bind].
    intros H. rewrite (IH d df' c) by (auto; intros h Hh; apply Hc; now right).
    destruct (Hc g (or_introl eq_refl)). now apply (get_backfill_other df d g).
Qed.

Lemma backfill_derived (l : list string) :
  forall (df df' : DataFrame) (f c : string) (x : Series),
    incl l fs -> NoDup l -> In f l ->
    foldM backfill_feature df l = Ok df' -> get_column f df <> None ->
    c = lag_name f \/ c = rolling_name f -> get_column c df = Some x ->
    get_column c df' = Some (round_series (bfill x)).
Proof.
  destruct fs_independent as [_ H].
  induction l as [|g l IH]; intros df df' f c x Hl Hnd Hin; [contradiction|].
  inversion Hnd as [|? ? Hg Hnd']; subst. simpl.
  assert (Hgs : In g fs) by (apply Hl; now left).
  assert (Hl' : incl l fs) by (intros h Hh; apply Hl; now right).
  destruct (backfill_feature df g) as [d|e] eqn:E; [|discriminate]. cbn [bind].
  intros HM Hf Hc Hx.
  destruct (string_dec g f) as [->|Hne].
  - rewrite (backfill_untouched l d df' c); [|        |exact HM].
    + apply (get_backfill_derived df d f c x); auto.
      now destruct (H f f Hgs Hgs) as [_ [_ [C _]]].
    + intros h Hh. assert (Hhf : f <> h) by (intros ->; contradiction).
      destruct (H f h Hgs (Hl' h Hh)) as [_ [_ [C D]]].
      destruct (H h f (Hl' h Hh) Hgs) as [_ [_ [C' _]]].
      destruct (D Hhf). destruct Hc as [->| ->]; split; congruence.
  - destruct Hin as [E'|Hin]; [congruence|].
    assert (Hfs : In f fs) by now apply Hl'.
    destruct (H g f Hgs Hfs) as [A [B [C D]]].
    destruct (H f g Hfs Hgs) as [_ [_ [C' _]]].
    destruct (D Hne) as [D1 D2].
    apply (IH d df' f c x); auto.
    + rewrite (get_backfill_other df d g f E); congruence.
    + rewrite (get_backfill_other df d g c E); [exact Hx| |];
        destruct Hc as [->| ->]; congruence.
Qed.
End Step7.

(** In the two columns that step 7 fills backward, a missing cell directly
    followed by a known one ends up with that value. *)
Lemma fill_passes_take_next (df out : DataFrame) (f c : string) (r : nat) (v : Q) :
  fill_passes df = Ok out -> In f core_features -> get_column f df <> None ->
  c = lag_name f \/ c = rolling_name f ->
  cell c r df = Some None -> cell c (S r) df = Some (Some v) ->
  cell c r out = Some (Some (round4 v)).
Proof.
  intros H Hf Hp Hc H0 H1. destruct (fill_passes_result _ _ H) as [d [H7 ->]].
  apply step7_result in H7.
  assert (E : cell c r d = Some (Some (round4 v))).
  { unfold cell in *. destruct (get_column c df) as [x|] eqn:Ex; [|discriminate].
    rewrite (backfill_derived core_features core_features_independent core_features
               df d f c x); auto.
    - rewrite nth_error_round_series, (nth_error_bfill_next x r v H0 H1). reflexivity.
    - apply incl_refl.
    - apply core_features_independent. }
  destruct (keeps_known_map_columns _ d round_ffill_keeps c r _ E) as [v2 [H2 E2]].
  fold (step8 d) in H2.
  unfold step9, cell in *. rewrite get_map_columns.
  destruct (get_column c (step8 d)) as [y|]; [|discriminate]. simpl.
  rewrite nth_error_round_series, H2. simpl. rewrite E2, round4_idem. reflexivity.
Qed.

(** ** The table before the fill passes *)

Lemma well_formedb_correct (df : DataFrame) : well_formedb df = true -> well_formed df.
Proof.
  unfold well_formedb, well_formed. rewrite forallb_forall.
  intros H n c Hin. specialize (H (n, c) Hin). now apply Nat.eqb_eq in H.
Qed.

Lemma ascending_Sorted (st : list Z) : ascending st = true -> Sorted Z.le st.
Proof.
  induction st as [|k st IH]; intros H; [constructor|].
  destruct st as [|h st]; [repeat constructor|].
  simpl in H. apply andb_true_iff in H. destruct H as [Hk Hs].
  apply Z.leb_le in Hk. constructor; [now apply IH | now constructor].
Qed.

Lemma feature_engineering_result (raw out : DataFrame) :
  feature_engineering raw = Ok out ->
  exists d, derive raw = Ok d /\ fill_passes d = Ok out.
Proof.
  unfold feature_engineering. generalize (derive raw). intros [d|e]; [|discriminate].
  cbn [bind]. intros H. now exists d.
Qed.

Section Derived.
Variables raw d : DataFrame.
Hypothesis raw_wf : well_formed raw.
Hypothesis Hd : derive raw = Ok d.

Lemma derived_station : Station_ID d = Station_ID raw.
Proof.
  destruct (derive_result _ _ Hd) as [d5 [H5 ->]].
  now rewrite derive_station, (step5_station _ _ _ H5).
Qed.

Lemma derived_well_formed : well_formed d.
Proof.
  destruct (derive_result _ _ Hd) as [d5 [H5 ->]].
  apply derive_well_formed. now apply (step5_well_formed _ _ _ H5).
Qed.

Lemma derived_core (f : string) :
  In f core_features ->
  get_column f d =
  option_map (fun col => round_series
                (groupby_apply_values interpolate (Station_ID raw) col))
             (get_column f raw).
Proof.
  intros Hf. destruct (derive_result _ _ Hd) as [d5 [H5 ->]].
  rewrite (derive_core core_features core_features_independent core_features)
    by (auto; apply incl_refl).
  apply (step5_feature _ _ _ f H5); [apply core_features_independent | exact Hf].
Qed.

Lemma derived_lag (f : string) (col : Series) :
  In f core_features -> get_column f d = Some col ->
  get_column (lag_name f) d =
  Some (round_series (groupby_transform shift1 (Station_ID d) col)).
Proof.
  intros Hf Hc. rewrite derived_station. revert Hc.
  destruct (derive_result _ _ Hd) as [d5 [H5 ->]].
  rewrite (derive_core core_features core_features_independent core_features)
    by (auto; apply incl_refl).
  intros Hc.
  rewrite (derive_lag core_features core_features_independent core_features _ f col); auto.
  - now rewrite (step5_station _ _ _ H5).
  - apply incl_refl.
  - apply core_features_independent.
Qed.

Lemma derived_rolling (f : string) (col : Series) :
  In f core_features -> get_column f d = Some col ->
  get_column (rolling_name f) d =
  Some (round_series (groupby_transform (rolling_mean 7 1) (Station_ID d) col)).
Proof.
  intros Hf Hc. rewrite derived_station. revert Hc.
  destruct (derive_result _ _ Hd) as [d5 [H5 ->]].
  rewrite (derive_core core_features core_features_independent core_features)
    by (auto; apply incl_refl).
  intros Hc.
  rewrite (derive_rolling core_features core_features_independent core_features _ f col);
    auto.
  - now rewrite (step5_station _ _ _ H5).
  - apply incl_refl.
  - apply core_features_independent.
Qed.


Lemma derived_present (f : string) :
  In f core_features -> get_column f raw <> None -> get_column f d <> None.
Proof.
  intros Hf Hp. rewrite (derived_core f Hf).
  destruct (get_column f raw); [discriminate | contradiction].
Qed.
End Derived.

Lemma group_rank_lt (st : list Z) (r : nat) (k : Z) :
  nth_error st r = Some k ->
  (group_rank st r < count_occ Z.eq_dec st k)%nat.
Proof.
  intros Hr. unfold group_rank. rewrite (nth_error_nth _ _ 0%Z Hr).
  destruct (nth_error_split st r Hr) as [l1 [l2 [E L]]].
  rewrite E at 2. rewrite E, <- L.
  rewrite firstn_app, Nat.sub_diag, firstn_all, firstn_O, app_nil_r.
  rewrite count_occ_app. simpl. destruct (Z.eq_dec k k); [lia | congruence].
Qed.


Lemma nth_shift1_S (x : Series) (i : nat) :
  (S i < length x)%nat -> nth (S i) (shift1 x) None = nth i x None.
Proof.
  intros Hi. destruct x as [|v x]; [simpl in Hi; lia|].
  unfold shift1. cbn [nth]. rewrite removelast_firstn_len.
  rewrite nth_firstn. cbn [length] in *.
  destruct (Nat.ltb_spec i (Nat.pred (S (length x)))); [reflexivity | simpl in *; lia].
Qed.







(** * The claims *)

(** ** C1: an interior one-cell gap is filled with the midpoint *)

Lemma cell_station (c : string) (r : nat) (df : DataFrame) (v : value) :
  cell c r df = Some v -> exists col, get_column c df = Some col /\ nth_error col r = Some v.
Proof.
  unfold cell. destruct (get_column c df) as [col|]; [|discriminate].
  intros H. now exists col.
Qed.


(** The cell that step 5 writes on a row of an ascending table. *)
Lemma step5_cell (raw d : DataFrame) (f : string) (col : Series) (r : nat) (k : Z) :
  well_formed raw -> Sorted Z.le (Station_ID raw) -> derive raw = Ok d ->
  In f core_features -> get_column f raw = Some col ->
  nth_error (Station_ID raw) r = Some k ->
  cell f r d =
  nth_error (round_series (interpolate (group_values k (Station_ID raw) col)))
            (group_rank (Station_ID raw) r).
Proof.
  intros W S D Hf Hc Hr.
  assert (SS : StronglySorted Z.le (Station_ID raw))
    by (apply Sorted_StronglySorted; [intros x y z; apply Z.le_trans | exact S]).
  assert (Hlt : (r < length (Station_ID raw))%nat) by (apply nth_error_Some; congruence).
  pose proof (get_column_length _ _ _ W Hc) as Hl.
  unfold cell. rewrite (derived_core raw d D f Hf), Hc. simpl.
  rewrite (groupby_apply_values_aligned interpolate interpolate_length _ SS col Hl).
  rewrite !nth_error_round_series.
  rewrite (nth_error_groupby_transform _ _ _ _ Hlt).
  rewrite (nth_error_nth _ _ 0%Z Hr).
  rewrite (nth_error_nth' _ (@None Q)); [reflexivity|].
  rewrite interpolate_length, group_values_length by exact Hl.
  now apply group_rank_lt.
Qed.



(** ** C10: the positional write-back of the interpolation step *)

(** C10.  The interpolation step assigns the per-group results, laid end to
    end in ascending key order, to the rows by position.  On a table whose
    station groups are contiguous and ascending (and on which [reset_index]
    does not raise) the step completes and every row receives the
    value interpolated from the series of its own station, at its own
    position in that series.  The step does not check the arrangement: the
    stage completes on a table listed in descending station order, and
    there a row receives a value of the other station. *)
Theorem C10_positional_write_back :
  (forall (df : DataFrame) (feature : string) (col : Series),
     well_formed df -> Sorted Z.le (Station_ID df) ->
     get_column feature df = Some col -> reset_index df = Ok tt ->
     exists df',
       interpolate_feature df feature = Ok df' /\
       length (groupby_apply_values interpolate (Station_ID df) col) =
         length (Station_ID df) /\
       forall (r : nat) (k : Z),
         nth_error (Station_ID df) r = Some k ->
         cell feature r df' =
         nth_error (round_series (interpolate (group_values k (Station_ID df) col)))
                   (group_rank (Station_ID df) r)) /\
  (well_formed descending_table /\
   ~ Sorted Z.le (Station_ID descending_table) /\
   (exists out, feature_engineering descending_table = Ok out) /\
   (exists df', interpolate_feature descending_table "PM2.5 (µg/m³)" = Ok df' /\
                cell "PM2.5 (µg/m³)" 0 df' = Some (Some 20)) /\
   nth_error (round_series (interpolate
                (group_values 2 (Station_ID descending_table) [Some 10; Some 20])))
             (group_rank (Station_ID descending_table) 0) = Some (Some 10)).
Proof.
  split.
  - intros df feature col W S Hc Hi.
    pose proof (get_column_length _ _ _ W Hc) as Hl.
    destruct (interpolate_feature df feature) as [df'|e] eqn:E;
      [|unfold interpolate_feature in E; rewrite Hc, Hi in E; discriminate E].
    exists df'. split; [reflexivity|].
    split; [apply groupby_apply_values_length; [apply interpolate_length | exact Hl]|].
    intros r k Hr.
    assert (SS : StronglySorted Z.le (Station_ID df))
      by (apply Sorted_StronglySorted; [intros x y z; apply Z.le_trans | exact S]).
    assert (Hlt : (r < length (Station_ID df))%nat) by (apply nth_error_Some; congruence).
    unfold cell. rewrite (get_interpolate_feature_same df df' feature E), Hc. simpl.
    rewrite (groupby_apply_values_aligned interpolate interpolate_length _ SS col Hl).
    rewrite !nth_error_round_series.
    rewrite (nth_error_groupby_transform _ _ _ _ Hlt).
    rewrite (nth_error_nth _ _ 0%Z Hr).
    rewrite (nth_error_nth' _ (@None Q)); [reflexivity|].
    rewrite interpolate_length, group_values_length by exact Hl.
    now apply group_rank_lt.
  - split; [apply well_formedb_correct; reflexivity|].
    split.
    + intros H. inversion H as [|? ? _ Hd]; subst.
      inversion Hd as [|? ? Hle]; subst. vm_compute in Hle. now apply Hle.
    + split; [|split; [|reflexivity]].
      * destruct (feature_engineering descending_table) as [out|e] eqn:FE;
          [now exists out | vm_compute in FE; discriminate FE].
      * eexists. split; reflexivity.
Qed.

(** The scenario table is ascending: its fifth row gets its own value. *)
Lemma C10_positional_write_back_witness :
  exists df',
    interpolate_feature scenario_table "PM2.5 (µg/m³)" = Ok df' /\
    cell "PM2.5 (µg/m³)" 4 df' =
    nth_error (round_series (interpolate
                 (group_values 1 (Station_ID scenario_table) scenario_series)))
              (group_rank (Station_ID scenario_table) 4).
Proof.
  destruct (proj1 C10_positional_write_back scenario_table "PM2.5 (µg/m³)"%string
              scenario_series) as [df' [E [_ H]]].
  - apply well_formedb_correct. reflexivity.
  - apply ascending_Sorted. reflexivity.
  - reflexivity.
  - reflexivity.
  - exists df'. split; [exact E|]. apply H. reflexivity.
Defined.

(** ** C6: the lag-1 feature *)





(** ** C5: the rolling mean *)




(** ** C9: a pollutant column that is absent *)

Lemma interpolate_feature_absent (df : DataFrame) (f : string) :
  get_column f df = None -> interpolate_feature df f = Ok df.
Proof. intros H. unfold interpolate_feature. now rewrite H. Qed.

Lemma backfill_feature_absent (df : DataFrame) (f : string) :
  get_column f df = None -> backfill_feature df f = Ok df.
Proof. intros H. unfold backfill_feature, has_column. now rewrite H. Qed.

Lemma rolling_name_not_core (f : string) :
  In f core_features -> ~ In (rolling_name f) core_features.
Proof.
  intros Hf Hin. destruct core_features_independent as [_ H].
  destruct (H f (rolling_name f) Hf Hin) as [A _]. now apply A.
Qed.

Lemma lag_name_not_core (f : string) :
  In f core_features -> ~ In (lag_name f) core_features.
Proof.
  intros Hf Hin. destruct core_features_independent as [_ H].
  destruct (H f (lag_name f) Hf Hin) as [_ [B _]]. now apply B.
Qed.

(** C9 on the code.  When a pollutant column is absent, the three loop
    bodies skip it, but the stage does not complete: unless step 5 has
    raised already, the print that closes step 6 selects the rolling-mean
    columns of all five pollutants and raises [KeyError] for one that was
    not produced. *)
Theorem C9_absent_column_raises :
  forall (raw : DataFrame) (f : string),
    In f core_features ->
    get_column f raw = None -> get_column (rolling_name f) raw = None ->
    interpolate_feature raw f = Ok raw /\
    derive_feature raw f = raw /\
    backfill_feature raw f = Ok raw /\
    (exists e, feature_engineering raw = Raise e) /\
    (forall d5, step5 raw = Ok d5 ->
       exists m, In m core_features /\
                 feature_engineering raw = Raise (KeyError (rolling_name m))).
Proof.
  intros raw f Hf Hc Hr.
  split; [now apply interpolate_feature_absent|].
  split; [now apply derive_feature_absent|].
  split; [now apply backfill_feature_absent|].
  assert (G : forall d5, step5 raw = Ok d5 ->
            exists m, In m core_features /\
                      feature_engineering raw = Raise (KeyError (rolling_name m))).
  { intros d5 S5. pose proof S5 as S5'. unfold step5 in S5'.
    assert (H5 : get_column f d5 = None).
    { rewrite (step5_feature _ _ _ f S5');
        [now rewrite Hc | apply core_features_independent | exact Hf]. }
    assert (H5r : get_column (rolling_name f) d5 = None).
    { rewrite (step5_other _ _ _ _ S5'); [exact Hr | now apply rolling_name_not_core]. }
    destruct (derive_absent core_features core_features_independent core_features
                d5 f (incl_refl _) Hf H5) as [R _].
    rewrite H5r in R.
    destruct (select_columns_raise (map rolling_name core_features) _ (rolling_name f)
                (in_map _ _ _ Hf) R) as [n [Hn E]].
    apply in_map_iff in Hn. destruct Hn as [m [<- Hm]].
    exists m. split; [exact Hm|].
    unfold feature_engineering, derive. rewrite S5. cbn [bind].
    unfold step6. cbv zeta. rewrite E. reflexivity. }
  split; [|exact G].
  destruct (step5 raw) as [d5|e] eqn:S5.
  - destruct (G d5 eq_refl) as [m [_ E]]. eexists. exact E.
  - exists e. unfold feature_engineering, derive. rewrite S5. reflexivity.
Qed.

(** The table without the ozone column makes the stage raise. *)
Lemma C9_absent_column_raises_witness :
  exists e, feature_engineering no_ozone_table = Raise e.
Proof.
  apply (C9_absent_column_raises no_ozone_table "Ozone (µg/m³)"%string).
  - do 4 right. left. reflexivity.
  - reflexivity.
  - reflexivity.
Defined.

(** The stage on the table without the ozone column. *)
Example no_ozone_table_raises :
  feature_engineering no_ozone_table = Raise (KeyError "Ozone (µg/m³)_rolling_mean").
Proof. reflexivity. Qed.

(** ** C3: missing values after the stage *)

(** C3 on the code.  A column outside the five pollutants and their derived
    columns is only filled forward, so a missing first cell of it is still
    missing when the stage has completed. *)
Theorem C3_leading_missing_value_remains :
  forall (raw out : DataFrame) (c : string) (x : Series),
    feature_engineering raw = Ok out ->
    ~ In c core_features ->
    (forall g, In g core_features -> c <> rolling_name g /\ c <> lag_name g) ->
    get_column c raw = Some (None :: x) ->
    cell c 0 out = Some None /\ ~ no_missing out.
Proof.
  intros raw out c x FE Hc Hd Hx.
  destruct (feature_engineering_result _ _ FE) as [d [D F]].
  destruct (fill_passes_result _ _ F) as [d7 [H7 ->]].
  apply step7_result in H7.
  assert (E : get_column c d7 = Some (None :: x)).
  { rewrite (backfill_untouched core_features d d7 c) by
      (auto; intros g Hg; destruct (Hd g Hg); split; congruence).
    destruct (derive_result _ _ D) as [d5 [H5 ->]].
    rewrite derive_untouched by exact Hd.
    rewrite (step5_other _ _ _ c H5) by exact Hc. exact Hx. }
  assert (G : get_column c (step9 (step8 d7)) =
              Some (round_series (round_series (ffill (None :: x))))).
  { unfold step9, step8. rewrite !get_map_columns, E. reflexivity. }
  split.
  - unfold cell. rewrite G. reflexivity.
  - intros N. apply lookup_In in G. specialize (N _ _ G).
    inversion N as [|? ? Hv _]. now apply Hv.
Qed.

(** The leading gap of the ammonia column is still there after the stage. *)
Lemma C3_leading_missing_value_remains_witness :
  exists out, feature_engineering leading_gap_table = Ok out /\
              cell "NH3 (µg/m³)" 0 out = Some None /\ ~ no_missing out.
Proof.
  destruct (feature_engineering leading_gap_table) as [out|e] eqn:FE;
    [|vm_compute in FE; discriminate FE].
  exists out. split; [reflexivity|].
  apply (C3_leading_missing_value_remains leading_gap_table out
           "NH3 (µg/m³)"%string [Some (4645 # 100)] FE).
  - intros H. vm_compute in H. repeat (destruct H as [H|H]; [discriminate H|]). exact H.
  - intros g Hg. unfold core_features in Hg. simpl in Hg.
    repeat (destruct Hg as [<-|Hg]; [split; intros E; vm_compute in E; discriminate E|]).
    contradiction.
  - reflexivity.
Defined.

(** ** C2: no leakage between stations *)

(** Against C2 as stated.  Station 1 has a single row, followed by the rows
    of station 2.  Its lag-1 cell is missing before the fill passes, and the
    backward fill of step 7 runs over the whole column: the cell takes the
    first lag value of station 2, which is 20 in one run and 99 in the
    other. *)
Lemma C2_counterexample :
  tables_agree_off 2 single_row_run1 single_row_run2 /\
  well_formed single_row_run1 /\ well_formed single_row_run2 /\
  Sorted Z.le (Station_ID single_row_run1) /\
  nth_error (Station_ID single_row_run1) 0 = Some 1%Z /\
  exists o1 o2,
    feature_engineering single_row_run1 = Ok o1 /\
    feature_engineering single_row_run2 = Ok o2 /\
    cell (lag_name "PM2.5 (µg/m³)") 0 o1 = Some (Some 20) /\
    cell (lag_name "PM2.5 (µg/m³)") 0 o2 = Some (Some 99) /\
    cell (lag_name "PM2.5 (µg/m³)") 0 o1 <> cell (lag_name "PM2.5 (µg/m³)") 0 o2.
Proof.
  split.
  { split; [reflexivity|]. unfold single_row_run1, single_row_run2, uniform_table.
    cbn [columns Station_ID map core_features].
    repeat (constructor; [split; [reflexivity | agree_off_concrete]|]). constructor. }
  split; [apply well_formedb_correct; reflexivity|].
  split; [apply well_formedb_correct; reflexivity|].
  split; [apply ascending_Sorted; reflexivity|].
  split; [reflexivity|].
  destruct (feature_engineering single_row_run1) as [o1|e] eqn:F1;
    [|vm_compute in F1; discriminate F1].
  destruct (feature_engineering single_row_run2) as [o2|e] eqn:F2;
    [|vm_compute in F2; discriminate F2].
  vm_compute in F1, F2. injection F1 as <-. injection F2 as <-.
  eexists. eexists. split; [reflexivity|]. split; [reflexivity|].
  split; [reflexivity|]. split; [reflexivity|].
  intros H. vm_compute in H. discriminate H.
Qed.

Lemma feature_engineering_fill (raw d out : DataFrame) :
  derive raw = Ok d -> feature_engineering raw = Ok out -> fill_passes d = Ok out.
Proof. intros D. unfold feature_engineering. rewrite D. intros H. exact H. Qed.

Lemma columns_agree_present (s : Z) (df1 df2 : DataFrame) (c : string) :
  columns_agree_off s df1 df2 -> get_column c df1 <> None -> get_column c df2 <> None.
Proof.
  intros [_ H] Hp. specialize (H c).
  destruct (get_column c df1), (get_column c df2); try contradiction; congruence.
Qed.

(** C2, amended.  Take two well-formed input tables with the same rows,
    arranged with the station groups contiguous and ascending, that agree
    on every row outside station [S2], and a row [r] of another station
    [S1].  (1) Every derived feature of row [r], as computed before the
    fill passes, is the same in both runs.  (2) When it is known before the
    fill passes, the fill passes keep it, so it is the same in the output
    of the whole stage.  (3) When a rolling-mean or lag-1 cell of row [r]
    is missing before the fill passes and the next row belongs to [S1] too
    and has the cell known, the backward fill takes that value, in both
    runs.  A cell that is missing before the fill passes and is not
    followed by a known cell of its own station is filled from whatever
    rows are next to it in the table. *)
Theorem C2_no_leakage_between_stations :
  forall (S1 S2 : Z) (df1 df2 d1 d2 o1 o2 : DataFrame) (f c : string) (r : nat),
    S1 <> S2 -> well_formed df1 -> well_formed df2 ->
    Sorted Z.le (Station_ID df1) -> tables_agree_off S2 df1 df2 ->
    derive df1 = Ok d1 -> derive df2 = Ok d2 ->
    feature_engineering df1 = Ok o1 -> feature_engineering df2 = Ok o2 ->
    In f core_features -> In c (derived_columns f) ->
    nth_error (Station_ID df1) r = Some S1 ->
    cell c r d1 = cell c r d2 /\
    (forall v, cell c r d1 = Some (Some v) ->
       cell c r o1 = Some (Some (round4 v)) /\ cell c r o2 = Some (Some (round4 v))) /\
    (forall v, get_column f df1 <> None -> c <> f ->
       nth_error (Station_ID df1) (S r) = Some S1 ->
       cell c r d1 = Some None -> cell c (S r) d1 = Some (Some v) ->
       cell c r o1 = Some (Some (round4 v)) /\ cell c r o2 = Some (Some (round4 v))).
Proof.
  intros S1 S2 df1 df2 d1 d2 o1 o2 f c r Hne W1 W2 Hs Ha D1 D2 F1 F2 Hf Hc Hr.
  pose proof (feature_engineering_fill _ _ _ D1 F1) as P1.
  pose proof (feature_engineering_fill _ _ _ D2 F2) as P2.
  assert (N : forall c' r', nth_error (Station_ID df1) r' = Some S1 ->
                            cell c' r' d1 = cell c' r' d2).
  { intros c' r' Hr'.
    now apply (derive_noninterference S2 S1 df1 df2 d1 d2 c' r'). }
  split; [now apply N|]. split.
  - intros v Hv. split.
    + now apply (fill_passes_keep_known d1).
    + apply (fill_passes_keep_known d2); [exact P2|]. now rewrite <- N.
  - intros v Hp Hcf Hr' H0 H1.
    assert (Hc' : c = lag_name f \/ c = rolling_name f).
    { unfold derived_columns in Hc. simpl in Hc.
      destruct Hc as [E|[E|[E|[]]]]; [congruence | now right | now left]. }
    split.
    + apply (fill_passes_take_next d1 o1 f c r v P1 Hf); auto.
      now apply (derived_present df1 d1 D1).
    + apply (fill_passes_take_next d2 o2 f c r v P2 Hf); auto.
      * apply (derived_present df2 d2 D2); [exact Hf|].
        apply (columns_agree_present S2 df1 df2); [|exact Hp].
        now apply tables_agree_columns.
      * now rewrite <- N.
      * now rewrite <- N.
Qed.

(** Station 1 with two rows: its first lag-1 cell is 10 in both runs. *)
Lemma C2_no_leakage_between_stations_witness :
  exists d1 d2 o1 o2,
    derive two_row_run1 = Ok d1 /\ derive two_row_run2 = Ok d2 /\
    feature_engineering two_row_run1 = Ok o1 /\
    feature_engineering two_row_run2 = Ok o2 /\
    cell (lag_name "PM2.5 (µg/m³)") 0 d1 = cell (lag_name "PM2.5 (µg/m³)") 0 d2 /\
    cell (lag_name "PM2.5 (µg/m³)") 0 o1 = Some (Some 10) /\
    cell (lag_name "PM2.5 (µg/m³)") 0 o2 = Some (Some 10).
Proof.
  destruct (derive two_row_run1) as [d1|e] eqn:D1; [|vm_compute in D1; discriminate D1].
  destruct (derive two_row_run2) as [d2|e] eqn:D2; [|vm_compute in D2; discriminate D2].
  destruct (feature_engineering two_row_run1) as [o1|e] eqn:F1;
    [|vm_compute in F1; discriminate F1].
  destruct (feature_engineering two_row_run2) as [o2|e] eqn:F2;
    [|vm_compute in F2; discriminate F2].
  exists d1, d2, o1, o2. do 4 (split; [reflexivity|]).
  destruct (C2_no_leakage_between_stations 1 2 two_row_run1 two_row_run2 d1 d2 o1 o2
              "PM2.5 (µg/m³)"%string (lag_name "PM2.5 (µg/m³)") 0%nat)
    as [A [_ B]]; auto.
  - discriminate.
  - apply well_formedb_correct. reflexivity.
  - apply well_formedb_correct. reflexivity.
  - apply ascending_Sorted. reflexivity.
  - split; [reflexivity|]. unfold two_row_run1, two_row_run2, uniform_table.
    cbn [columns Station_ID map core_features].
    repeat (constructor; [split; [reflexivity | agree_off_concrete]|]). constructor.
  - left. reflexivity.
  - right. right. left. reflexivity.
  - split; [exact A|].
    assert (H0 : cell (lag_name "PM2.5 (µg/m³)") 0 d1 = Some None)
      by (vm_compute in D1; injection D1 as <-; reflexivity).
    assert (H1 : cell (lag_name "PM2.5 (µg/m³)") 1 d1 = Some (Some 10))
      by (vm_compute in D1; injection D1 as <-; reflexivity).
    apply (B 10); auto.
    + discriminate.
    + intros E. vm_compute in E. discriminate E.
Defined.

(** * The dataset builder *)

(** ** The split *)

Lemma n_test_of_bounds (n : nat) :
  (n <= 5 * n_test_of n)%nat /\ (5 * n_test_of n < n + 5)%nat.
Proof.
  unfold n_test_of.
  pose proof (Qle_ceiling ((2 # 10) * inject_Z (Z.of_nat n))) as L.
  pose proof (Qceiling_lt ((2 # 10) * inject_Z (Z.of_nat n))) as U.
  assert (Hn : 0 <= inject_Z (Z.of_nat n)).
  { change 0 with (inject_Z 0). rewrite <- Zle_Qle. lia. }
  assert (Hc : (0 <= Qceiling ((2 # 10) * inject_Z (Z.of_nat n)))%Z).
  { rewrite <- (Qceiling_Z 0). apply Qceiling_resp_le. change (inject_Z 0) with 0. lra. }
  revert L U Hc. generalize (Qceiling ((2 # 10) * inject_Z (Z.of_nat n))).
  intros c L U Hc.
  assert (L' : (2 * Z.of_nat n <= 10 * c)%Z).
  { rewrite Zle_Qle, !inject_Z_mult.
    change (inject_Z 2) with 2. change (inject_Z 10) with 10. lra. }
  assert (U' : (10 * (c - 1) < 2 * Z.of_nat n)%Z).
  { rewrite Zlt_Qlt, !inject_Z_mult.
    change (inject_Z 2) with 2. change (inject_Z 10) with 10. lra. }
  split; lia.
Qed.

Lemma n_test_of_10 : n_test_of 10 = 2%nat.
Proof. reflexivity. Qed.

Lemma train_test_split_ok (A B : Type) (X : list A) (y : list B) :
  length y = length X -> (2 <= length X)%nat ->
  train_test_split X y =
  Ok (firstn (length X - n_test_of (length X)) X,
      firstn (n_test_of (length X)) (skipn (length X - n_test_of (length X)) X),
      firstn (length X - n_test_of (length X)) y,
      firstn (n_test_of (length X)) (skipn (length X - n_test_of (length X)) y)).
Proof.
  intros Hy Hn. unfold train_test_split.
  rewrite Hy, Nat.eqb_refl. cbn [negb].
  destruct (n_test_of_bounds (length X)) as [L U].
  destruct (Nat.eqb_spec (length X - n_test_of (length X)) 0); [lia | reflexivity].
Qed.

Lemma train_test_split_inv (A B : Type) (X Xtr Xte : list A) (y ytr yte : list B) :
  train_test_split X y = Ok (Xtr, Xte, ytr, yte) ->
  length y = length X /\ (2 <= length X)%nat.
Proof.
  unfold train_test_split.
  destruct (Nat.eqb_spec (length y) (length X)) as [E|E]; cbn [negb]; [|discriminate].
  destruct (n_test_of_bounds (length X)) as [L U].
  destruct (Nat.eqb_spec (length X - n_test_of (length X)) 0); [discriminate|].
  intros _. split; [exact E | lia].
Qed.

Lemma train_test_split_small (A B : Type) (X : list A) (y : list B) :
  (length X <= 1)%nat -> exists e, train_test_split X y = Raise e.
Proof.
  intros Hn. unfold train_test_split.
  destruct (negb (length y =? length X)%nat); [eexists; reflexivity|].
  destruct (n_test_of_bounds (length X)) as [L U].
  destruct (Nat.eqb_spec (length X - n_test_of (length X)) 0); [eexists; reflexivity | lia].
Qed.

Lemma nth_error_firstn_known (A : Type) (k i : nat) (l : list A) (a : A) :
  nth_error (firstn k l) i = Some a -> nth_error l i = Some a.
Proof.
  revert k i. induction l as [|h l IH]; intros k i H.
  - rewrite firstn_nil in H. destruct i; discriminate.
  - destruct k as [|k]; [destruct i; discriminate|].
    destruct i as [|i]; [exact H|]. simpl in *. now apply (IH k).
Qed.

Lemma nth_error_skipn_shift (A : Type) (k j : nat) (l : list A) :
  nth_error (skipn k l) j = nth_error l (k + j).
Proof.
  revert l. induction k as [|k IH]; intros l; [reflexivity|].
  destruct l as [|h l]; [destruct j; reflexivity|]. simpl. apply IH.
Qed.

(** Against C4 as stated.  A single sample cannot be split: the training
    part would be empty and the call raises instead of returning
    partitions, here for the dataset built from an enriched table of one
    row. *)
Lemma C4_counterexample :
  dataset_builder one_row_table =
    Raise (ValueError "the resulting train set will be empty") /\
  @train_test_split nat nat [0%nat] [0%nat] =
    Raise (ValueError "the resulting train set will be empty").
Proof. split; reflexivity. Qed.

(** C4, amended.  For every input of [n >= 2] samples the split returns two
    partitions in the order of the input and without shuffling: the
    training partition is the first part of the samples and the test
    partition the rest, so they share no position and cover all samples and
    every training sample precedes every test sample; the test partition
    has [ceil(n / 5)] samples, which is within one sample of 20%, and the
    training partition the others, within one sample of 80%; for ten
    samples the test partition is the last two.  For [n <= 1] the split
    raises. *)
Theorem C4_chronological_split :
  forall (A B : Type) (X : list A) (y : list B),
    length y = length X -> (2 <= length X)%nat ->
    exists Xtr Xte ytr yte,
      train_test_split X y = Ok (Xtr, Xte, ytr, yte) /\
      X = Xtr ++ Xte /\ y = ytr ++ yte /\
      length ytr = length Xtr /\ length yte = length Xte /\
      (1 <= length Xtr)%nat /\
      (length X <= 5 * length Xte < length X + 5)%nat /\
      (4 * length X < 5 * length Xtr + 5 /\ 5 * length Xtr <= 4 * length X)%nat /\
      (forall i a, nth_error Xtr i = Some a -> nth_error X i = Some a) /\
      (forall j b, nth_error Xte j = Some b ->
                   nth_error X (length Xtr + j) = Some b) /\
      (length X = 10%nat -> Xte = skipn 8 X /\ length Xte = 2%nat).
Proof.
  intros A B X y Hy Hn.
  destruct (n_test_of_bounds (length X)) as [L U].
  set (t := n_test_of (length X)) in *.
  assert (Ht : (t <= length X)%nat) by lia.
  assert (EX : firstn t (skipn (length X - t) X) = skipn (length X - t) X)
    by (apply firstn_all2; rewrite length_skipn; lia).
  assert (Ey : firstn t (skipn (length X - t) y) = skipn (length X - t) y)
    by (apply firstn_all2; rewrite length_skipn; lia).
  exists (firstn (length X - t) X), (skipn (length X - t) X),
         (firstn (length X - t) y), (skipn (length X - t) y).
  split; [rewrite train_test_split_ok by assumption; fold t; now rewrite EX, Ey|].
  split; [symmetry; apply firstn_skipn|].
  split; [symmetry; apply firstn_skipn|].
  rewrite !length_firstn, !length_skipn.
  split; [lia|]. split; [lia|]. split; [lia|]. split; [lia|]. split; [lia|].
  split; [|split].
  - intros i a Hi. now apply nth_error_firstn_known in Hi.
  - intros j b Hj. rewrite nth_error_skipn_shift in Hj.
    replace (Nat.min (length X - t) (length X)) with (length X - t)%nat by lia.
    exact Hj.
  - intros H10. unfold t. rewrite H10. rewrite n_test_of_10. simpl Nat.sub.
    split; reflexivity.
Qed.

(** ** The scalers *)

Lemma dataset_builder_result (data : DataFrame) (ds : Dataset) :
  dataset_builder data = Ok ds ->
  exists cols ycol,
    select features data = Ok cols /\ column target data = Ok ycol /\
    scaler_X ds = map fit cols /\ scaler_y ds = fit ycol /\
    train_test_split
      (map (fun row => [row])
           (rows_of (length (Station_ID data)) (map (fun c => transform (fit c) c) cols)))
      (map (fun v => [v]) (transform (fit ycol) ycol)) =
    Ok (X_train ds, X_test ds, y_train ds, y_test ds).
Proof.
  unfold dataset_builder.
  generalize (select features data). intros [cols|e]; [|discriminate]. cbn [bind].
  generalize (check_samples data). intros [[]|e]; [|discriminate]. cbn [bind].
  generalize (column target data). intros [ycol|e]; [|discriminate]. cbn [bind].
  destruct (train_test_split _ _) as [[[[a b] c] d]|e] eqn:E; [|discriminate].
  cbn [bind]. intros H. inversion H; subst. simpl.
  exists cols, ycol. repeat split; auto.
Qed.

Lemma qmin_le_l (a b : Q) : qmin a b <= a.
Proof.
  unfold qmin. destruct (Qle_bool a b) eqn:E; [apply Qle_refl|].
  destruct (Qlt_le_dec b a) as [H|H]; [now apply Qlt_le_weak|].
  apply Qle_bool_iff in H. congruence.
Qed.

Lemma qmin_le_r (a b : Q) : qmin a b <= b.
Proof.
  unfold qmin. destruct (Qle_bool a b) eqn:E; [now apply Qle_bool_iff | apply Qle_refl].
Qed.

Lemma qmax_ge_l (a b : Q) : a <= qmax a b.
Proof.
  unfold qmax. destruct (Qle_bool a b) eqn:E; [now apply Qle_bool_iff | apply Qle_refl].
Qed.

Lemma qmax_ge_r (a b : Q) : b <= qmax a b.
Proof.
  unfold qmax. destruct (Qle_bool a b) eqn:E; [apply Qle_refl|].
  destruct (Qlt_le_dec b a) as [H|H]; [now apply Qlt_le_weak|].
  apply Qle_bool_iff in H. congruence.
Qed.

Lemma nanmin_le (x : Series) (q : Q) :
  In (Some q) x -> exists m, nanmin x = Some m /\ m <= q.
Proof.
  unfold nanmin. induction x as [|v x IH]; intros Hin; [contradiction|].
  simpl. destruct Hin as [->|Hin].
  - destruct (nanreduce qmin x) as [b|].
    + eexists. split; [reflexivity | apply qmin_le_l].
    + eexists. split; [reflexivity | apply Qle_refl].
  - destruct (IH Hin) as [m [Hm Hle]]. rewrite Hm.
    destruct v as [a|].
    + eexists. split; [reflexivity|].
      eapply Qle_trans; [apply qmin_le_r | exact Hle].
    + eexists. split; [reflexivity | exact Hle].
Qed.

Lemma nanmax_ge (x : Series) (q : Q) :
  In (Some q) x -> exists m, nanmax x = Some m /\ q <= m.
Proof.
  unfold nanmax. induction x as [|v x IH]; intros Hin; [contradiction|].
  simpl. destruct Hin as [->|Hin].
  - destruct (nanreduce qmax x) as [b|].
    + eexists. split; [reflexivity | apply qmax_ge_l].
    + eexists. split; [reflexivity | apply Qle_refl].
  - destruct (IH Hin) as [m [Hm Hle]]. rewrite Hm.
    destruct v as [a|].
    + eexists. split; [reflexivity|].
      eapply Qle_trans; [exact Hle | apply qmax_ge_r].
    + eexists. split; [reflexivity | exact Hle].
Qed.

(** The divisor of a fitted scaler is positive. *)
Lemma handle_zeros_pos (r : Q) :
  exists r', handle_zeros_in_scale (Some r) = Some r' /\ 0 < r' /\
             (r' == 1 /\ r < 1 \/ r' = r).
Proof.
  unfold handle_zeros_in_scale.
  destruct (Qcompare_spec r (10 * eps)) as [E|E|E].
  - exists r. split; [reflexivity|]. split; [|now right].
    rewrite E. reflexivity.
  - exists 1. split; [reflexivity|]. split; [reflexivity|]. left.
    split; [reflexivity|]. eapply Qlt_trans; [exact E | reflexivity].
  - exists r. split; [reflexivity|]. split; [|now right].
    eapply Qlt_trans; [|exact E]. reflexivity.
Qed.

Lemma fit_known (x : Series) (lo hi : Q) :
  nanmin x = Some lo -> nanmax x = Some hi ->
  exists r, 0 < r /\ (r == 1 /\ hi - lo < 1 \/ r = hi - lo) /\
    fit x = mkMinMaxScaler (Some lo) (Some hi) (Some (hi - lo))
              (Some ((1 - 0) / r)) (Some (0 - lo * ((1 - 0) / r))).
Proof.
  intros Hlo Hhi. unfold fit. rewrite Hlo, Hhi. cbn [vlift2].
  destruct (handle_zeros_pos (hi - lo)) as [r [Hr [Hpos Hcase]]].
  rewrite Hr. cbn [vlift2]. exists r. repeat split; auto.
Qed.

(** A known cell of the fitted column is scaled into the unit interval. *)
Lemma transform_in_unit (x : Series) (q : Q) :
  In (Some q) x -> in_unit (transform1 (fit x) (Some q)).
Proof.
  intros Hin.
  destruct (nanmin_le x q Hin) as [lo [Hlo Lq]].
  destruct (nanmax_ge x q Hin) as [hi [Hhi Uq]].
  destruct (fit_known x lo hi Hlo Hhi) as [r [Hpos [Hcase ->]]].
  unfold transform1. cbn [scale_ min_ vlift2 in_unit].
  assert (E : q * ((1 - 0) / r) + (0 - lo * ((1 - 0) / r)) == (q - lo) / r)
    by (field; intros Z; rewrite Z in Hpos; discriminate Hpos).
  rewrite E. split.
  - apply Qle_shift_div_l; [exact Hpos | lra].
  - apply Qle_shift_div_r; [exact Hpos|].
    destruct Hcase as [[R1 Hlt]| ->]; [rewrite R1|]; lra.
Qed.


(** Scaling and unscaling a value gives the value back. *)
Lemma inverse_transform_transform (x : Series) (lo hi v : Q) :
  nanmin x = Some lo -> nanmax x = Some hi ->
  exists s v', transform1 (fit x) (Some v) = Some s /\
               inverse_transform1 (fit x) (Some s) = Some v' /\ v' == v.
Proof.
  intros Hlo Hhi.
  destruct (fit_known x lo hi Hlo Hhi) as [r [Hpos [_ ->]]].
  unfold transform1, inverse_transform1. cbn [scale_ min_ vlift2].
  eexists. eexists. split; [reflexivity|]. split; [reflexivity|].
  field. intros Z. rewrite Z in Hpos. discriminate Hpos.
Qed.

Lemma train_test_split_app (A B : Type) (X Xtr Xte : list A) (y ytr yte : list B) :
  train_test_split X y = Ok (Xtr, Xte, ytr, yte) -> X = Xtr ++ Xte /\ y = ytr ++ yte.
Proof.
  intros H. destruct (train_test_split_inv _ _ _ _ _ _ _ _ H) as [Hy Hn].
  rewrite train_test_split_ok in H by assumption.
  destruct (n_test_of_bounds (length X)) as [L U].
  inversion H; subst; clear H.
  rewrite (firstn_all2 (skipn (length X - n_test_of (length X)) X))
    by (rewrite length_skipn; lia).
  rewrite (firstn_all2 (skipn (length X - n_test_of (length X)) y))
    by (rewrite length_skipn; lia).
  now rewrite !firstn_skipn.
Qed.






(** ** C7: the scaled values *)




(** Ten samples: the last two are the test partition. *)
Lemma C4_chronological_split_witness :
  exists Xtr Xte ytr yte,
    train_test_split (seq 0 10) (seq 100 10) = Ok (Xtr, Xte, ytr, yte) /\
    Xte = [8; 9]%nat /\ yte = [108; 109]%nat.
Proof.
  destruct (C4_chronological_split nat nat (seq 0 10) (seq 100 10))
    as [Xtr [Xte [ytr [yte [H _]]]]].
  - reflexivity.
  - simpl. lia.
  - exists Xtr, Xte, ytr, yte. split; [exact H|].
    vm_compute in H. injection H as <- <- <- <-. split; reflexivity.
Defined.

(** ** C8: the round trip through the target scaler *)



(** * Further properties of the feature-engineering cells *)

(** ** Interpolation of a whole series *)

Lemma valid_points_nil_iff (x : Series) (i : Z) :
  valid_points i x = [] <-> forall q, ~ In (Some q) x.
Proof.
  revert i. induction x as [|[v|] x IH]; intros i; simpl.
  - split; [intros _ q [] | reflexivity].
  - split; [discriminate | intros H; exfalso; apply (H v); now left].
  - rewrite IH. split.
    + intros H q [E|Hin]; [discriminate | now apply (H q)].
    + intros H q Hin. apply (H q). now right.
Qed.

Lemma np_interp_known (x : Z) (p : Z * Q) (ps : list (Z * Q)) :
  np_interp x (p :: ps) <> None.
Proof. simpl. destruct (x <=? fst p)%Z; discriminate. Qed.

Lemma fill_interp_no_missing (ps : list (Z * Q)) (x : Series) (i : Z) :
  ps <> [] -> Forall (fun v => v <> None) (fill_interp ps i x).
Proof.
  intros Hps. revert i. induction x as [|[v|] x IH]; intros i; simpl.
  - constructor.
  - constructor; [discriminate | apply IH].
  - constructor; [|apply IH].
    destruct ps as [|p ps]; [contradiction | apply np_interp_known].
Qed.

Lemma fill_interp_nil (x : Series) (i : Z) :
  (forall q, ~ In (Some q) x) -> fill_interp [] i x = x.
Proof.
  revert i. induction x as [|[v|] x IH]; intros i H; simpl.
  - reflexivity.
  - exfalso. apply (H v). now left.
  - f_equal. apply IH. intros q Hin. apply (H q). now right.
Qed.

(** X1.  A series with at least one known cell comes back from the
    interpolation with no missing cell, the same length and its known cells
    unchanged; a series without any known cell comes back as it is. *)
Theorem interpolate_fills_or_keeps :
  forall x : Series,
    length (interpolate x) = length x /\
    (forall n v, nth_error x n = Some (Some v) ->
                 nth_error (interpolate x) n = Some (Some v)) /\
    ((exists q, In (Some q) x) -> Forall (fun v => v <> None) (interpolate x)) /\
    ((forall q, ~ In (Some q) x) -> interpolate x = x).
Proof.
  intros x. split; [apply interpolate_length|]. split; [apply interpolate_known|].
  split.
  - intros [q Hq]. unfold interpolate. apply fill_interp_no_missing.
    intros E. apply (proj1 (valid_points_nil_iff x 0) E q Hq).
  - intros H. unfold interpolate.
    rewrite (proj2 (valid_points_nil_iff x 0) H). now apply fill_interp_nil.
Qed.

Lemma interpolate_fills_or_keeps_witness :
  Forall (fun v => v <> None) (interpolate [None; Some 3; None; None; Some 6; None]).
Proof.
  apply (proj1 (proj2 (proj2 (interpolate_fills_or_keeps _)))).
  exists 3. right. left. reflexivity.
Defined.

Lemma valid_points_leading (m : nat) (x : Series) (i : Z) :
  valid_points i (repeat None m ++ x) = valid_points (i + Z.of_nat m) x.
Proof.
  revert i. induction m as [|m IH]; intros i.
  - simpl. now rewrite Z.add_0_r.
  - simpl repeat. simpl app. simpl valid_points. rewrite IH. f_equal. lia.
Qed.

Lemma nth_error_repeat_None (m n : nat) (x : Series) :
  (n < m)%nat -> nth_error (repeat (@None Q) m ++ x) n = Some None.
Proof.
  intros H. rewrite nth_error_app1 by (rewrite repeat_length; lia).
  revert n H. induction m as [|m IH]; intros n H; [lia|].
  destruct n as [|n]; [reflexivity|]. simpl. apply IH. lia.
Qed.

(** X2.  With [limit_direction='both'] the missing cells before the first
    known cell all take its value, and the missing cells after the last
    known cell all take the value of that one. *)
Theorem interpolate_extends_both_ways :
  (forall (m : nat) (a : Q) (rest : Series) (n : nat),
     (n < m)%nat ->
     nth_error (interpolate (repeat None m ++ Some a :: rest)) n = Some (Some a)) /\
  (forall (pre : Series) (b : Q) (m n : nat),
     (n < m)%nat ->
     nth_error (interpolate (pre ++ Some b :: repeat None m)) (length pre + 1 + n) =
     Some (Some b)).
Proof.
  split.
  - intros m a rest n Hn. unfold interpolate.
    rewrite nth_error_fill_interp, nth_error_repeat_None by exact Hn.
    rewrite valid_points_leading. cbn [valid_points np_interp fst snd].
    destruct (Z.leb_spec (0 + Z.of_nat n) (0 + Z.of_nat m)); [reflexivity | lia].
  - intros pre b m n Hn. unfold interpolate.
    rewrite nth_error_fill_interp.
    rewrite nth_error_app2 by lia.
    replace (length pre + 1 + n - length pre)%nat with (S n) by lia.
    cbn [nth_error].
    rewrite <- (app_nil_r (repeat None m)).
    match goal with |- context [@nth_error ?A ?l n] =>
      assert (R : @nth_error A l n = Some None)
        by (apply (nth_error_repeat_None m n []); exact Hn);
      rewrite R; clear R
    end.
    rewrite valid_points_app. cbn [valid_points].
    match goal with |- context [valid_points ?i (?l ++ [])] =>
      assert (R : valid_points i (l ++ []) = [])
        by (apply (valid_points_leading m [] i));
      rewrite R; clear R
    end.
    pose proof (valid_points_bounds pre 0) as B.
    set (x := (0 + Z.of_nat (length pre + 1 + n))%Z).
    set (k := (0 + Z.of_nat (length pre))%Z).
    assert (Hx : (k < x)%Z) by (unfold k, x; lia).
    destruct (valid_points 0 pre) as [|p0 l] eqn:E; simpl.
    + destruct (Z.leb_spec x k); [lia | reflexivity].
    + inversion B as [|? ? Hp Hl]; subst.
      destruct (Z.leb_spec x (fst p0)); [unfold k in *; lia|]. f_equal.
      rewrite (interp_from_skip x l p0 (k, b) []); [reflexivity| |simpl; lia].
      eapply Forall_impl; [|exact Hl]. simpl. intros p Hp'. unfold k in *. lia.
Qed.

Lemma interpolate_extends_both_ways_witness :
  nth_error (interpolate (repeat None 2 ++ Some 5 :: [None; Some 7])) 1 = Some (Some 5).
Proof. apply (proj1 interpolate_extends_both_ways). lia. Defined.

(** X3.  In a run of [m] missing cells between two known cells [a] and [b]
    the [j]-th of them is set to [a + j (b - a) / (m + 1)], the point of the
    straight line from [a] to [b]; it lies between [a] and [b]. *)
Theorem interpolate_gap_is_linear :
  forall (pre post : Series) (a b : Q) (m j : nat),
    (1 <= j <= m)%nat ->
    exists v,
      nth_error (interpolate (pre ++ Some a :: repeat None m ++ Some b :: post))
                (length pre + j) = Some (Some v) /\
      v == a + inject_Z (Z.of_nat j) * (b - a) / inject_Z (Z.of_nat (m + 1)) /\
      (a <= b -> a <= v /\ v <= b) /\ (b <= a -> b <= v /\ v <= a).
Proof.
  intros pre post a b m j Hj. unfold interpolate.
  rewrite nth_error_fill_interp.
  rewrite nth_error_app2 by lia.
  replace (length pre + j - length pre)%nat with (S (j - 1)) by lia.
  simpl nth_error. rewrite nth_error_repeat_None by lia.
  rewrite valid_points_app. simpl valid_points.
  rewrite valid_points_leading. simpl valid_points.
  set (n := Z.of_nat (length pre)).
  rewrite (np_interp_between (0 + Z.of_nat (length pre + j)) _ (0 + n)
             (0 + n + 1 + Z.of_nat m)).
  2:{ eapply Forall_impl; [|apply valid_points_bounds]. simpl. unfold n. intros; lia. }
  2:{ unfold n. lia. }
  eexists. split; [reflexivity|].
  replace (0 + n + 1 + Z.of_nat m - (0 + n))%Z with (Z.of_nat (m + 1)) by lia.
  replace (0 + Z.of_nat (length pre + j) - (0 + n))%Z with (Z.of_nat j)
    by (unfold n; lia).
  set (J := inject_Z (Z.of_nat j)). set (M := inject_Z (Z.of_nat (m + 1))).
  assert (HM : 0 < M) by (unfold M; change 0 with (inject_Z 0); rewrite <- Zlt_Qlt; lia).
  assert (HJ : 0 <= J) by (unfold J; change 0 with (inject_Z 0); rewrite <- Zle_Qle; lia).
  assert (HJM : J <= M) by (unfold J, M; rewrite <- Zle_Qle; lia).
  clearbody J M.
  assert (HM0 : ~ M == 0) by (intros Z0; rewrite Z0 in HM; discriminate HM).
  assert (E : (b - a) / M * J + a == a + J * (b - a) / M) by (field; exact HM0).
  split; [exact E|].
  assert (T0 : 0 <= J / M)
    by (apply Qle_shift_div_l; [exact HM | rewrite Qmult_0_l; exact HJ]).
  assert (T1 : J / M <= 1)
    by (apply Qle_shift_div_r; [exact HM | rewrite Qmult_1_l; exact HJM]).
  assert (E2 : (b - a) / M * J + a == a + (J / M) * (b - a)) by (field; exact HM0).
  rewrite E2. clear E E2. revert T0 T1. generalize (J / M). intros t T0 T1.
  split; intros Hab.
  - assert (P : 0 <= t * (b - a)) by (apply Qmult_le_0_compat; lra).
    assert (P' : 0 <= (1 - t) * (b - a)) by (apply Qmult_le_0_compat; lra).
    split; lra.
  - assert (P : 0 <= t * (a - b)) by (apply Qmult_le_0_compat; lra).
    assert (P' : 0 <= (1 - t) * (a - b)) by (apply Qmult_le_0_compat; lra).
    split; lra.
Qed.

Lemma interpolate_gap_is_linear_witness :
  exists v, nth_error (interpolate ([Some 1] ++ Some 10 :: repeat None 3 ++ Some 18 :: []))
                      (1 + 2) = Some (Some v) /\ v == 14.
Proof.
  destruct (interpolate_gap_is_linear [Some 1] [] 10 18 3 2) as [v [H [E _]]]; [lia|].
  exists v. split; [exact H|]. rewrite E. reflexivity.
Defined.

(** ** Rounding *)

Lemma rint_bounds (q : Q) :
  (rint q = Qfloor q \/ rint q = Qfloor q + 1)%Z.
Proof.
  unfold rint. destruct (Qcompare _ _); [destruct (Z.even _)| |]; auto.
Qed.

Lemma rint_monotone (x y : Q) : x <= y -> (rint x <= rint y)%Z.
Proof.
  intros Hxy.
  pose proof (Qfloor_resp_le _ _ Hxy) as Hf.
  destruct (Z.eq_dec (Qfloor x) (Qfloor y)) as [E|NE].
  - unfold rint. rewrite <- E.
    destruct (Qcompare_spec (x - inject_Z (Qfloor x)) (1 # 2)) as [Ex|Ex|Ex];
      destruct (Qcompare_spec (y - inject_Z (Qfloor x)) (1 # 2)) as [Ey|Ey|Ey];
      try destruct (Z.even (Qfloor x)); try lia; exfalso; lra.
  - destruct (rint_bounds x) as [-> | ->], (rint_bounds y) as [-> | ->]; lia.
Qed.

Lemma round4_monotone (q q' : Q) : q <= q' -> round4 q <= round4 q'.
Proof.
  intros H. unfold round4, np_round.
  change (inject_Z (10 ^ Z.of_nat 4)) with 10000.
  rewrite !Qred_correct.
  assert (M : (rint (q * 10000) <= rint (q' * 10000))%Z) by (apply rint_monotone; lra).
  rewrite Zle_Qle in M.
  apply Qmult_le_compat_r; [exact M | discriminate].
Qed.



Lemma map_columns_round_idem (df : DataFrame) :
  map_columns round_series (map_columns round_series df) = map_columns round_series df.
Proof.
  unfold map_columns. simpl. f_equal. rewrite map_map. apply map_ext.
  intros [n c]. simpl. now rewrite round_series_idem.
Qed.

(** X5.  The table written out is rounded already: the rounding of step 9
    changes nothing after step 8, rounding the output of a completed stage
    once more gives the same table, and every known cell of the output
    is its own rounding to four decimals. *)
Theorem output_is_rounded :
  (forall d : DataFrame, step9 (step8 d) = step8 d) /\
  (forall raw out : DataFrame,
     feature_engineering raw = Ok out ->
     map_columns round_series out = out /\
     forall c r v, cell c r out = Some (Some v) -> round4 v = v).
Proof.
  assert (S : forall d, step9 (step8 d) = step8 d).
  { intros d. unfold step9, step8, map_columns. simpl. f_equal.
    rewrite map_map. apply map_ext. intros [n c]. simpl.
    now rewrite round_series_idem. }
  split; [exact S|].
  intros raw out FE.
  destruct (feature_engineering_result _ _ FE) as [d [_ F]].
  destruct (fill_passes_result _ _ F) as [d7 [_ ->]].
  split; [apply map_columns_round_idem|].
  intros c r v Hc. unfold step9, cell in Hc. rewrite get_map_columns in Hc.
  destruct (get_column c (step8 d7)) as [x|]; [|discriminate]. simpl in Hc.
  rewrite nth_error_round_series in Hc.
  destruct (nth_error x r) as [[w|]|]; try discriminate.
  simpl in Hc. inversion Hc. apply round4_idem.
Qed.

Lemma output_is_rounded_witness :
  exists out, feature_engineering three_sample_table = Ok out /\
              map_columns round_series out = out.
Proof.
  destruct (feature_engineering three_sample_table) as [out|e] eqn:FE;
    [|vm_compute in FE; discriminate FE].
  exists out. split; [reflexivity|].
  apply (proj2 output_is_rounded three_sample_table out FE).
Defined.

(** ** The shape of the table *)

Lemma names_assign_present (n : string) (s : Series) (cols : list (string * Series)) :
  In n (map fst cols) -> map fst (assign n s cols) = map fst cols.
Proof.
  induction cols as [|[m c] cols IH]; simpl; [contradiction|].
  destruct (String.eqb_spec m n) as [->|Hne]; [reflexivity|].
  intros [E|Hin]; [contradiction|]. simpl. f_equal. now apply IH.
Qed.

Lemma names_assign_absent (n : string) (s : Series) (cols : list (string * Series)) :
  ~ In n (map fst cols) -> map fst (assign n s cols) = map fst cols ++ [n].
Proof.
  induction cols as [|[m c] cols IH]; simpl; [reflexivity|].
  destruct (String.eqb_spec m n) as [->|Hne]; intros H.
  - exfalso. apply H. now left.
  - simpl. f_equal. apply IH. intros Hin. apply H. now right.
Qed.

Lemma get_column_names (n : string) (df : DataFrame) :
  get_column n df <> None <-> In n (column_names df).
Proof.
  unfold get_column, column_names. pose proof (lookup_None n (columns df)) as H.
  destruct (lookup n (columns df)).
  - split; [|discriminate]. intros _.
    destruct (in_dec string_dec n (map fst (columns df))) as [Hin|Hin]; [exact Hin|].
    apply H in Hin. discriminate.
  - split; [intros C; now contradiction C|]. intros Hin. exfalso.
    now apply (proj1 H eq_refl).
Qed.

Lemma names_set_column_present (n : string) (s : Series) (df : DataFrame) :
  get_column n df <> None -> column_names (set_column n s df) = column_names df.
Proof. intros H. apply names_assign_present. now apply get_column_names. Qed.

Lemma names_set_column (n : string) (s : Series) (df : DataFrame) :
  exists l, column_names (set_column n s df) = column_names df ++ l /\
            forall c, In c l -> c = n.
Proof.
  unfold column_names, set_column. simpl.
  destruct (in_dec string_dec n (map fst (columns df))) as [Hin|Hin].
  - exists []. rewrite names_assign_present, app_nil_r by exact Hin.
    split; [reflexivity | contradiction].
  - exists [n]. rewrite names_assign_absent by exact Hin.
    split; [reflexivity|]. intros c [<-|[]]. reflexivity.
Qed.

Lemma names_interpolate_feature (df df' : DataFrame) (f : string) :
  interpolate_feature df f = Ok df' -> column_names df' = column_names df.
Proof.
  unfold interpolate_feature. destruct (get_column f df) as [col|] eqn:E.
  - destruct (reset_index df) as [[]|e]; [|discriminate]. cbn [bind].
    intros H. inversion H; subst. clear H.
    rewrite names_set_column_present by (rewrite get_set_same; discriminate).
    apply names_set_column_present. rewrite E. discriminate.
  - intros H. now inversion H.
Qed.

Lemma names_step5 (fs : list string) (df df' : DataFrame) :
  foldM interpolate_feature df fs = Ok df' -> column_names df' = column_names df.
Proof.
  revert df. induction fs as [|f fs IH]; intros df; simpl.
  - intros H. now inversion H.
  - destruct (interpolate_feature df f) as [d|e] eqn:E; [|discriminate]. cbn [bind].
    intros H. rewrite (IH d H). now apply (names_interpolate_feature df d f).
Qed.

Lemma names_derive_feature (df : DataFrame) (f : string) :
  exists l, column_names (derive_feature df f) = column_names df ++ l /\
            forall c, In c l ->
              get_column f df <> None /\ (c = rolling_name f \/ c = lag_name f).
Proof.
  unfold derive_feature. destruct (get_column f df) as [col|] eqn:E.
  - destruct (names_set_column (rolling_name f)
                (round_series (groupby_transform (rolling_mean 7 1) (Station_ID df) col)) df)
      as [l1 [E1 H1]].
    destruct (names_set_column (lag_name f)
                (round_series (groupby_transform shift1 (Station_ID df) col))
                (set_column (rolling_name f)
                   (round_series (groupby_transform (rolling_mean 7 1) (Station_ID df) col))
                   df))
      as [l2 [E2 H2]].
    exists (l1 ++ l2). split.
    + cbv zeta. rewrite E2, E1. now rewrite app_assoc.
    + intros c Hc. split; [discriminate|]. apply in_app_or in Hc.
      destruct Hc as [Hc|Hc]; [left; now apply H1 | right; now apply H2].
  - exists []. split; [now rewrite app_nil_r | contradiction].
Qed.

Lemma names_backfill_feature (df df' : DataFrame) (f : string) :
  backfill_feature df f = Ok df' -> column_names df' = column_names df.
Proof.
  unfold backfill_feature. destruct (has_column f df); [|intros H; now inversion H].
  unfold column.
  destruct (get_column (lag_name f) df) as [lag|] eqn:El; [|discriminate]. cbn [bind].
  destruct (get_column (rolling_name f) _) as [rm|] eqn:Er; [|discriminate]. cbn [bind].
  intros H. inversion H; subst. clear H.
  rewrite names_set_column_present by (rewrite Er; discriminate).
  apply names_set_column_present. rewrite El. discriminate.
Qed.

Lemma names_step7 (fs : list string) (df df' : DataFrame) :
  foldM backfill_feature df fs = Ok df' -> column_names df' = column_names df.
Proof.
  revert df. induction fs as [|f fs IH]; intros df; simpl.
  - intros H. now inversion H.
  - destruct (backfill_feature df f) as [d|e] eqn:E; [|discriminate]. cbn [bind].
    intros H. rewrite (IH d H). now apply (names_backfill_feature df d f).
Qed.

Lemma names_map_columns (g : Series -> Series) (df : DataFrame) :
  column_names (map_columns g df) = column_names df.
Proof.
  unfold column_names, map_columns. simpl. rewrite map_map. now apply map_ext.
Qed.

Section DeriveNames.
Variable fs : list string.
Hypothesis fs_independent : names_independent fs.

Lemma names_derive (l : list string) :
  forall df : DataFrame,
    incl l fs ->
    exists added,
      column_names (fold_left derive_feature l df) = column_names df ++ added /\
      forall c, In c added ->
        exists f, In f l /\ get_column f df <> None /\
                  (c = rolling_name f \/ c = lag_name f).
Proof.
  induction l as [|g l IH]; intros df Hl; simpl.
  - exists []. split; [now rewrite app_nil_r | contradiction].
  - assert (Hl' : incl l fs) by (intros h Hh; apply Hl; now right).
    destruct (names_derive_feature df g) as [l1 [E1 H1]].
    destruct (IH (derive_feature df g) Hl') as [l2 [E2 H2]].
    exists (l1 ++ l2). split; [rewrite E2, E1; now rewrite app_assoc|].
    intros c Hc. apply in_app_or in Hc. destruct Hc as [Hc|Hc].
    + destruct (H1 c Hc) as [P Q]. exists g. split; [now left | now split].
    + destruct (H2 c Hc) as [f [Hf [P Q]]]. exists f. split; [now right|].
      split; [|exact Q].
      destruct fs_independent as [_ H].
      destruct (H g f (Hl g (or_introl eq_refl)) (Hl' f Hf)) as [A [B _]].
      rewrite get_derive_feature_other in P by congruence. exact P.
Qed.
End DeriveNames.

Lemma backfill_feature_shape (d y : DataFrame) (f : string) :
  backfill_feature d f = Ok y ->
  Station_ID y = Station_ID d /\ (well_formed d -> well_formed y).
Proof.
  unfold backfill_feature, column. intros E.
  destruct (has_column f d); [|inversion E; now subst].
  destruct (get_column (lag_name f) d) as [lag|] eqn:El; [|discriminate].
  cbn [bind] in E.
  destruct (get_column (rolling_name f) _) as [rm|] eqn:Er; [|discriminate].
  cbn [bind] in E. inversion E; subst. split; [reflexivity|]. intros Wd.
  assert (W1 : well_formed (set_column (lag_name f) (round_series (bfill lag)) d)).
  { apply well_formed_set_column; [exact Wd|].
    rewrite round_series_length, bfill_length.
    now apply (get_column_length (lag_name f)). }
  apply well_formed_set_column; [exact W1|].
  rewrite round_series_length, bfill_length.
  now apply (get_column_length (rolling_name f) rm _ W1).
Qed.

Lemma step7_shape (l : list string) (d y : DataFrame) :
  foldM backfill_feature d l = Ok y ->
  Station_ID y = Station_ID d /\ (well_formed d -> well_formed y).
Proof.
  revert d. induction l as [|f l IH]; intros d; simpl.
  - intros H. inversion H. now split.
  - destruct (backfill_feature d f) as [x|e] eqn:E; [|discriminate]. cbn [bind].
    intros H. destruct (IH x H) as [S W].
    destruct (backfill_feature_shape d x f E) as [S' W'].
    split; [congruence | auto].
Qed.

Lemma well_formed_map_columns (g : Series -> Series) (df : DataFrame) :
  (forall x, length (g x) = length x) -> well_formed df ->
  well_formed (map_columns g df).
Proof.
  intros Hg W n c Hin. unfold map_columns in Hin. simpl in *.
  apply in_map_iff in Hin. destruct Hin as [[m x] [E Hin]]. simpl in E.
  inversion E; subst. rewrite Hg. exact (W _ _ Hin).
Qed.

Lemma feature_engineering_shape (raw out : DataFrame) :
  feature_engineering raw = Ok out ->
  Station_ID out = Station_ID raw /\ (well_formed raw -> well_formed out).
Proof.
  intros FE.
  destruct (feature_engineering_result _ _ FE) as [d [D F]].
  destruct (fill_passes_result _ _ F) as [d7 [H7 ->]].
  apply step7_result in H7.
  destruct (step7_shape _ _ _ H7) as [St7 W7].
  split.
  - change (Station_ID (step9 (step8 d7))) with (Station_ID d7).
    rewrite St7. apply (derived_station raw d D).
  - intros W. pose proof (derived_well_formed raw d W D) as Wd.
    unfold step9, step8. apply well_formed_map_columns; [apply round_series_length|].
    apply well_formed_map_columns; [|now apply W7].
    intros x. rewrite round_series_length. apply ffill_from_length.
Qed.

(** X6.  A completed stage keeps the rows and the station column, keeps a
    well-formed table well formed, and keeps the columns of the input in
    their order: the names of the output are the names of the input
    followed by added ones, and every added name is the rolling-mean or
    the lag-1 name of a pollutant column that the input has. *)
Theorem stage_keeps_shape :
  forall raw out : DataFrame,
    feature_engineering raw = Ok out ->
    Station_ID out = Station_ID raw /\
    (well_formed raw -> well_formed out) /\
    exists added,
      column_names out = column_names raw ++ added /\
      forall c, In c added ->
        exists f, In f core_features /\ get_column f raw <> None /\
                  (c = rolling_name f \/ c = lag_name f).
Proof.
  intros raw out FE.
  destruct (feature_engineering_result _ _ FE) as [d [D F]].
  destruct (fill_passes_result _ _ F) as [d7 [H7 ->]].
  apply step7_result in H7.
  destruct (step7_shape _ _ _ H7) as [St7 W7].
  split; [|split].
  - change (Station_ID (step9 (step8 d7))) with (Station_ID d7).
    rewrite St7. apply (derived_station raw d D).
  - intros W. pose proof (derived_well_formed raw d W D) as Wd.
    unfold step9, step8. apply well_formed_map_columns; [apply round_series_length|].
    apply well_formed_map_columns; [|now apply W7].
    intros x. rewrite round_series_length. apply ffill_from_length.
  - destruct (derive_result _ _ D) as [d5 [H5 Ed]]. rewrite Ed in *.
    destruct (names_derive core_features core_features_independent core_features d5
                (incl_refl _)) as [added [E H]].
    exists added. split.
    + unfold step9, step8. rewrite !names_map_columns.
      rewrite (names_step7 _ _ _ H7), E. now rewrite (names_step5 _ _ _ H5).
    + intros c Hc. destruct (H c Hc) as [f [Hf [P Q]]].
      exists f. split; [exact Hf|]. split; [|exact Q].
      rewrite (step5_feature _ _ _ f H5) in P;
        [|apply core_features_independent | exact Hf].
      destruct (get_column f raw); [discriminate | now contradiction P].
Qed.

Lemma stage_keeps_shape_witness :
  exists out, feature_engineering leading_gap_table = Ok out /\
              Station_ID out = Station_ID leading_gap_table /\ well_formed out.
Proof.
  destruct (feature_engineering leading_gap_table) as [out|e] eqn:FE;
    [|vm_compute in FE; discriminate FE].
  exists out. split; [reflexivity|].
  destruct (stage_keeps_shape leading_gap_table out FE) as [S [W _]].
  split; [exact S|]. apply W. apply well_formedb_correct. reflexivity.
Defined.

(** ** When the stage completes *)

Lemma has_column_names (a b : DataFrame) (c : string) :
  column_names a = column_names b -> has_column c a = has_column c b.
Proof.
  intros E. unfold has_column.
  pose proof (get_column_names c a) as Ha. pose proof (get_column_names c b) as Hb.
  rewrite E in Ha.
  destruct (get_column c a), (get_column c b); try reflexivity; exfalso.
  - apply (proj2 Hb); [apply Ha; discriminate | reflexivity].
  - apply (proj2 Ha); [apply Hb; discriminate | reflexivity].
Qed.

Lemma reset_index_names (a b : DataFrame) :
  column_names a = column_names b -> reset_index a = reset_index b.
Proof.
  intros E. unfold reset_index.
  now rewrite (has_column_names a b "index" E), (has_column_names a b "level_0" E).
Qed.

Lemma present_names (a b : DataFrame) (c : string) :
  column_names a = column_names b -> get_column c b <> None -> get_column c a <> None.
Proof.
  intros E H. apply get_column_names. rewrite E. now apply get_column_names.
Qed.

Lemma interpolate_feature_completes (df : DataFrame) (f : string) :
  reset_index df = Ok tt -> exists df', interpolate_feature df f = Ok df'.
Proof.
  intros R. unfold interpolate_feature. rewrite R.
  destruct (get_column f df); eexists; reflexivity.
Qed.

Lemma step5_completes (fs : list string) (df : DataFrame) :
  reset_index df = Ok tt -> exists d5, foldM interpolate_feature df fs = Ok d5.
Proof.
  revert df. induction fs as [|f fs IH]; intros df R; simpl.
  - eexists. reflexivity.
  - destruct (interpolate_feature_completes df f R) as [d E]. rewrite E. cbn [bind].
    apply IH. rewrite (reset_index_names d df); [exact R|].
    now apply (names_interpolate_feature df d f).
Qed.

Lemma backfill_feature_completes (df : DataFrame) (f : string) :
  get_column (lag_name f) df <> None -> get_column (rolling_name f) df <> None ->
  exists df', backfill_feature df f = Ok df'.
Proof.
  intros Hl Hr. unfold backfill_feature, column.
  destruct (has_column f df); [|eexists; reflexivity].
  destruct (get_column (lag_name f) df) as [lag|] eqn:El; [|contradiction]. cbn [bind].
  assert (P : get_column (rolling_name f)
                (set_column (lag_name f) (round_series (bfill lag)) df) <> None).
  { apply (present_names _ df); [|exact Hr].
    apply names_set_column_present. rewrite El. discriminate. }
  destruct (get_column (rolling_name f)
              (set_column (lag_name f) (round_series (bfill lag)) df));
    [|contradiction].
  cbn [bind]. eexists. reflexivity.
Qed.

Lemma step7_completes (l : list string) (df : DataFrame) :
  (forall g, In g l -> get_column (lag_name g) df <> None /\
                       get_column (rolling_name g) df <> None) ->
  exists d7, foldM backfill_feature df l = Ok d7.
Proof.
  revert df. induction l as [|f l IH]; intros df H; simpl.
  - eexists. reflexivity.
  - destruct (H f (or_introl eq_refl)) as [Hl Hr].
    destruct (backfill_feature_completes df f Hl Hr) as [d E]. rewrite E. cbn [bind].
    apply IH. intros g Hg. destruct (H g (or_intror Hg)) as [Gl Gr].
    pose proof (names_backfill_feature df d f E) as N.
    split; now apply (present_names d df).
Qed.

Lemma model_columns_are_derived (n : string) :
  In n (target :: features) ->
  exists f, In f core_features /\ In n (derived_columns f).
Proof.
  unfold target, features, core_features, derived_columns, rolling_name, lag_name.
  intros H. simpl in H.
  repeat (destruct H as [<-|H];
          [first [ exists "PM2.5 (µg/m³)"%string; split; simpl; tauto
                 | exists "PM10 (µg/m³)"%string; split; simpl; tauto
                 | exists "NOx (ppb)"%string; split; simpl; tauto
                 | exists "CO (mg/m³)"%string; split; simpl; tauto
                 | exists "Ozone (µg/m³)"%string; split; simpl; tauto ]|]).
  contradiction.
Qed.

Lemma feature_engineering_completes :
  forall raw : DataFrame,
    has_core_features raw -> reset_index raw = Ok tt ->
    exists out,
      feature_engineering raw = Ok out /\
      (forall f c, In f core_features -> In c (derived_columns f) ->
                   get_column c out <> None) /\
      (forall n, In n (target :: features) -> get_column n out <> None).
Proof.
  intros raw Hcore R.
  destruct (step5_completes core_features raw R) as [d5 H5].
  set (d := fold_left derive_feature core_features d5).
  assert (P5 : forall f, In f core_features -> exists col, get_column f d5 = Some col).
  { intros f Hf.
    rewrite (step5_feature _ _ _ f H5); [|apply core_features_independent | exact Hf].
    specialize (Hcore f Hf). destruct (get_column f raw); [|contradiction].
    eexists. reflexivity. }
  assert (Pd : forall f c, In f core_features -> In c (derived_columns f) ->
                           get_column c d <> None).
  { intros f c Hf Hc. destruct (P5 f Hf) as [col Hcol]. unfold d.
    destruct Hc as [<-|[<-|[<-|[]]]].
    - rewrite (derive_core core_features core_features_independent core_features)
        by (auto; apply incl_refl).
      rewrite Hcol. discriminate.
    - rewrite (derive_rolling core_features core_features_independent core_features
                 d5 f col); auto; [discriminate | apply incl_refl |
                                   apply core_features_independent].
    - rewrite (derive_lag core_features core_features_independent core_features
                 d5 f col); auto; [discriminate | apply incl_refl |
                                   apply core_features_independent]. }
  assert (D : derive raw = Ok d).
  { unfold derive, step5. rewrite H5. cbn [bind]. unfold step6. cbv zeta. fold d.
    rewrite select_columns_ok; [reflexivity|].
    intros n Hn. apply in_map_iff in Hn. destruct Hn as [f [<- Hf]].
    apply (Pd f); [exact Hf | right; left; reflexivity]. }
  destruct (step7_completes core_features d) as [d7 H7].
  { intros g Hg. split; apply (Pd g); auto; simpl; tauto. }
  assert (N7 : column_names d7 = column_names d) by now apply (names_step7 core_features).
  assert (P7 : forall f c, In f core_features -> In c (derived_columns f) ->
                           get_column c d7 <> None).
  { intros f c Hf Hc. apply (present_names d7 d); [exact N7 | now apply (Pd f)]. }
  assert (S7 : step7 d = Ok d7).
  { unfold step7. rewrite H7. cbn [bind].
    rewrite select_columns_ok; [reflexivity|].
    intros n Hn. apply in_map_iff in Hn. destruct Hn as [f [<- Hf]].
    apply (P7 f); [exact Hf | right; right; left; reflexivity]. }
  exists (step9 (step8 d7)).
  assert (Po : forall f c, In f core_features -> In c (derived_columns f) ->
                           get_column c (step9 (step8 d7)) <> None).
  { intros f c Hf Hc. apply (present_names _ d7); [|now apply (P7 f)].
    unfold step9, step8. now rewrite !names_map_columns. }
  split; [|split; [exact Po|]].
  - unfold feature_engineering. rewrite D. cbn [bind].
    unfold fill_passes. rewrite S7. reflexivity.
  - intros n Hn. destruct (model_columns_are_derived n Hn) as [f [Hf Hc]].
    now apply (Po f).
Qed.

(** X7.  On a table that has the five pollutant columns, and not both an
    [index] and a [level_0] column, the stage completes, and its output has
    the five pollutant columns and their ten derived columns: every column
    the dataset builder selects. *)
Theorem stage_completes :
  forall raw : DataFrame,
    has_core_features raw -> reset_index raw = Ok tt ->
    exists out,
      feature_engineering raw = Ok out /\
      (forall f c, In f core_features -> In c (derived_columns f) ->
                   get_column c out <> None) /\
      (forall n, In n (target :: features) -> get_column n out <> None).
Proof. exact feature_engineering_completes. Qed.

Lemma stage_completes_witness :
  exists out, feature_engineering scenario_table = Ok out /\
              get_column "Ozone (µg/m³)_lag_1" out <> None.
Proof.
  destruct (stage_completes scenario_table) as [out [FE [_ H]]].
  - intros f Hf. unfold core_features in Hf. simpl in Hf.
    repeat (destruct Hf as [<-|Hf]; [discriminate|]). contradiction.
  - reflexivity.
  - exists out. split; [exact FE|]. apply H. unfold target, features. simpl. tauto.
Defined.

(** * Further properties of the dataset-building cell *)

Lemma select_ok (names : list string) (df : DataFrame) :
  (forall n, In n names -> get_column n df <> None) ->
  exists cols, select names df = Ok cols.
Proof.
  induction names as [|n names IH]; intros H; simpl.
  - eexists. reflexivity.
  - unfold column. destruct (get_column n df) eqn:E;
      [|exfalso; apply (H n); [now left | exact E]].
    cbn [bind]. destruct IH as [cs ->]; [intros m Hm; apply H; now right|].
    cbn [bind]. eexists. reflexivity.
Qed.

Lemma select_present (names : list string) (df : DataFrame) (cols : list Series) :
  select names df = Ok cols ->
  length cols = length names /\ forall n, In n names -> get_column n df <> None.
Proof.
  revert cols. induction names as [|n names IH]; intros cols; simpl.
  - intros H. inversion H. split; [reflexivity | contradiction].
  - unfold column. destruct (get_column n df) as [c0|] eqn:E; [|discriminate].
    cbn [bind]. destruct (select names df) as [cs|e]; [|discriminate].
    cbn [bind]. intros H. inversion H; subst.
    destruct (IH cs eq_refl) as [L P]. split; [simpl; now rewrite L|].
    intros m [<-|Hm]; [rewrite E; discriminate | now apply P].
Qed.

Lemma select_absent (names : list string) (df : DataFrame) (n : string) :
  In n names -> get_column n df = None ->
  exists m, In m names /\ get_column m df = None /\
            select names df = Raise (KeyError m).
Proof.
  induction names as [|k names IH]; intros Hin Hn; [contradiction|]. simpl.
  unfold column. destruct (get_column k df) as [c|] eqn:E.
  - cbn [bind]. destruct Hin as [->|Hin]; [congruence|].
    destruct (IH Hin Hn) as [m [Hm [Gm ->]]]. cbn [bind].
    exists m. split; [now right|]. split; [exact Gm | reflexivity].
  - cbn [bind]. exists k. split; [now left|]. split; [exact E | reflexivity].
Qed.

Lemma rows_of_length (n : nat) (cols : list Series) : length (rows_of n cols) = n.
Proof. unfold rows_of. now rewrite length_map, length_seq. Qed.

Lemma transform_length (s : MinMaxScaler) (x : Series) :
  length (transform s x) = length x.
Proof. unfold transform. apply length_map. Qed.

Lemma check_samples_ok (df : DataFrame) :
  (1 <= length (Station_ID df))%nat -> check_samples df = Ok tt.
Proof. unfold check_samples. destruct (Station_ID df); simpl; [lia | reflexivity]. Qed.

Lemma dataset_builder_ok (data : DataFrame) :
  well_formed data ->
  (forall n, In n (target :: features) -> get_column n data <> None) ->
  (2 <= length (Station_ID data))%nat ->
  exists ds, dataset_builder data = Ok ds.
Proof.
  intros W P N. unfold dataset_builder.
  destruct (select_ok features data) as [cols ->]; [intros n Hn; apply P; now right|].
  cbn [bind]. rewrite check_samples_ok by lia. cbn [bind].
  unfold column. destruct (get_column target data) as [ycol|] eqn:Y;
    [|exfalso; apply (P target); [now left | exact Y]].
  cbn [bind].
  rewrite train_test_split_ok.
  - cbn [bind]. eexists. reflexivity.
  - rewrite !length_map, rows_of_length, transform_length.
    now apply (get_column_length target).
  - now rewrite length_map, rows_of_length.
Qed.

(** X8.  On a well-formed table the dataset builder returns a dataset if and
    only if the table has the target column and the fourteen feature columns
    and at least two rows. *)
Theorem dataset_builder_completes_iff :
  forall data : DataFrame,
    well_formed data ->
    ((exists ds, dataset_builder data = Ok ds) <->
     (forall n, In n (target :: features) -> get_column n data <> None) /\
     (2 <= length (Station_ID data))%nat).
Proof.
  intros data W. split.
  - intros [ds H].
    destruct (dataset_builder_result _ _ H) as [cols [ycol [S [Y [_ [_ T]]]]]].
    split.
    + intros n [<-|Hn].
      * unfold column in Y. destruct (get_column target data); [discriminate|].
        discriminate Y.
      * now apply (select_present features data cols).
    + apply train_test_split_inv in T. destruct T as [_ T].
      now rewrite length_map, rows_of_length in T.
  - intros [P N]. now apply dataset_builder_ok.
Qed.

Lemma dataset_builder_completes_iff_witness :
  (exists ds, dataset_builder scenario_enriched = Ok ds) <->
  (forall n, In n (target :: features) -> get_column n scenario_enriched <> None) /\
  (2 <= length (Station_ID scenario_enriched))%nat.
Proof.
  apply (dataset_builder_completes_iff scenario_enriched).
  apply well_formedb_correct. vm_compute. reflexivity.
Defined.

(** X9.  How the dataset builder fails.  A table without one of the feature
    columns raises [KeyError] for an absent feature; with the features
    present, a table without rows raises the scaler's [ValueError]; with
    features and rows present, a table without the target column raises
    [KeyError] for the target; and a well-formed table with all columns and
    a single row raises the split's [ValueError], as its training partition
    would be empty. *)
Theorem dataset_builder_errors :
  forall data : DataFrame,
    ((exists n, In n features /\ get_column n data = None) ->
     exists m, In m features /\ get_column m data = None /\
               dataset_builder data = Raise (KeyError m)) /\
    ((forall n, In n features -> get_column n data <> None) ->
     (Station_ID data = [] ->
      dataset_builder data = Raise (ValueError "Found array with 0 sample(s)")) /\
     (Station_ID data <> [] -> get_column target data = None ->
      dataset_builder data = Raise (KeyError target)) /\
     (well_formed data -> get_column target data <> None ->
      length (Station_ID data) = 1%nat ->
      dataset_builder data =
      Raise (ValueError "the resulting train set will be empty"))).
Proof.
  intros data. split.
  - intros [n [Hn Gn]].
    destruct (select_absent features data n Hn Gn) as [m [Hm [Gm S]]].
    exists m. split; [exact Hm|]. split; [exact Gm|].
    unfold dataset_builder. rewrite S. reflexivity.
  - intros P. destruct (select_ok features data P) as [cols S].
    unfold dataset_builder. rewrite S. cbn [bind]. split; [|split].
    + intros E. unfold check_samples. rewrite E. reflexivity.
    + intros E Y. unfold check_samples.
      destruct (Station_ID data); [contradiction|]. cbn [bind].
      unfold column. rewrite Y. reflexivity.
    + intros W Y E. rewrite check_samples_ok by lia. cbn [bind].
      unfold column. destruct (get_column target data) as [ycol|] eqn:Ey;
        [|contradiction]. cbn [bind].
      pose proof (get_column_length target ycol data W Ey) as L.
      unfold train_test_split.
      rewrite !length_map, rows_of_length, transform_length, L, E.
      reflexivity.
Qed.

Lemma dataset_builder_errors_witness :
  dataset_builder one_row_table =
  Raise (ValueError "the resulting train set will be empty").
Proof.
  destruct (dataset_builder_errors one_row_table) as [_ H].
  assert (P : forall n, In n (target :: features) -> get_column n one_row_table <> None).
  { intros n Hn. unfold target, features in Hn. simpl in Hn.
    repeat (destruct Hn as [<-|Hn]; [discriminate|]). contradiction. }
  destruct H as [_ [_ H]]; [intros n Hn; apply P; now right|].
  apply H.
  - apply well_formedb_correct. reflexivity.
  - apply P. now left.
  - reflexivity.
Defined.

(** X10.  The shape of a built dataset.  For a table of [n] rows the
    training partition has [n - ceil(n / 5)] samples and the test partition
    [ceil(n / 5)], features and targets alike; every feature sample is one
    time step of fourteen values, in the order of the feature list: value
    [k] of sample [i] is the scaled cell of row [i] of feature column [k];
    every target sample is a single value; and there is one fitted feature
    scaler for each of the fourteen columns. *)
Theorem dataset_shape :
  forall (data : DataFrame) (ds : Dataset),
    dataset_builder data = Ok ds ->
    let n := length (Station_ID data) in
    length (X_train ds) = (n - n_test_of n)%nat /\
    length (X_test ds) = n_test_of n /\
    length (y_train ds) = (n - n_test_of n)%nat /\
    length (y_test ds) = n_test_of n /\
    length (scaler_X ds) = 14%nat /\
    (forall s, In s (X_train ds ++ X_test ds) ->
               exists row, s = [row] /\ length row = 14%nat) /\
    (forall s, In s (y_train ds ++ y_test ds) -> exists v, s = [v]) /\
    (forall i k name col,
        (i < n)%nat -> nth_error features k = Some name ->
        get_column name data = Some col ->
        exists row, nth_error (X_train ds ++ X_test ds) i = Some [row] /\
                    nth_error row k = Some (transform1 (fit col) (nth i col None))).
Proof.
  intros data ds H n.
  destruct (dataset_builder_result _ _ H) as [cols [ycol [S [Y [SX [SY T]]]]]].
  destruct (select_present _ _ _ S) as [Lc _].
  change (length features) with 14%nat in Lc.
  destruct (train_test_split_inv _ _ _ _ _ _ _ _ T) as [Ly Ln].
  destruct (train_test_split_app _ _ _ _ _ _ _ _ T) as [EX Ey].
  rewrite train_test_split_ok in T by assumption.
  rewrite length_map, rows_of_length in T, Ln. fold n in T, Ln.
  rewrite !length_map, rows_of_length in Ly. fold n in Ly.
  destruct (n_test_of_bounds n) as [B1 B2].
  rewrite <- EX, <- Ey.
  inversion T as [[T1 T2 T3 T4]]. clear T.
  repeat rewrite length_firstn. repeat rewrite length_skipn.
  rewrite !length_map, rows_of_length. fold n. rewrite Ly.
  split; [lia|]. split; [lia|]. split; [lia|]. split; [lia|].
  split; [rewrite SX, length_map; exact Lc|].
  split; [|split].
  - intros s Hs. apply in_map_iff in Hs. destruct Hs as [row [<- Hrow]].
    exists row. split; [reflexivity|].
    unfold rows_of in Hrow. apply in_map_iff in Hrow. destruct Hrow as [i [<- _]].
    now rewrite !length_map.
  - intros s Hs. apply in_map_iff in Hs. destruct Hs as [v [<- _]].
    exists v. reflexivity.
  - intros i k name col Hi Hk Hcol.
    eexists. split.
    + rewrite nth_error_map. unfold rows_of. rewrite nth_error_map.
      rewrite (nth_error_nth' _ 0%nat) by (rewrite length_seq; exact Hi).
      rewrite seq_nth by exact Hi. reflexivity.
    + rewrite !nth_error_map.
      assert (Ek : nth_error cols k = Some col).
      { clear - S Hk Hcol. revert k cols S Hk.
        generalize features. intros names.
        induction names as [|m names IH]; intros k cols S Hk;
          [destruct k; discriminate|].
        simpl in S. unfold column in S.
        destruct (get_column m data) as [c0|] eqn:E; [|discriminate].
        cbn [bind] in S. destruct (select names data) as [cs|e]; [|discriminate].
        cbn [bind] in S. inversion S; subst.
        destruct k as [|k]; simpl in Hk |- *.
        - inversion Hk; subst. congruence.
        - now apply IH. }
      rewrite Ek. cbn [option_map]. unfold transform.
      destruct (Nat.lt_ge_cases i (length col)) as [Hl|Hl].
      * rewrite (nth_indep _ None (transform1 (fit col) None))
          by (rewrite length_map; exact Hl).
        now rewrite map_nth.
      * rewrite !nth_overflow by (try rewrite length_map; exact Hl).
        reflexivity.
Qed.

Lemma dataset_shape_witness :
  exists ds, dataset_builder scenario_enriched = Ok ds /\
             length (X_train ds) = 8%nat /\ length (X_test ds) = 2%nat.
Proof.
  destruct (dataset_builder scenario_enriched) as [ds|e] eqn:E;
    [|vm_compute in E; discriminate E].
  exists ds. split; [reflexivity|].
  destruct (dataset_shape scenario_enriched ds E) as [A [B _]].
  split; [rewrite A | rewrite B]; vm_compute; reflexivity.
Defined.

Lemma dataset_builder_few_rows (data : DataFrame) :
  well_formed data ->
  (forall n, In n (target :: features) -> get_column n data <> None) ->
  (length (Station_ID data) <= 1)%nat ->
  exists msg, dataset_builder data = Raise (ValueError msg).
Proof.
  intros W P N. unfold dataset_builder.
  destruct (select_ok features data) as [cols ->]; [intros n Hn; apply P; now right|].
  cbn [bind]. unfold check_samples.
  destruct (Station_ID data) as [|k st] eqn:E; [eexists; reflexivity|].
  cbn [bind]. unfold column.
  destruct (get_column target data) as [ycol|] eqn:Y;
    [|exfalso; apply (P target); [now left | exact Y]].
  cbn [bind].
  pose proof (get_column_length target ycol data W Y) as L. rewrite E in L.
  destruct st; [|simpl in N; lia].
  unfold train_test_split.
  rewrite !length_map, rows_of_length, transform_length, L.
  eexists. reflexivity.
Qed.

(** X11.  The two cells composed.  A well-formed table with the five
    pollutant columns, on which the index reset does not raise, goes through
    the feature-engineering stage; with at least two rows the dataset
    builder then returns a dataset on the stage's output, with one sample
    for each row of the input; with fewer than two rows it raises
    [ValueError]. *)
Theorem stage_then_dataset_builder :
  forall raw : DataFrame,
    well_formed raw -> has_core_features raw -> reset_index raw = Ok tt ->
    exists out,
      feature_engineering raw = Ok out /\
      ((2 <= length (Station_ID raw))%nat ->
       exists ds, dataset_builder out = Ok ds /\
                  (length (X_train ds) + length (X_test ds) =
                   length (Station_ID raw))%nat /\
                  (length (y_train ds) + length (y_test ds) =
                   length (Station_ID raw))%nat) /\
      ((length (Station_ID raw) <= 1)%nat ->
       exists msg, dataset_builder out = Raise (ValueError msg)).
Proof.
  intros raw W C R.
  destruct (feature_engineering_completes raw C R) as [out [FE [_ P]]].
  destruct (feature_engineering_shape raw out FE) as [St Wo].
  specialize (Wo W).
  exists out. split; [exact FE|]. rewrite <- St. split.
  - intros N. destruct (dataset_builder_ok out Wo P N) as [ds H].
    exists ds. split; [exact H|].
    destruct (dataset_builder_result _ _ H) as [cols [ycol [_ [Y [_ [_ T]]]]]].
    destruct (train_test_split_inv _ _ _ _ _ _ _ _ T) as [Ly _].
    destruct (train_test_split_app _ _ _ _ _ _ _ _ T) as [EX Ey].
    apply (f_equal (@length _)) in EX. apply (f_equal (@length _)) in Ey.
    rewrite length_app in EX, Ey.
    rewrite length_map, rows_of_length in EX.
    rewrite !length_map, rows_of_length in Ly.
    rewrite length_map, Ly in Ey. lia.
  - intros N. now apply dataset_builder_few_rows.
Qed.

Lemma stage_then_dataset_builder_witness :
  exists out ds, feature_engineering scenario_table = Ok out /\
                 dataset_builder out = Ok ds.
Proof.
  destruct (stage_then_dataset_builder scenario_table) as [out [FE [H _]]].
  - apply well_formedb_correct. reflexivity.
  - intros f Hf. unfold core_features in Hf. simpl in Hf.
    repeat (destruct Hf as [<-|Hf]; [discriminate|]). contradiction.
  - reflexivity.
  - destruct H as [ds [H _]]; [simpl; lia|].
    exists out, ds. split; [exact FE | exact H].
Defined.

(** ** The fitted scalers *)




Lemma nanreduce_None (op : Q -> Q -> Q) (x : Series) :
  nanreduce op x = None <-> Forall (fun v => v = None) x.
Proof.
  induction x as [|v x IH]; simpl.
  - split; [constructor | reflexivity].
  - destruct v as [a|].
    + split.
      * destruct (nanreduce op x); discriminate.
      * intros H. inversion H; discriminate.
    + rewrite IH. split; [now constructor | intros H; now inversion H].
Qed.




(** X13.  Scaling a column with its own fitted scaler neither fills nor
    creates a missing cell: the scaled column has the length of the column,
    and a cell of it is missing exactly where the cell of the column is.
    On a column without any known cell the fitted scaler has no minimum and
    no maximum and every scaled cell is missing. *)
Theorem scaling_keeps_missing_cells :
  forall x : Series,
    length (snd (fit_transform x)) = length x /\
    (forall i, nth_error (snd (fit_transform x)) i = Some None <->
               nth_error x i = Some None) /\
    (Forall (fun v => v = None) x ->
     data_min_ (fst (fit_transform x)) = None /\
     data_max_ (fst (fit_transform x)) = None /\
     Forall (fun v => v = None) (snd (fit_transform x))).
Proof.
  intros x. unfold fit_transform. cbn [fst snd].
  split; [apply transform_length|]. split.
  - intros i. unfold transform. rewrite nth_error_map.
    destruct (nth_error x i) as [[q|]|] eqn:E; cbn [option_map].
    + pose proof (transform_in_unit x q (nth_error_In _ _ E)) as H.
      destruct (transform1 (fit x) (Some q)); [|contradiction].
      split; discriminate.
    + split; reflexivity.
    + split; discriminate.
  - intros H. split; [|split].
    + now apply nanreduce_None.
    + now apply nanreduce_None.
    + unfold transform. apply Forall_forall. intros v Hv.
      apply in_map_iff in Hv. destruct Hv as [u [<- Hu]].
      rewrite Forall_forall in H. now rewrite (H u Hu).
Qed.

Lemma scaling_keeps_missing_cells_witness :
  Forall (fun v : value => v = None) [None; None] /\
  Forall (fun v => v = None) (snd (fit_transform [None; None])).
Proof.
  assert (H : Forall (fun v : value => v = None) [None; None])
    by (repeat constructor).
  split; [exact H|].
  now apply (scaling_keeps_missing_cells [None; None]).
Defined.

(** * The fill passes, cell by cell *)

Lemma nth_error_round_missing (x : Series) (i : nat) :
  nth_error (round_series x) i = Some None <-> nth_error x i = Some None.
Proof.
  rewrite nth_error_round_series.
  destruct (nth_error x i) as [[q|]|]; cbn [option_map];
    split; intros H; try discriminate H; reflexivity.
Qed.

Lemma ffill_from_missing (x : Series) (last : value) (i : nat) :
  nth_error (ffill_from last x) i = Some None <->
  last = None /\ (i < length x)%nat /\ Forall (fun v => v = None) (firstn (S i) x).
Proof.
  revert last i. induction x as [|[q|] x IH]; intros last i.
  - simpl. split; [destruct i; discriminate | intros [_ [H _]]; lia].
  - cbn [ffill_from]. destruct i as [|i]; cbn [nth_error].
    + split; [discriminate|]. intros [_ [_ H]]. inversion H; discriminate.
    + rewrite IH. split; [intros [H _]; discriminate|].
      intros [_ [_ H]]. inversion H; discriminate.
  - cbn [ffill_from]. destruct i as [|i]; cbn [nth_error].
    + split.
      * intros H. inversion H. split; [reflexivity|].
        split; [simpl; lia | repeat constructor].
      * intros [-> _]. reflexivity.
    + rewrite IH. cbn [length]. rewrite (firstn_cons (S i)).
      split; intros [H1 [H2 H3]]; (split; [exact H1|]); (split; [lia|]).
      * now constructor.
      * now inversion H3.
Qed.

Lemma hd_bfill_missing (x : Series) :
  hd None (bfill x) = None <-> Forall (fun v => v = None) x.
Proof.
  induction x as [|[q|] x IH]; simpl.
  - split; [constructor | reflexivity].
  - split; [discriminate | intros H; inversion H; discriminate].
  - rewrite IH. split; [now constructor | intros H; now inversion H].
Qed.

Lemma bfill_missing (x : Series) (i : nat) :
  nth_error (bfill x) i = Some None <->
  (i < length x)%nat /\ Forall (fun v => v = None) (skipn i x).
Proof.
  revert i. induction x as [|v x IH]; intros i.
  - simpl. split; [destruct i; discriminate | intros [H _]; lia].
  - destruct i as [|i].
    + cbn [skipn length]. destruct v as [q|]; cbn [bfill nth_error].
      * split; [discriminate | intros [_ H]; inversion H; discriminate].
      * split.
        -- intros H. split; [lia|]. constructor; [reflexivity|].
           apply hd_bfill_missing. congruence.
        -- intros [_ H]. inversion H; subst. f_equal. now apply hd_bfill_missing.
    + cbn [skipn length].
      assert (E : nth_error (bfill (v :: x)) (S i) = nth_error (bfill x) i)
        by (destruct v; reflexivity).
      rewrite E, IH. split; intros [H1 H2]; (split; [lia | exact H2]).
Qed.

Lemma nth_error_lt (A : Type) (l : list A) (i : nat) (a : A) :
  nth_error l i = Some a -> (i < length l)%nat.
Proof. intros H. apply nth_error_Some. rewrite H. discriminate. Qed.

Lemma no_missing_cells (x : Series) :
  (forall i, nth_error x i <> Some None) -> Forall (fun v => v <> None) x.
Proof.
  intros H. apply Forall_forall. intros v Hv ->.
  destruct (In_nth_error _ _ Hv) as [i Hi]. now apply (H i).
Qed.

Lemma all_missing_skipn (x : Series) (i : nat) :
  Forall (fun v => v = None) x -> Forall (fun v => v = None) (skipn i x).
Proof.
  intros H. rewrite Forall_forall in *. intros v Hv. apply H.
  rewrite <- (firstn_skipn i x). apply in_or_app. now right.
Qed.

(** Backward fill, rounding, forward fill and rounding again, as the fill
    passes apply them to a derived column. *)
Lemma fills_of_derived (x : Series) :
  let y := round_series (round_series (ffill (round_series (bfill x)))) in
  length y = length x /\
  ((exists v, In (Some v) x) -> Forall (fun v => v <> None) y) /\
  (Forall (fun v => v = None) x -> Forall (fun v => v = None) y).
Proof.
  cbv zeta. split; [|split].
  - unfold ffill. now rewrite !round_series_length, ffill_from_length,
      round_series_length, bfill_length.
  - intros [v Hv]. apply no_missing_cells. intros i Hi.
    rewrite !nth_error_round_missing in Hi. unfold ffill in Hi.
    apply ffill_from_missing in Hi. destruct Hi as [_ [_ Hi]].
    inversion Hi as [|u l Hu _ E].
    + destruct (round_series (bfill x)) eqn:B; [|discriminate].
      apply (f_equal (@length _)) in B.
      rewrite round_series_length, bfill_length in B.
      destruct x; [contradiction | discriminate].
    + destruct (round_series (bfill x)) as [|u' l'] eqn:B; [discriminate|].
      inversion E; subst.
      assert (H0 : nth_error (round_series (bfill x)) 0 = Some None)
        by now rewrite B.
      rewrite nth_error_round_missing, bfill_missing in H0.
      destruct H0 as [_ H0]. cbn [skipn] in H0.
      rewrite Forall_forall in H0. discriminate (H0 _ Hv).
  - intros H. apply Forall_forall. intros v Hv.
    destruct (In_nth_error _ _ Hv) as [i Hi].
    assert (L : (i < length x)%nat).
    { pose proof (nth_error_lt _ _ _ _ Hi) as Hl. unfold ffill in Hl.
      now rewrite !round_series_length, ffill_from_length,
        round_series_length, bfill_length in Hl. }
    assert (M : nth_error (round_series (round_series (ffill (round_series (bfill x))))) i
                = Some None).
    { rewrite !nth_error_round_missing. unfold ffill. apply ffill_from_missing.
      split; [reflexivity|].
      split; [now rewrite round_series_length, bfill_length|].
      apply Forall_forall. intros u Hu.
      destruct (In_nth_error _ _ Hu) as [j Hj].
      assert (Lj : (j < length x)%nat).
      { pose proof (nth_error_lt _ _ _ _ Hj) as Hl.
        rewrite length_firstn, round_series_length, bfill_length in Hl. lia. }
      apply nth_error_firstn_known in Hj.
      assert (Mj : nth_error (round_series (bfill x)) j = Some None).
      { rewrite nth_error_round_missing, bfill_missing.
        split; [exact Lj | now apply all_missing_skipn]. }
      pose proof (eq_trans (eq_sym Hj) Mj) as Z. now inversion Z. }
    pose proof (eq_trans (eq_sym Hi) M) as Z. now inversion Z.
Qed.

(** Forward fill and the two roundings, as the fill passes apply them to
    every other column. *)
Lemma fills_of_other (x : Series) :
  let y := round_series (round_series (ffill x)) in
  length y = length x /\
  forall i, nth_error y i = Some None <->
            (i < length x)%nat /\ Forall (fun v => v = None) (firstn (S i) x).
Proof.
  cbv zeta. split.
  - unfold ffill. now rewrite !round_series_length, ffill_from_length.
  - intros i. rewrite !nth_error_round_missing. unfold ffill.
    rewrite ffill_from_missing. split; [intros [_ H]; exact H | intros H; now split].
Qed.

Lemma fill_passes_other (d out : DataFrame) (c : string) :
  fill_passes d = Ok out ->
  (forall g, In g core_features -> c <> lag_name g /\ c <> rolling_name g) ->
  get_column c out =
  option_map (fun x => round_series (round_series (ffill x))) (get_column c d).
Proof.
  intros F Hc. destruct (fill_passes_result _ _ F) as [d7 [H7 ->]].
  apply step7_result in H7.
  unfold step9, step8. rewrite !get_map_columns.
  rewrite (backfill_untouched core_features d d7 c Hc H7).
  now destruct (get_column c d).
Qed.

Lemma fill_passes_derived (d out : DataFrame) (f c : string) (x : Series) :
  fill_passes d = Ok out -> In f core_features -> get_column f d <> None ->
  c = lag_name f \/ c = rolling_name f -> get_column c d = Some x ->
  get_column c out =
  Some (round_series (round_series (ffill (round_series (bfill x))))).
Proof.
  intros F Hf Hp Hc Hx. destruct (fill_passes_result _ _ F) as [d7 [H7 ->]].
  apply step7_result in H7.
  unfold step9, step8. rewrite !get_map_columns.
  rewrite (backfill_derived core_features core_features_independent core_features
             d d7 f c x (incl_refl _) (proj1 core_features_independent) Hf H7 Hp Hc Hx).
  reflexivity.
Qed.

(** X14.  Which cells the fill passes (steps 7 to 9) leave missing.  In a
    rolling-mean or lag-1 column of a pollutant the table has, no cell is
    left missing when the column had a known cell, and every cell stays
    missing when it had none.  In every other column, the pollutants
    included, a cell is left missing exactly when it and all cells above it
    were missing: only a forward fill is applied to them. *)
Theorem fill_passes_missing_cells :
  forall d out : DataFrame,
    fill_passes d = Ok out ->
    (forall f c x,
        In f core_features -> get_column f d <> None ->
        c = lag_name f \/ c = rolling_name f -> get_column c d = Some x ->
        exists y, get_column c out = Some y /\ length y = length x /\
                  ((exists v, In (Some v) x) -> Forall (fun v => v <> None) y) /\
                  (Forall (fun v => v = None) x -> Forall (fun v => v = None) y)) /\
    (forall c x,
        (forall g, In g core_features -> c <> lag_name g /\ c <> rolling_name g) ->
        get_column c d = Some x ->
        exists y, get_column c out = Some y /\ length y = length x /\
                  forall i, nth_error y i = Some None <->
                            (i < length x)%nat /\
                            Forall (fun v => v = None) (firstn (S i) x)).
Proof.
  intros d out F. split.
  - intros f c x Hf Hp Hc Hx.
    eexists. split; [exact (fill_passes_derived d out f c x F Hf Hp Hc Hx)|].
    apply fills_of_derived.
  - intros c x Hc Hx.
    eexists. split; [rewrite (fill_passes_other d out c F Hc), Hx; reflexivity|].
    apply fills_of_other.
Qed.

Lemma fill_passes_missing_cells_witness :
  exists out y,
    fill_passes (match derive leading_gap_table with
                 | Ok d => d
                 | Raise _ => leading_gap_table
                 end) = Ok out /\
    get_column "NH3 (µg/m³)" out = Some y /\ nth_error y 0 = Some None.
Proof.
  set (d := match derive leading_gap_table with
            | Ok d => d
            | Raise _ => leading_gap_table
            end).
  assert (F : exists out, fill_passes d = Ok out)
    by (vm_compute; eexists; reflexivity).
  destruct F as [out F].
  destruct (fill_passes_missing_cells d out F) as [_ H].
  destruct (H "NH3 (µg/m³)"%string [None; Some (4645 # 100)]) as [y [Hy [_ Hi]]].
  - intros g Hg. unfold core_features in Hg. simpl in Hg.
    repeat (destruct Hg as [<-|Hg]; [split; discriminate|]). contradiction.
  - vm_compute. reflexivity.
  - exists out, y. split; [exact F|]. split; [exact Hy|].
    apply Hi. split; [simpl; lia | repeat constructor].
Defined.

(** * When the stage leaves no missing value *)

Lemma interpolate_no_missing (x : Series) (q : Q) :
  In (Some q) x -> Forall (fun v => v <> None) (interpolate x).
Proof.
  intros H. unfold interpolate. apply fill_interp_no_missing.
  intros E. exact (proj1 (valid_points_nil_iff x 0) E q H).
Qed.

Lemma In_group_values (k : Z) (st : list Z) (col : Series) (r : nat) (v : value) :
  nth_error st r = Some k -> nth_error col r = Some v ->
  In v (group_values k st col).
Proof.
  revert col r. induction st as [|s st IH]; intros col r Hs Hc;
    [destruct r; discriminate|].
  destruct col as [|u col]; [destruct r; discriminate|].
  destruct r as [|r]; simpl in Hs, Hc.
  - inversion Hs; inversion Hc; subst. simpl. rewrite Z.eqb_refl. now left.
  - simpl. destruct (s =? k)%Z; [right|]; now apply (IH col r).
Qed.

Lemma nth_error_no_missing (x : Series) (i : nat) :
  Forall (fun v => v <> None) x -> (i < length x)%nat ->
  exists q, nth_error x i = Some (Some q).
Proof.
  intros H Hi. destruct (nth_error x i) as [[q|]|] eqn:E.
  - now exists q.
  - rewrite Forall_forall in H. exfalso. apply (H None); [|reflexivity].
    now apply (nth_error_In x i).
  - apply nth_error_None in E. lia.
Qed.

Lemma first_known_no_missing (x y : Series) (q : Q) :
  nth_error x 0 = Some (Some q) ->
  (forall i, nth_error y i = Some None <->
             (i < length x)%nat /\ Forall (fun v => v = None) (firstn (S i) x)) ->
  Forall (fun v => v <> None) y.
Proof.
  intros H0 Hy. apply no_missing_cells. intros i Hi.
  apply Hy in Hi. destruct Hi as [_ Hi].
  destruct x as [|u x]; [discriminate|]. simpl in H0. inversion H0; subst.
  rewrite firstn_cons in Hi. inversion Hi; discriminate.
Qed.

Section FirstStation.
Variables (raw d out : DataFrame) (k : Z) (rest : list Z).
Hypothesis raw_wf : well_formed raw.
Hypothesis raw_sorted : ascending (Station_ID raw) = true.
Hypothesis raw_first : Station_ID raw = k :: k :: rest.
Hypothesis Hd : derive raw = Ok d.
Hypothesis Hout : fill_passes d = Ok out.

Variables (f : string) (col : Series) (r : nat) (v : Q).
Hypothesis f_core : In f core_features.
Hypothesis f_col : get_column f raw = Some col.
Hypothesis r_first : nth_error (Station_ID raw) r = Some k.
Hypothesis r_known : nth_error col r = Some (Some v).

(** After step 5 the first two cells of the pollutant column are known. *)
Lemma first_station_filled :
  exists cd a b,
    get_column f d = Some cd /\ length cd = length (Station_ID raw) /\
    nth_error cd 0 = Some (Some a) /\ nth_error cd 1 = Some (Some b).
Proof.
  pose proof (get_column_length _ _ _ raw_wf f_col) as Lc.
  set (G := group_values k (Station_ID raw) col).
  assert (LG : (2 <= length G)%nat).
  { unfold G. rewrite group_values_length by exact Lc.
    rewrite raw_first. simpl. destruct (Z.eq_dec k k); [lia | congruence]. }
  assert (NG : Forall (fun u => u <> None) (round_series (interpolate G))).
  { assert (N : Forall (fun u => u <> None) (interpolate G))
      by (apply (interpolate_no_missing G v); now apply (In_group_values k _ _ r)).
    rewrite Forall_forall in *. intros u Hu.
    unfold round_series in Hu. apply in_map_iff in Hu. destruct Hu as [w [<- Hw]].
    specialize (N w Hw). destruct w; [discriminate | contradiction]. }
  assert (LR : length (round_series (interpolate G)) = length G)
    by now rewrite round_series_length, interpolate_length.
  destruct (nth_error_no_missing _ 0 NG ltac:(lia)) as [a Ha].
  destruct (nth_error_no_missing _ 1 NG ltac:(lia)) as [b Hb].
  pose proof (step5_cell raw d f col 0 k raw_wf (ascending_Sorted _ raw_sorted) Hd
                f_core f_col) as C0.
  pose proof (step5_cell raw d f col 1 k raw_wf (ascending_Sorted _ raw_sorted) Hd
                f_core f_col) as C1.
  rewrite raw_first in C0 at 1. rewrite raw_first in C1 at 1.
  specialize (C0 eq_refl). specialize (C1 eq_refl).
  assert (R0 : group_rank (Station_ID raw) 0 = 0%nat) by reflexivity.
  assert (R1 : group_rank (Station_ID raw) 1 = 1%nat).
  { rewrite raw_first. unfold group_rank. simpl.
    destruct (Z.eq_dec k k); [reflexivity | congruence]. }
  rewrite R0 in C0. rewrite R1 in C1. fold G in C0, C1.
  unfold cell in C0, C1.
  destruct (get_column f d) as [cd|] eqn:E.
  - exists cd, a, b. split; [reflexivity|].
    split; [|split; [now rewrite C0 | now rewrite C1]].
    rewrite <- (derived_station raw d Hd).
    apply (get_column_length f); [now apply (derived_well_formed raw) | exact E].
  - rewrite Ha in C0. discriminate C0.
Qed.

(** The three columns of the pollutant have a known cell before the fill
    passes, and the pollutant column has its first cell known. *)
Lemma first_station_derived :
  exists cd a x y vx vy,
    get_column f d = Some cd /\ nth_error cd 0 = Some (Some a) /\
    get_column (rolling_name f) d = Some x /\ In (Some vx) x /\
    get_column (lag_name f) d = Some y /\ In (Some vy) y.
Proof.
  destruct first_station_filled as [cd [a [b [E [L [H0 H1]]]]]].
  pose proof (derived_station raw d Hd) as St.
  set (G := group_values k (Station_ID raw) cd).
  assert (LG : (2 <= length G)%nat).
  { unfold G. rewrite group_values_length by exact L.
    rewrite raw_first. simpl. destruct (Z.eq_dec k k); [lia | congruence]. }
  assert (G0 : exists tl, G = Some a :: tl).
  { unfold G. rewrite raw_first. destruct cd as [|u cd]; [discriminate|].
    simpl in H0. inversion H0; subst. simpl. rewrite Z.eqb_refl. eexists. reflexivity. }
  destruct G0 as [tl G0].
  assert (Ls : (1 < length (Station_ID raw))%nat) by (rewrite raw_first; simpl; lia).
  assert (N0 : nth 0 (Station_ID raw) 0%Z = k) by now rewrite raw_first.
  assert (N1 : nth 1 (Station_ID raw) 0%Z = k) by now rewrite raw_first.
  assert (R0 : group_rank (Station_ID raw) 0 = 0%nat) by reflexivity.
  assert (R1 : group_rank (Station_ID raw) 1 = 1%nat).
  { rewrite raw_first. unfold group_rank. simpl.
    destruct (Z.eq_dec k k); [reflexivity | congruence]. }
  destruct (rolling_mean_spec 7 G ltac:(lia) 0 ltac:(lia)) as [m [Hm Vm]].
  assert (Km : exists vx, m = Some vx).
  { rewrite G0 in Vm. unfold trailing_window in Vm. simpl in Vm.
    destruct m as [vx|]; [now exists vx | contradiction]. }
  destruct Km as [vx ->].
  exists cd, a.
  exists (round_series (groupby_transform (rolling_mean 7 1) (Station_ID d) cd)).
  exists (round_series (groupby_transform shift1 (Station_ID d) cd)).
  exists (round4 vx), (round4 a).
  split; [exact E|]. split; [exact H0|].
  split; [exact (derived_rolling raw d Hd f cd f_core E)|].
  split; [|split; [exact (derived_lag raw d Hd f cd f_core E)|]].
  - rewrite St. apply (nth_error_In _ 0).
    rewrite nth_error_round_series, nth_error_groupby_transform by lia.
    rewrite N0, R0. fold G. rewrite (nth_error_nth _ _ _ Hm). reflexivity.
  - rewrite St. apply (nth_error_In _ 1).
    rewrite nth_error_round_series, nth_error_groupby_transform by exact Ls.
    rewrite N1, R1. fold G. rewrite nth_shift1_S by lia.
    rewrite G0. reflexivity.
Qed.

Lemma first_station_no_missing (c : string) :
  In c (derived_columns f) ->
  exists y, get_column c out = Some y /\ Forall (fun u => u <> None) y.
Proof.
  intros Hc.
  destruct first_station_derived as [cd [a [x [y [vx [vy [E [H0 [Ex [Hx [Ey Hy]]]]]]]]]]].
  assert (Pf : get_column f d <> None) by (rewrite E; discriminate).
  destruct Hc as [<-|[<-|[<-|[]]]].
  - assert (Hn : forall g, In g core_features ->
                           f <> lag_name g /\ f <> rolling_name g).
    { intros g Hg. destruct core_features_independent as [_ H].
      destruct (H g f Hg f_core) as [A [B _]]. split; congruence. }
    eexists. split; [rewrite (fill_passes_other d out f Hout Hn), E; reflexivity|].
    apply (first_known_no_missing cd _ a H0). apply fills_of_other.
  - eexists.
    split; [exact (fill_passes_derived d out f _ x Hout f_core Pf (or_intror eq_refl) Ex)|].
    apply fills_of_derived. now exists vx.
  - eexists.
    split; [exact (fill_passes_derived d out f _ y Hout f_core Pf (or_introl eq_refl) Ey)|].
    apply fills_of_derived. now exists vy.
Qed.
End FirstStation.

(** X15.  A condition under which the stage does leave no missing value in
    the columns of a pollutant.  On a well-formed table with the stations in
    ascending order whose first station has at least two rows and, in one of
    them, a known reading of the pollutant, the pollutant column, its
    rolling-mean column and its lag-1 column have no missing cell after the
    stage. *)
Theorem stage_fills_pollutant :
  forall (raw out : DataFrame) (k : Z) (rest : list Z)
         (f : string) (col : Series) (r : nat) (v : Q),
    well_formed raw -> ascending (Station_ID raw) = true ->
    Station_ID raw = k :: k :: rest ->
    feature_engineering raw = Ok out ->
    In f core_features -> get_column f raw = Some col ->
    nth_error (Station_ID raw) r = Some k -> nth_error col r = Some (Some v) ->
    forall c, In c (derived_columns f) ->
      exists y, get_column c out = Some y /\ Forall (fun u => u <> None) y.
Proof.
  intros raw out k rest f col r v W A S FE Hf Hc Hr Hv c Hin.
  destruct (feature_engineering_result _ _ FE) as [d [D F]].
  exact (first_station_no_missing raw d out k rest W A S D F f col r v Hf Hc Hr Hv c Hin).
Qed.

Lemma stage_fills_pollutant_witness :
  exists out y, feature_engineering scenario_table = Ok out /\
                get_column "Ozone (µg/m³)_lag_1" out = Some y /\
                Forall (fun u => u <> None) y.
Proof.
  destruct (feature_engineering scenario_table) as [out|e] eqn:FE;
    [|vm_compute in FE; discriminate FE].
  assert (W : well_formed scenario_table)
    by (apply well_formedb_correct; reflexivity).
  assert (Hf : In "Ozone (µg/m³)"%string core_features)
    by (unfold core_features; simpl; tauto).
  destruct (stage_fills_pollutant scenario_table out 1 (repeat 1%Z 8)
              "Ozone (µg/m³)" scenario_series 0 170 W eq_refl eq_refl FE Hf
              eq_refl eq_refl eq_refl "Ozone (µg/m³)_lag_1"%string) as [y [Hy N]].
  - right. right. left. reflexivity.
  - exists out, y. split; [reflexivity|]. split; [exact Hy | exact N].
Defined.



(** * The evaluation cell *)

Lemma all_finite_Some (x : Series) (qs : list Q) :
  all_finite x = Some qs <-> x = map Some qs.
Proof.
  revert qs. induction x as [|[q|] x IH]; intros qs; simpl.
  - split; [intros H; now inversion H | destruct qs; [reflexivity | discriminate]].
  - destruct (all_finite x) as [l|]; simpl.
    + split.
      * intros H. inversion H; subst. simpl. f_equal. now apply IH.
      * destruct qs as [|q' qs]; [discriminate|]. simpl. intros H. inversion H; subst.
        f_equal. f_equal. assert (E : Some l = Some qs) by now apply IH.
        now inversion E.
    + split; [discriminate|]. destruct qs as [|q' qs]; [discriminate|].
      simpl. intros H. inversion H; subst.
      assert (E : @None (list Q) = Some qs) by now apply IH. discriminate E.
  - split; [discriminate | destruct qs; discriminate].
Qed.

Lemma all_finite_None (x : Series) : all_finite x = None <-> In None x.
Proof.
  induction x as [|[q|] x IH]; simpl.
  - split; [discriminate | contradiction].
  - destruct (all_finite x); simpl.
    + split; [discriminate|]. intros [H|H]; [discriminate|].
      now apply IH in H.
    + split; [intros _; right; now apply IH | reflexivity].
  - split; [now left | reflexivity].
Qed.

Lemma check_array_Ok (x : Series) (qs : list Q) :
  check_array x = Ok qs <-> x = map Some qs /\ qs <> [].
Proof.
  unfold check_array. destruct (all_finite x) as [[|q l]|] eqn:E.
  - split; [discriminate|]. intros [H N]. apply all_finite_Some in H.
    rewrite H in E. inversion E. congruence.
  - apply all_finite_Some in E. split.
    + intros H. inversion H; subst. split; [reflexivity | discriminate].
    + intros [H _]. rewrite E in H. f_equal.
      clear - H. revert H. generalize (q :: l). intros a. revert qs.
      induction a as [|u a IH]; intros [|v qs] H; try discriminate; [reflexivity|].
      simpl in H. inversion H; subst. f_equal. now apply IH.
  - split; [discriminate|]. intros [H _]. apply all_finite_Some in H. congruence.
Qed.

Lemma check_array_Raise (x : Series) (e : error) :
  check_array x = Raise e -> exists msg, e = ValueError msg.
Proof.
  unfold check_array. destruct (all_finite x) as [[|q l]|]; intros H;
    inversion H; eexists; reflexivity.
Qed.

Lemma check_reg_targets_Ok (y_true y_pred : list (list value)) (t p : list Q) :
  check_reg_targets y_true y_pred = Ok (t, p) <->
  length y_true = length y_pred /\ t <> [] /\
  map (hd None) y_true = map Some t /\ map (hd None) y_pred = map Some p.
Proof.
  unfold check_reg_targets.
  destruct (Nat.eqb_spec (length y_true) (length y_pred)) as [L|L]; cbn [negb].
  - destruct (check_array (map (hd None) y_true)) as [t'|e] eqn:Et; cbn [bind].
    + apply check_array_Ok in Et. destruct Et as [Et Nt].
      destruct (check_array (map (hd None) y_pred)) as [p'|e] eqn:Ep; cbn [bind].
      * apply check_array_Ok in Ep. destruct Ep as [Ep Np]. split.
        -- intros H. inversion H; subst. auto.
        -- intros [_ [_ [Ht Hp]]]. f_equal. f_equal.
           ++ rewrite Et in Ht. clear - Ht. revert t Ht.
              induction t' as [|u a IH]; intros [|v qs] H; try discriminate;
                [reflexivity|].
              simpl in H. inversion H; subst. f_equal. now apply IH.
           ++ rewrite Ep in Hp. clear - Hp. revert p Hp.
              induction p' as [|u a IH]; intros [|v qs] H; try discriminate;
                [reflexivity|].
              simpl in H. inversion H; subst. f_equal. now apply IH.
      * split; [discriminate|]. intros [_ [Nt' [Ht Hp]]].
        assert (Z : check_array (map (hd None) y_pred) = Ok p).
        { apply check_array_Ok. split; [exact Hp|]. intros ->.
          apply (f_equal (@length _)) in Hp. apply (f_equal (@length _)) in Ht.
          rewrite !length_map in Hp, Ht. simpl in Hp.
          destruct t; [congruence|]. simpl in Ht. unfold value in *. lia. }
        congruence.
    + split; [discriminate|]. intros [_ [Nt [Ht _]]].
      assert (Z : check_array (map (hd None) y_true) = Ok t)
        by (apply check_array_Ok; now split).
      congruence.
  - split; [discriminate | intros [H _]; contradiction].
Qed.

Lemma check_reg_targets_Raise (y_true y_pred : list (list value)) (e : error) :
  check_reg_targets y_true y_pred = Raise e -> exists msg, e = ValueError msg.
Proof.
  unfold check_reg_targets.
  destruct (negb (length y_true =? length y_pred)%nat);
    [intros H; inversion H; eexists; reflexivity|].
  destruct (check_array (map (hd None) y_true)) as [t|e1] eqn:Et; cbn [bind].
  - destruct (check_array (map (hd None) y_pred)) as [p|e2] eqn:Ep; cbn [bind].
    + discriminate.
    + intros H. inversion H; subst. now apply (check_array_Raise _ _ Ep).
  - intros H. inversion H; subst. now apply (check_array_Raise _ _ Et).
Qed.

Lemma check_reg_targets_lengths (y_true y_pred : list (list value)) (t p : list Q) :
  check_reg_targets y_true y_pred = Ok (t, p) ->
  length t = length y_true /\ length p = length y_true /\ (1 <= length y_true)%nat.
Proof.
  intros H. apply check_reg_targets_Ok in H. destruct H as [L [N [Ht Hp]]].
  apply (f_equal (@length _)) in Ht. apply (f_equal (@length _)) in Hp.
  rewrite !length_map in Ht, Hp. unfold value in *.
  split; [lia|]. split; [lia|]. destruct t; [congruence | simpl in Ht; lia].
Qed.

(** The two arrays have as many samples as each other, at least one, and
    no NaN. *)
Lemma check_reg_targets_accepts (y_true y_pred : list (list value)) :
  (exists tp, check_reg_targets y_true y_pred = Ok tp) <->
  length y_true = length y_pred /\ y_true <> [] /\
  Forall (fun s => hd None s <> None) y_true /\
  Forall (fun s => hd None s <> None) y_pred.
Proof.
  assert (F : forall y : list (list value),
             Forall (fun s => hd None s <> None) y <->
             exists qs, map (hd None) y = map Some qs).
  { intros y. induction y as [|s y IH].
    - split; [exists []; reflexivity | constructor].
    - split.
      + intros H. inversion H as [|? ? Hs Hy]; subst.
        apply IH in Hy. destruct Hy as [qs E].
        destruct (hd None s) as [q|] eqn:Es; [|contradiction].
        exists (q :: qs). simpl. now rewrite Es, E.
      + intros [[|q qs] E]; [discriminate|]. simpl in E. inversion E as [[Es Ey]].
        constructor; [rewrite Es; discriminate | apply IH; now exists qs]. }
  split.
  - intros [[t p] H]. apply check_reg_targets_Ok in H.
    destruct H as [L [N [Ht Hp]]].
    split; [exact L|]. split; [intros ->; destruct t; [congruence | discriminate]|].
    split; apply F; eexists; eassumption.
  - intros [L [N [Ht Hp]]]. apply F in Ht. apply F in Hp.
    destruct Ht as [t Ht]. destruct Hp as [p Hp]. exists (t, p).
    apply check_reg_targets_Ok. split; [exact L|]. split; [|now split].
    intros ->. destruct y_true; [congruence | discriminate].
Qed.

(** X17.  The three metrics accept the same inputs: each returns a score if
    and only if the two arrays have the same number of samples, at least
    one, and hold no NaN; on every other input each raises [ValueError]. *)
Theorem metrics_accept_iff :
  forall y_true y_pred : list (list value),
    let accepted :=
      length y_true = length y_pred /\ y_true <> [] /\
      Forall (fun s => hd None s <> None) y_true /\
      Forall (fun s => hd None s <> None) y_pred in
    ((exists r, r2_score y_true y_pred = Ok r) <-> accepted) /\
    ((exists a, mean_absolute_error y_true y_pred = Ok a) <-> accepted) /\
    ((exists s, mean_squared_error y_true y_pred = Ok s) <-> accepted) /\
    (forall e, r2_score y_true y_pred = Raise e \/
               mean_absolute_error y_true y_pred = Raise e \/
               mean_squared_error y_true y_pred = Raise e ->
               exists msg, e = ValueError msg).
Proof.
  intros y_true y_pred accepted.
  pose proof (check_reg_targets_accepts y_true y_pred) as A. fold accepted in A.
  pose proof (check_reg_targets_Raise y_true y_pred) as R.
  unfold r2_score, mean_absolute_error, mean_squared_error.
  destruct (check_reg_targets y_true y_pred) as [[t p]|e0]; cbn [bind fst snd].
  - assert (Acc : accepted) by (apply A; eexists; reflexivity).
    split; [split; [intros _; exact Acc|]|].
    { intros _. destruct (length p <? 2)%nat; eexists; reflexivity. }
    split; [split; [intros _; exact Acc | intros _; eexists; reflexivity]|].
    split; [split; [intros _; exact Acc | intros _; eexists; reflexivity]|].
    intros e [H|[H|H]]; [|discriminate H | discriminate H].
    destruct (length p <? 2)%nat; discriminate H.
  - assert (Rej : ~ accepted) by (intros H; apply A in H; destruct H; discriminate).
    split; [split; [intros [r H]; discriminate H | intros H; contradiction]|].
    split; [split; [intros [r H]; discriminate H | intros H; contradiction]|].
    split; [split; [intros [r H]; discriminate H | intros H; contradiction]|].
    intros e [H|[H|H]]; inversion H; subst; now apply R.
Qed.

Lemma metrics_accept_iff_witness :
  exists a, mean_absolute_error [[Some 1]; [Some 2]] [[Some 1]; [Some 4]] = Ok a.
Proof.
  apply (proj1 (proj2 (metrics_accept_iff [[Some 1]; [Some 2]] [[Some 1]; [Some 4]]))).
  split; [reflexivity|]. split; [discriminate|].
  split; repeat constructor; discriminate.
Defined.

(** ** The errors and the scores *)

Lemma inject_Z_S (n : nat) : inject_Z (Z.of_nat (S n)) == inject_Z (Z.of_nat n) + 1.
Proof. rewrite Nat2Z.inj_succ. unfold Z.succ. rewrite inject_Z_plus. reflexivity. Qed.

Lemma inject_Z_nat_pos (n : nat) : (1 <= n)%nat -> 0 < inject_Z (Z.of_nat n).
Proof. intros H. change 0 with (inject_Z 0). rewrite <- Zlt_Qlt. lia. Qed.

Lemma abs_error_nonneg (tp : Q * Q) : 0 <= abs_error tp.
Proof. apply Qabs_nonneg. Qed.

Lemma abs_error_sq (tp : Q * Q) : abs_error tp * abs_error tp == sq_error tp.
Proof.
  unfold abs_error, sq_error. destruct tp as [a b]. cbn [fst snd].
  apply Qabs_case; intros _; ring.
Qed.

Lemma sq_error_nonneg (tp : Q * Q) : 0 <= sq_error tp.
Proof.
  rewrite <- abs_error_sq. apply Qmult_le_0_compat; apply abs_error_nonneg.
Qed.

Lemma abs_error_zero (tp : Q * Q) : abs_error tp == 0 <-> fst tp == snd tp.
Proof.
  unfold abs_error. destruct tp as [a b]. cbn [fst snd]. split.
  - apply Qabs_case; intros _ H; lra.
  - intros H. rewrite H. setoid_replace (b - b) with 0 by ring. reflexivity.
Qed.

Lemma sq_error_zero (tp : Q * Q) : sq_error tp == 0 <-> fst tp == snd tp.
Proof.
  rewrite <- abs_error_zero, <- abs_error_sq. split.
  - intros H. apply Qmult_integral in H. tauto.
  - intros H. rewrite H. ring.
Qed.

Lemma qsum_cons (q : Q) (l : list Q) : qsum (q :: l) = q + qsum l.
Proof. reflexivity. Qed.

Lemma qsum_map_nonneg (A : Type) (f : A -> Q) (l : list A) :
  (forall a, 0 <= f a) -> 0 <= qsum (map f l).
Proof.
  intros H. induction l as [|a l IH]; [apply Qle_refl|].
  cbn [map]. rewrite qsum_cons. specialize (H a). lra.
Qed.

Lemma qsum_map_zero (A : Type) (f : A -> Q) (l : list A) :
  (forall a, 0 <= f a) ->
  (qsum (map f l) == 0 <-> Forall (fun a => f a == 0) l).
Proof.
  intros H. induction l as [|a l IH]; cbn [map].
  - split; [constructor | reflexivity].
  - rewrite qsum_cons. pose proof (H a) as Ha.
    pose proof (qsum_map_nonneg A f l H) as Hl. split.
    + intros E. constructor; [lra | apply IH; lra].
    + intros F. inversion F as [|? ? Fa Fl]; subst. apply IH in Fl. lra.
Qed.

Lemma sq_nonneg (q : Q) : 0 <= q * q.
Proof.
  destruct (Qlt_le_dec q 0) as [H|H].
  - setoid_replace (q * q) with ((- q) * (- q)) by ring.
    apply Qmult_le_0_compat; lra.
  - apply Qmult_le_0_compat; lra.
Qed.





Lemma perfect_iff (y_true y_pred : list (list value)) (t p : list Q) :
  map (hd None) y_true = map Some t -> map (hd None) y_pred = map Some p ->
  length y_true = length y_pred ->
  (Forall2 (fun u v => veq (hd None u) (hd None v)) y_true y_pred <->
   Forall (fun tp => fst tp == snd tp) (combine t p)).
Proof.
  revert y_pred t p. induction y_true as [|u y_true IH]; intros y_pred t p Ht Hp L.
  - destruct y_pred; [|discriminate]. destruct t; [|discriminate].
    split; constructor.
  - destruct y_pred as [|v y_pred]; [discriminate|].
    destruct t as [|a t]; [discriminate|]. destruct p as [|b p]; [discriminate|].
    simpl in Ht, Hp, L. inversion Ht as [[Hu Ht']]. inversion Hp as [[Hv Hp']].
    cbn [combine]. split.
    + intros H. inversion H as [|? ? ? ? Huv Hrest]; subst.
      constructor.
      * rewrite Hu, Hv in Huv. exact Huv.
      * apply (IH y_pred t p); auto.
    + intros H. inversion H as [|? ? Hab Hrest]; subst.
      constructor.
      * rewrite Hu, Hv. exact Hab.
      * apply (IH y_pred t p); auto.
Qed.




Lemma r2_score_cases (y_true y_pred : list (list value)) (r : value) :
  r2_score y_true y_pred = Ok r ->
  ((length y_true < 2)%nat -> r = None) /\
  ((2 <= length y_true)%nat ->
   exists s, r = Some s /\ s <= 1 /\
             (s == 1 <->
              Forall2 (fun u v => veq (hd None u) (hd None v)) y_true y_pred)).
Proof.
  unfold r2_score.
  destruct (check_reg_targets y_true y_pred) as [[t p]|e] eqn:C; [|discriminate].
  cbn [bind fst snd].
  destruct (check_reg_targets_lengths _ _ _ _ C) as [Lt [Lp N]].
  apply check_reg_targets_Ok in C. destruct C as [L [Nt [Ht Hp]]].
  pose proof (perfect_iff y_true y_pred t p Ht Hp L) as P.
  rewrite Lp.
  destruct (Nat.ltb_spec (length y_true) 2) as [Hn|Hn].
  - intros H. inversion H. split; [reflexivity | lia].
  - intros H. inversion H as [E]. clear H E. split; [lia|]. intros _.
    eexists. split; [reflexivity|].
    pose proof (qsum_map_nonneg _ sq_error (combine t p) sq_error_nonneg) as Sn.
    pose proof (qsum_map_nonneg _ (fun a => (a - average t) * (a - average t)) t
                  (fun a => sq_nonneg _)) as Sd.
    pose proof (qsum_map_zero _ sq_error (combine t p) sq_error_nonneg) as Zn.
    assert (Pn : qsum (map sq_error (combine t p)) == 0 <->
                 Forall2 (fun u v => veq (hd None u) (hd None v)) y_true y_pred).
    { rewrite Zn, P. split; intros F; rewrite Forall_forall in *; intros x Hx;
        apply sq_error_zero; now apply F. }
    clear Zn P. revert Sn Sd Pn.
    generalize (qsum (map sq_error (combine t p)))
      (qsum (map (fun a => (a - average t) * (a - average t)) t)).
    intros num den Sn Sd Pn.
    destruct (Qeq_bool num 0) eqn:En.
    + apply Qeq_bool_iff in En. split; [apply Qle_refl|].
      split; [intros _; now apply Pn | reflexivity].
    + assert (Nn : ~ num == 0).
      { intros Z. apply Qeq_bool_iff in Z. congruence. }
      assert (Pnum : 0 < num) by (apply Qle_lteq in Sn; destruct Sn as [Sn|Sn];
                                  [exact Sn | exfalso; apply Nn; now symmetry]).
      destruct (Qeq_bool den 0) eqn:Ed.
      * split; [discriminate|]. split; [intros Z; discriminate Z|].
        intros F. exfalso. apply Nn. now apply Pn.
      * assert (Nd : ~ den == 0).
        { intros Z. apply Qeq_bool_iff in Z. congruence. }
        assert (Pden : 0 < den) by (apply Qle_lteq in Sd; destruct Sd as [Sd|Sd];
                                    [exact Sd | exfalso; apply Nd; now symmetry]).
        assert (Pq : 0 < num / den)
          by (apply Qlt_shift_div_l; [exact Pden | now rewrite Qmult_0_l]).
        revert Pq. generalize (num / den). intros q Pq.
        split; [lra|]. split; [intros Z; lra|].
        intros F. exfalso. apply Nn. now apply Pn.
Qed.



Lemma sq_error_mean (m : Q) (t : list Q) :
  map sq_error (combine t (map (fun _ => m) t)) = map (fun a => (a - m) * (a - m)) t.
Proof. induction t as [|a t IH]; [reflexivity|]. simpl. now rewrite IH. Qed.

(** X20.  The baseline of the coefficient of determination.  Predicting the
    mean of the targets for every sample scores 0 when the targets are not
    all equal, and 1 when they are: the constant prediction is then
    exact. *)
Theorem r2_score_of_mean :
  forall t : list Q,
    (2 <= length t)%nat ->
    exists s,
      r2_score (map (fun q => [Some q]) t) (map (fun _ => [Some (average t)]) t) =
      Ok (Some s) /\
      ((exists q, In q t /\ ~ q == average t) -> s == 0) /\
      (Forall (fun q => q == average t) t -> s == 1).
Proof.
  intros t Ht.
  assert (C : check_reg_targets (map (fun q => [Some q]) t)
                (map (fun _ => [Some (average t)]) t) =
              Ok (t, map (fun _ => average t) t)).
  { apply check_reg_targets_Ok. rewrite !length_map, !map_map. cbn [hd].
    split; [reflexivity|]. split; [destruct t; [simpl in Ht; lia | discriminate]|].
    split; reflexivity. }
  unfold r2_score. rewrite C. cbn [bind fst snd]. rewrite length_map.
  destruct (Nat.ltb_spec (length t) 2) as [Hn|_]; [lia|].
  rewrite sq_error_mean.
  pose proof (qsum_map_zero _ (fun a => (a - average t) * (a - average t)) t
                (fun a => sq_nonneg _)) as Z.
  revert Z. generalize (qsum (map (fun a => (a - average t) * (a - average t)) t)).
  intros den Z. eexists. split; [reflexivity|].
  destruct (Qeq_bool den 0) eqn:E.
  - apply Qeq_bool_iff in E. split; [|reflexivity].
    intros [q [Hq Nq]]. exfalso. apply Nq.
    apply Z in E. rewrite Forall_forall in E. specialize (E q Hq).
    apply Qmult_integral in E. lra.
  - assert (Nd : ~ den == 0).
    { intros H. apply Qeq_bool_iff in H. congruence. }
    split.
    + intros _. field. exact Nd.
    + intros F. exfalso. apply Nd. apply Z.
      rewrite Forall_forall in *. intros q Hq. rewrite (F q Hq). ring.
Qed.

Lemma r2_score_of_mean_witness :
  exists s,
    r2_score (map (fun q => [Some q]) [1; 3]) (map (fun _ => [Some (average [1; 3])]) [1; 3])
    = Ok (Some s) /\ s == 0.
Proof.
  destruct (r2_score_of_mean [1; 3]) as [s [E [H _]]]; [simpl; lia|].
  exists s. split; [exact E|]. apply H.
  exists 1. split; [now left|]. vm_compute. discriminate.
Defined.

(** ** The evaluation of a built dataset *)

Lemma dataset_targets (data : DataFrame) (ds : Dataset) :
  dataset_builder data = Ok ds ->
  exists ycol,
    get_column target data = Some ycol /\
    y_train ds ++ y_test ds = map (fun v => [v]) (transform (fit ycol) ycol) /\
    length (y_train ds) =
      (length (Station_ID data) - n_test_of (length (Station_ID data)))%nat /\
    length (y_test ds) = n_test_of (length (Station_ID data)) /\
    (2 <= length (Station_ID data))%nat.
Proof.
  intros H.
  destruct (dataset_builder_result _ _ H) as [cols [ycol [_ [Y [_ [_ T]]]]]].
  exists ycol. unfold column in Y.
  destruct (get_column target data) as [c|]; [|discriminate]. inversion Y; subst c.
  split; [reflexivity|].
  destruct (train_test_split_inv _ _ _ _ _ _ _ _ T) as [Ly Ln].
  destruct (train_test_split_app _ _ _ _ _ _ _ _ T) as [_ Ey].
  split; [now rewrite <- Ey|].
  rewrite train_test_split_ok in T by assumption.
  rewrite length_map, rows_of_length in T, Ln.
  rewrite !length_map, rows_of_length in Ly.
  destruct (n_test_of_bounds (length (Station_ID data))) as [B1 B2].
  inversion T as [[T1 T2 T3 T4]].
  rewrite length_firstn, length_firstn, length_skipn, !length_map, Ly.
  split; [lia|]. split; [lia | exact Ln].
Qed.

Lemma r2_score_no_missing (y_true y_pred : list (list value)) (r : value) :
  r2_score y_true y_pred = Ok r -> ~ In [None] y_true.
Proof.
  unfold r2_score.
  destruct (check_reg_targets y_true y_pred) as [tp|e] eqn:C; [|discriminate].
  intros _ Hin.
  assert (A : exists tp, check_reg_targets y_true y_pred = Ok tp) by now exists tp.
  apply check_reg_targets_accepts in A. destruct A as [_ [_ [F _]]].
  rewrite Forall_forall in F. now apply (F [None] Hin).
Qed.

Lemma r2_score_Raise (y_true y_pred : list (list value)) (e : error) :
  r2_score y_true y_pred = Raise e -> exists msg, e = ValueError msg.
Proof.
  unfold r2_score.
  destruct (check_reg_targets y_true y_pred) as [tp|e0] eqn:C; cbn [bind].
  - destruct (length (snd tp) <? 2)%nat; discriminate.
  - intros H. inversion H; subst. now apply (check_reg_targets_Raise _ _ _ C).
Qed.

Lemma evaluate_r2 (ds : Dataset) (pt pe : list (list value)) (sc : Scores) :
  evaluate ds pt pe = Ok sc ->
  r2_score (y_train ds) pt = Ok (r2_train sc) /\
  r2_score (y_test ds) pe = Ok (r2_test sc).
Proof.
  unfold evaluate.
  destruct (r2_score (y_train ds) pt) as [r1|e]; [|discriminate]. cbn [bind].
  destruct (r2_score (y_test ds) pe) as [r2|e]; [|discriminate]. cbn [bind].
  destruct (mean_absolute_error (y_train ds) pt) as [a1|e]; [|discriminate]. cbn [bind].
  destruct (mean_absolute_error (y_test ds) pe) as [a2|e]; [|discriminate]. cbn [bind].
  destruct (mean_squared_error (y_train ds) pt) as [s1|e]; [|discriminate]. cbn [bind].
  destruct (mean_squared_error (y_test ds) pe) as [s2|e]; [|discriminate]. cbn [bind].
  intros H. inversion H. split; reflexivity.
Qed.

(** X21.  The evaluation cell on a built dataset, whatever the model
    predicts.  If the target column of the enriched table has a missing
    cell, the cell raises [ValueError]: the scaled target of one of the two
    partitions holds NaN.  If the cell completes, the test score R² is NaN
    exactly when the table has at most five rows, since the test partition
    then has a single sample, and the training score R² is NaN exactly when
    the table has two rows. *)
Theorem evaluate_on_dataset :
  forall (data : DataFrame) (ds : Dataset) (y_pred_train y_pred_test : list (list value)),
    dataset_builder data = Ok ds ->
    ((exists ycol, get_column target data = Some ycol /\ In None ycol) ->
     exists msg, evaluate ds y_pred_train y_pred_test = Raise (ValueError msg)) /\
    (forall sc, evaluate ds y_pred_train y_pred_test = Ok sc ->
       (r2_test sc = None <-> (length (Station_ID data) <= 5)%nat) /\
       (r2_train sc = None <-> length (Station_ID data) = 2%nat)).
Proof.
  intros data ds pt pe H.
  destruct (dataset_targets data ds H) as [ycol [Y [E [Ltr [Lte N]]]]].
  destruct (n_test_of_bounds (length (Station_ID data))) as [B1 B2].
  split.
  - intros [ycol' [Y' Hin]]. rewrite Y in Y'. inversion Y'; subst ycol'.
    assert (M : In [None] (y_train ds ++ y_test ds)).
    { rewrite E. apply in_map_iff. exists None. split; [reflexivity|].
      unfold transform. apply in_map_iff. exists None. split; [reflexivity | exact Hin]. }
    unfold evaluate.
    destruct (r2_score (y_train ds) pt) as [r1|e] eqn:R1; cbn [bind].
    + destruct (r2_score (y_test ds) pe) as [r2|e] eqn:R2; cbn [bind].
      * exfalso. apply in_app_or in M. destruct M as [M|M].
        -- now apply (r2_score_no_missing _ _ _ R1).
        -- now apply (r2_score_no_missing _ _ _ R2).
      * destruct (r2_score_Raise _ _ _ R2) as [msg ->]. now exists msg.
    + destruct (r2_score_Raise _ _ _ R1) as [msg ->]. now exists msg.
  - intros sc Hs. destruct (evaluate_r2 ds pt pe sc Hs) as [R1 R2].
    destruct (r2_score_cases _ _ _ R1) as [S1 G1].
    destruct (r2_score_cases _ _ _ R2) as [S2 G2].
    rewrite Ltr in S1, G1. rewrite Lte in S2, G2. split; split.
    + intros Z. destruct (Nat.lt_ge_cases (n_test_of (length (Station_ID data))) 2)
        as [C|C]; [lia|].
      destruct (G2 C) as [s [Es _]]. congruence.
    + intros C. apply S2. lia.
    + intros Z.
      destruct (Nat.lt_ge_cases
                  (length (Station_ID data) - n_test_of (length (Station_ID data))) 2)
        as [C|C]; [lia|].
      destruct (G1 C) as [s [Es _]]. congruence.
    + intros C. apply S1. lia.
Qed.

Lemma evaluate_on_dataset_witness :
  exists ds sc,
    dataset_builder
      (mkDataFrame [1%Z; 1%Z; 1%Z]
         (map (fun n => (n, [Some 1; Some 2; Some 3])) (target :: features))) = Ok ds /\
    evaluate ds (y_train ds) (y_test ds) = Ok sc /\ r2_test sc = None.
Proof.
  set (data := mkDataFrame [1%Z; 1%Z; 1%Z]
                 (map (fun n => (n, [Some 1; Some 2; Some 3])) (target :: features))).
  set (ds := match dataset_builder data with
             | Ok ds => ds
             | Raise _ => mkDataset [] [] [] [] [] (fit [])
             end).
  assert (H : dataset_builder data = Ok ds) by (vm_compute; reflexivity).
  assert (Hs : exists sc, evaluate ds (y_train ds) (y_test ds) = Ok sc)
    by (vm_compute; eexists; reflexivity).
  destruct Hs as [sc Hs].
  destruct (evaluate_on_dataset data ds (y_train ds) (y_test ds) H) as [_ G].
  destruct (G sc Hs) as [[_ Z] _].
  exists ds, sc. split; [exact H|]. split; [exact Hs|]. apply Z. simpl. lia.
Defined.

(** * Where the derived and the filled values come from *)

Lemma In_known (q : Q) (x : Series) : In q (known x) <-> In (Some q) x.
Proof.
  induction x as [|[v|] x IH]; simpl.
  - tauto.
  - rewrite IH. split; intros [H|H]; auto; left; congruence.
  - rewrite IH. split; [auto | intros [H|H]; [discriminate | exact H]].
Qed.

Lemma qsum_bounds (lo hi : Q) (l : list Q) :
  (forall q, In q l -> lo <= q /\ q <= hi) ->
  inject_Z (Z.of_nat (length l)) * lo <= qsum l /\
  qsum l <= inject_Z (Z.of_nat (length l)) * hi.
Proof.
  induction l as [|a l IH]; intros H.
  - cbn [length qsum fold_right]. change (inject_Z (Z.of_nat 0)) with 0. lra.
  - cbn [length]. rewrite qsum_cons, inject_Z_S.
    destruct (H a (or_introl eq_refl)) as [La Ua].
    destruct IH as [L U]; [intros q Hq; apply H; now right|].
    revert L U. generalize (qsum l) (inject_Z (Z.of_nat (length l))). intros S n L U.
    lra.
Qed.

Lemma mean_bounds (lo hi : Q) (x : Series) :
  (forall q, In (Some q) x -> lo <= q /\ q <= hi) ->
  match mean x with
  | Some m => lo <= m /\ m <= hi /\ exists q, In (Some q) x
  | None => forall q, ~ In (Some q) x
  end.
Proof.
  intros H. unfold mean.
  destruct (known x) as [|a l] eqn:E.
  - intros q Hq. apply In_known in Hq. now rewrite E in Hq.
  - destruct (qsum_bounds lo hi (a :: l)) as [L U].
    { intros q Hq. apply H, In_known. now rewrite E. }
    assert (P : 0 < inject_Z (Z.of_nat (length (a :: l))))
      by (apply inject_Z_nat_pos; simpl; lia).
    split; [apply Qle_shift_div_l; [exact P | lra]|].
    split; [apply Qle_shift_div_r; [exact P | lra]|].
    exists a. apply In_known. rewrite E. now left.
Qed.

(** X22.  A rolling mean stays within its window.  At every position the
    rounded 7-sample rolling mean is known exactly when the window of the
    position has a known cell, and it then lies between the roundings of
    any lower and upper bound of the known cells of the window: the mean
    never leaves the range of the samples it averages. *)
Theorem rolling_mean_within_window :
  forall (x : Series) (i : nat) (lo hi : Q),
    (i < length x)%nat ->
    (forall q, In (Some q) (trailing_window 7 i x) -> lo <= q /\ q <= hi) ->
    exists c, nth_error (round_series (rolling_mean 7 1 x)) i = Some c /\
              (c <> None <-> exists q, In (Some q) (trailing_window 7 i x)) /\
              (forall m, c = Some m -> round4 lo <= m /\ m <= round4 hi).
Proof.
  intros x i lo hi Hi B.
  rewrite (rolling_mean_round x i Hi).
  eexists. split; [reflexivity|].
  pose proof (mean_bounds lo hi _ B) as M.
  destruct (mean (trailing_window 7 i x)) as [m|]; cbn [option_map].
  - destruct M as [L [U K]]. split; [split; [intros _; exact K | discriminate]|].
    intros m' E. inversion E; subst. split; now apply round4_monotone.
  - split; [split; [intros C; now contradiction C|]|discriminate].
    intros [q Hq]. now apply M in Hq.
Qed.

Lemma rolling_mean_within_window_witness :
  exists c, nth_error (round_series (rolling_mean 7 1 scenario_series)) 2 = Some c /\
            forall m, c = Some m -> round4 170 <= m /\ m <= round4 190.
Proof.
  destruct (rolling_mean_within_window scenario_series 2 170 190) as [c [E [_ H]]].
  - simpl. lia.
  - intros q Hq. simpl in Hq.
    destruct Hq as [Hq|[Hq|[Hq|[]]]]; inversion Hq; subst; split; discriminate.
  - exists c. split; [exact E | exact H].
Defined.

Lemma copied_refl (x : Series) : copied_from x x.
Proof. intros v Hv. exists v. split; [exact Hv | now left]. Qed.

Lemma copied_trans (x y z : Series) :
  copied_from x y -> copied_from y z -> copied_from x z.
Proof.
  intros Hxy Hyz v Hv. destruct (Hyz v Hv) as [u [Hu Eu]].
  destruct (Hxy u Hu) as [w [Hw Ew]]. exists w. split; [exact Hw|].
  destruct Eu as [->| ->], Ew as [->| ->]; auto.
  right. apply round4_idem.
Qed.

Lemma copied_round (x : Series) : copied_from x (round_series x).
Proof.
  intros v Hv. unfold round_series in Hv. apply in_map_iff in Hv.
  destruct Hv as [[u|] [E Hu]]; [|discriminate]. simpl in E. inversion E; subst.
  exists u. split; [exact Hu | now right].
Qed.

Lemma copied_bfill (x : Series) : copied_from x (bfill x).
Proof.
  intros v. induction x as [|a x IH]; [contradiction|].
  assert (Hh : hd None (bfill x) = Some v -> In (Some v) (bfill x))
    by (destruct (bfill x); simpl; [discriminate | intros ->; now left]).
  assert (S : In (Some v) (bfill (a :: x)) -> a = Some v \/ In (Some v) (bfill x)).
  { destruct a as [q|]; simpl; intros [H|H]; auto. }
  intros Hv. destruct (S Hv) as [->|H].
  - exists v. split; [now left | now left].
  - destruct (IH H) as [u [Hu E]]. exists u. split; [now right | exact E].
Qed.

Lemma In_ffill_from (x : Series) (last : value) (v : Q) :
  In (Some v) (ffill_from last x) -> last = Some v \/ In (Some v) x.
Proof.
  revert last. induction x as [|[q|] x IH]; intros last; simpl.
  - contradiction.
  - intros [H|H]; [right; now left|].
    destruct (IH _ H) as [E|E]; right; [left; exact E | right; exact E].
  - intros [H|H]; [now left|].
    destruct (IH _ H) as [E|E]; [now left | right; now right].
Qed.

Lemma copied_ffill (x : Series) : copied_from x (ffill x).
Proof.
  intros v Hv. unfold ffill in Hv. apply In_ffill_from in Hv.
  destruct Hv as [Hv|Hv]; [discriminate|]. exists v. split; [exact Hv | now left].
Qed.

Lemma copied_backfill_feature (df df' : DataFrame) (f c : string) (y : Series) :
  backfill_feature df f = Ok df' -> get_column c df' = Some y ->
  exists x, get_column c df = Some x /\ length y = length x /\ copied_from x y.
Proof.
  unfold backfill_feature. destruct (has_column f df).
  - unfold column.
    destruct (get_column (lag_name f) df) as [lag|] eqn:El; [|discriminate].
    cbn [bind].
    destruct (get_column (rolling_name f)
                (set_column (lag_name f) (round_series (bfill lag)) df))
      as [rm|] eqn:Er; [|discriminate].
    cbn [bind]. intros H. inversion H; subst. clear H.
    assert (Fill : forall x, length (round_series (bfill x)) = length x /\
                             copied_from x (round_series (bfill x))).
    { intros x. split; [now rewrite round_series_length, bfill_length|].
      eapply copied_trans; [apply copied_bfill | apply copied_round]. }
    destruct (String.eqb_spec c (rolling_name f)) as [->|Nr].
    + rewrite get_set_same. intros E. inversion E; subst.
      destruct (String.eqb_spec (rolling_name f) (lag_name f)) as [Erl|Nrl].
      * rewrite Erl in Er. rewrite get_set_same in Er. inversion Er; subst.
        rewrite Erl, El. exists lag. split; [reflexivity|].
        destruct (Fill lag) as [L1 C1].
        destruct (Fill (round_series (bfill lag))) as [L2 C2].
        split; [congruence|]. eapply copied_trans; eassumption.
      * rewrite get_set_other in Er by exact Nrl.
        exists rm. split; [exact Er|]. apply Fill.
    + rewrite get_set_other by exact Nr.
      destruct (String.eqb_spec c (lag_name f)) as [->|Nl].
      * rewrite get_set_same. intros E. inversion E; subst.
        exists lag. split; [exact El|]. apply Fill.
      * rewrite get_set_other by exact Nl. intros E.
        exists y. split; [exact E|]. split; [reflexivity | apply copied_refl].
  - intros H E. inversion H; subst.
    exists y. split; [exact E|]. split; [reflexivity | apply copied_refl].
Qed.

Lemma copied_step7 (l : list string) (df df' : DataFrame) (c : string) (y : Series) :
  foldM backfill_feature df l = Ok df' -> get_column c df' = Some y ->
  exists x, get_column c df = Some x /\ length y = length x /\ copied_from x y.
Proof.
  revert df. induction l as [|f l IH]; intros df; simpl.
  - intros H E. inversion H; subst.
    exists y. split; [exact E|]. split; [reflexivity | apply copied_refl].
  - destruct (backfill_feature df f) as [d|e] eqn:B; [|discriminate]. cbn [bind].
    intros H E. destruct (IH d H E) as [z [Ez [Lz Cz]]].
    destruct (copied_backfill_feature df d f c z B Ez) as [x [Ex [Lx Cx]]].
    exists x. split; [exact Ex|]. split; [congruence|].
    eapply copied_trans; eassumption.
Qed.

(** X23.  The fill passes invent no value and move none between columns.
    Every column of their output has the length of the column of the same
    name before them; a cell that was known keeps its value, rounded; and
    every known cell of the output is the rounding of a known cell of that
    same column. *)
Theorem fill_passes_copy_within_column :
  forall (d out : DataFrame) (c : string) (y : Series),
    fill_passes d = Ok out -> get_column c out = Some y ->
    exists x,
      get_column c d = Some x /\ length y = length x /\
      (forall i u, nth_error x i = Some (Some u) ->
                   nth_error y i = Some (Some (round4 u))) /\
      (forall v, In (Some v) y -> exists u, In (Some u) x /\ v = round4 u).
Proof.
  intros d out c y F E.
  destruct (fill_passes_result _ _ F) as [d7 [H7 ->]].
  pose proof (step7_result _ _ H7) as H7'.
  unfold step9, step8 in E. rewrite !get_map_columns in E.
  destruct (get_column c d7) as [z|] eqn:Ez; [|discriminate].
  cbn [option_map] in E. inversion E; subst y. clear E.
  destruct (copied_step7 core_features d d7 c z H7' Ez) as [x [Ex [Lx Cx]]].
  exists x. split; [exact Ex|].
  split; [unfold ffill; now rewrite !round_series_length, ffill_from_length|].
  split.
  - intros i u Hu.
    assert (K : cell c i d = Some (Some u)) by (unfold cell; now rewrite Ex).
    pose proof (fill_passes_keep_known d _ c i u F K) as K'.
    unfold cell, step9, step8 in K'. rewrite !get_map_columns, Ez in K'. exact K'.
  - intros v Hv.
    assert (C : copied_from x (round_series (ffill z))).
    { eapply copied_trans; [exact Cx|].
      eapply copied_trans; [apply copied_ffill | apply copied_round]. }
    unfold round_series in Hv at 1. apply in_map_iff in Hv.
    destruct Hv as [[w|] [Ew Hw]]; [|discriminate]. simpl in Ew. inversion Ew; subst.
    destruct (C w Hw) as [u [Hu [->| ->]]]; exists u; split; auto.
    apply round4_idem.
Qed.

Lemma fill_passes_copy_within_column_witness :
  exists out y x,
    fill_passes (match derive leading_gap_table with
                 | Ok d => d
                 | Raise _ => leading_gap_table
                 end) = Ok out /\
    get_column "PM10 (µg/m³)_lag_1" out = Some y /\
    get_column "PM10 (µg/m³)_lag_1"
      (match derive leading_gap_table with
       | Ok d => d
       | Raise _ => leading_gap_table
       end) = Some x /\
    forall v, In (Some v) y -> exists u, In (Some u) x /\ v = round4 u.
Proof.
  set (d := match derive leading_gap_table with
            | Ok d => d
            | Raise _ => leading_gap_table
            end).
  set (out := match fill_passes d with Ok o => o | Raise _ => d end).
  set (y := match get_column "PM10 (µg/m³)_lag_1" out with Some y => y | None => [] end).
  assert (F : fill_passes d = Ok out) by (vm_compute; reflexivity).
  assert (E : get_column "PM10 (µg/m³)_lag_1" out = Some y) by (vm_compute; reflexivity).
  destruct (fill_passes_copy_within_column d out _ y F E) as [x [Ex [_ [_ H]]]].
  exists out, y, x. split; [exact F|]. split; [exact E|]. split; [exact Ex | exact H].
Defined.
